(** * Market Loader: a shallow embedding of the candle ingestion core

    The development follows the Go packages of the repository:
    - [money]   : [ConvertMoneyValue], the exact units/nano encoder;
    - [arch]    : [parsePriceString], the decoder of the archive path;
    - [config]  : interval table, row limits, history start date;
    - [storage] : partitions, candle/dividend/instrument upserts;
    - [data]    : [LoadCandleData], the chunked fetch driver;
                  [processInstruments], the instrument loader;
    - [app]     : [ProcessInstrument], [ProcessInstrumentDividends];
    - [arch]    : [DownloadYearArchive], the request loop of the archive.

    Conventions.  A Go [string] is a sequence of bytes ([list ascii]); a Go
    [int64]/[int32]/[time.Duration] is a [Z] whose wrap-around is written
    where the source computes with it; a [time.Time] is the number of
    nanoseconds since the Unix epoch, read in UTC; a Go [error] value is
    [option error], [None] being [nil].  The database and the brokerage API
    are the environment: every call to them goes through a function of the
    world state that the theorems quantify over. *)

From Stdlib Require Import ZArith List Ascii String Lia Bool.
From stdpp Require Import gmap strings.
Import ListNotations.
Local Open Scope Z_scope.

(* ================================================================== *)
(** * Part I: definitions                                              *)
(* ================================================================== *)

(** ** Machine integers *)

Definition minInt64 : Z := - 2 ^ 63.
Definition maxInt64 : Z := 2 ^ 63 - 1.
Definition minInt32 : Z := - 2 ^ 31.
Definition maxInt32 : Z := 2 ^ 31 - 1.

Definition inInt64 (z : Z) : Prop := minInt64 <= z <= maxInt64.
Definition inInt32 (z : Z) : Prop := minInt32 <= z <= maxInt32.

(** Two's complement wrap-around of a 64-bit signed result. *)
Definition wrap64 (z : Z) : Z := (z + 2 ^ 63) mod 2 ^ 64 - 2 ^ 63.

(** ** Go strings *)

Definition bytes (s : string) : list ascii := list_ascii_of_string s.

Definition byteZ (c : ascii) : Z := Z.of_N (N_of_ascii c).

Definition isDigit (c : ascii) : bool := (48 <=? byteZ c) && (byteZ c <=? 57).
Definition digitVal (c : ascii) : Z := byteZ c - 48.
Definition digitChar (d : Z) : ascii := ascii_of_N (Z.to_N (48 + d)).

(** *** fmt: the verbs [%d] and [%09d] *)

(** Decimal digits of a non-negative integer, most significant first.
    The fuel is the bit length of the number, which always suffices. *)
Fixpoint formatUint_aux (fuel : nat) (n : Z) : list ascii :=
  match fuel with
  | O => []
  | S f =>
      if n <? 10 then [digitChar n]
      else formatUint_aux f (n / 10) ++ [digitChar (n mod 10)]
  end.

Definition formatUint (n : Z) : list ascii :=
  formatUint_aux (S (Z.to_nat (Z.log2 n))) n.

(** [fmt.Sprintf("%d", n)] *)
Definition sprintf_d (n : Z) : list ascii :=
  if n <? 0 then "-"%char :: formatUint (- n) else formatUint n.

Definition padZeros (width : nat) (ds : list ascii) : list ascii :=
  repeat "0"%char (width - length ds) ++ ds.

(** [fmt.Sprintf("%09d", n)]: the sign counts in the width. *)
Definition sprintf_09d (n : Z) : list ascii :=
  if n <? 0 then "-"%char :: padZeros 8 (formatUint (- n))
  else padZeros 9 (formatUint n).

(** *** strconv.ParseInt(s, 10, bitSize) *)

Fixpoint parseDigits (acc : Z) (s : list ascii) : option Z :=
  match s with
  | [] => Some acc
  | c :: r => if isDigit c then parseDigits (10 * acc + digitVal c) r else None
  end.

(** [strconv.ParseUint] in base 10, before the range check: the empty
    string and any byte that is not a decimal digit are syntax errors. *)
Definition parseUintDigits (s : list ascii) : option Z :=
  match s with
  | [] => None
  | _ => parseDigits 0 s
  end.

(** [None] stands for a non-nil [err] (syntax or range). *)
Definition ParseInt (s : list ascii) (bitSize : Z) : option Z :=
  let cutoff := 2 ^ (bitSize - 1) in
  match s with
  | [] => None
  | c :: r =>
      if Ascii.eqb c "+" then
        match parseUintDigits r with
        | Some un => if un <? cutoff then Some un else None
        | None => None
        end
      else if Ascii.eqb c "-" then
        match parseUintDigits r with
        | Some un => if un <=? cutoff then Some (- un) else None
        | None => None
        end
      else
        match parseUintDigits s with
        | Some un => if un <? cutoff then Some un else None
        | None => None
        end
  end.

(** *** strings.TrimSpace, strings.Index *)

(** UTF-8 encodings of the code points for which [unicode.IsSpace] holds. *)
Definition spaceRunes : list (list ascii) :=
  map (map (fun z => ascii_of_N (Z.to_N z)))
    [ [9]; [10]; [11]; [12]; [13]; [32];
      [194; 133]; [194; 160]; [225; 154; 128];
      [226; 128; 128]; [226; 128; 129]; [226; 128; 130]; [226; 128; 131];
      [226; 128; 132]; [226; 128; 133]; [226; 128; 134]; [226; 128; 135];
      [226; 128; 136]; [226; 128; 137]; [226; 128; 138];
      [226; 128; 168]; [226; 128; 169]; [226; 128; 175];
      [226; 129; 159]; [227; 128; 128] ].

Fixpoint stripPrefix (p s : list ascii) : option (list ascii) :=
  match p, s with
  | [], _ => Some s
  | a :: p', b :: s' => if Ascii.eqb a b then stripPrefix p' s' else None
  | _ :: _, [] => None
  end.

Fixpoint stripAny (ps : list (list ascii)) (s : list ascii) : option (list ascii) :=
  match ps with
  | [] => None
  | p :: ps' =>
      match stripPrefix p s with
      | Some r => Some r
      | None => stripAny ps' s
      end
  end.

Fixpoint trimLeftRunes (fuel : nat) (ps : list (list ascii)) (s : list ascii)
  : list ascii :=
  match fuel with
  | O => s
  | S f =>
      match stripAny ps s with
      | Some r => trimLeftRunes f ps r
      | None => s
      end
  end.

Definition TrimSpace (s : list ascii) : list ascii :=
  let l := trimLeftRunes (length s) spaceRunes s in
  rev (trimLeftRunes (length l) (map (@rev ascii) spaceRunes) (rev l)).

(** [strings.Index(s, string(c))]; [None] is Go's [-1]. *)
Fixpoint IndexByte (c : ascii) (s : list ascii) : option nat :=
  match s with
  | [] => None
  | a :: r => if Ascii.eqb a c then Some O else option_map S (IndexByte c r)
  end.

(** ** Package money *)

(** The loop [for len(s) > 0 && s[len(s)-1] == '0' { s = s[:len(s)-1] }]
    drops zeros from the end of [s]: [stripTrailingZeros] below runs
    [dropLeadingZeros] on the reversed text. *)
Fixpoint dropLeadingZeros (s : list ascii) : list ascii :=
  match s with
  | [] => []
  | c :: r => if Ascii.eqb c "0" then dropLeadingZeros r else s
  end.

Definition stripTrailingZeros (s : list ascii) : list ascii :=
  rev (dropLeadingZeros (rev s)).

Definition ConvertMoneyValue (units nano : Z) : list ascii :=
  if nano =? 0 then sprintf_d units
  else
    let nanoStr := stripTrailingZeros (sprintf_09d nano) in
    if (length nanoStr =? 0)%nat then sprintf_d units
    else sprintf_d units ++ "."%char :: nanoStr.

(** ** Package arch *)

(** [pb.Quotation] *)
Record Quotation := mkQuotation { Units : Z; Nano : Z }.

Definition MaxNanoDigits : nat := 9.

(** The loop [for len(fractionStr) < 9 { fractionStr += "0" }]. *)
Definition padFraction (fractionStr : list ascii) : list ascii :=
  fractionStr ++ repeat "0"%char (9 - length fractionStr).

(** [if len(fractionStr) > MaxNanoDigits { fractionStr = fractionStr[:MaxNanoDigits] }] *)
Definition truncFraction (fractionStr : list ascii) : list ascii :=
  if (MaxNanoDigits <? length fractionStr)%nat
  then firstn MaxNanoDigits fractionStr else fractionStr.

Definition parsePriceString (priceStr : list ascii) : Quotation :=
  let priceStr := TrimSpace priceStr in
  match IndexByte "."%char priceStr with
  | None =>
      match ParseInt priceStr 64 with
      | Some units => mkQuotation units 0
      | None => mkQuotation 0 0
      end
  | Some dotIndex =>
      let unitsStr := firstn dotIndex priceStr in
      let fractionStr := skipn (S dotIndex) priceStr in
      match ParseInt unitsStr 64 with
      | None => mkQuotation 0 0
      | Some units =>
          if (length fractionStr =? 0)%nat then mkQuotation units 0
          else
            match ParseInt (truncFraction (padFraction fractionStr)) 32 with
            | None => mkQuotation units 0
            | Some nano => mkQuotation units nano
            end
      end
  end.

(** Malformed input as the decoder meets it: after trimming, the integer
    part or the (padded and truncated) non-empty fractional part is not
    accepted by [ParseInt]. *)
Definition malformedPrice (priceStr : list ascii) : Prop :=
  let t := TrimSpace priceStr in
  match IndexByte "."%char t with
  | None => ParseInt t 64 = None
  | Some dotIndex =>
      ParseInt (firstn dotIndex t) 64 = None \/
      (skipn (S dotIndex) t <> [] /\
       ParseInt (truncFraction (padFraction (skipn (S dotIndex) t))) 32 = None)
  end.

(** ** Package time (standard library), read in UTC *)

(** An instant: nanoseconds since 1970-01-01T00:00:00Z. *)
Definition Time := Z.
(** [time.Duration]: a signed 64-bit count of nanoseconds. *)
Definition Duration := Z.

Definition Nanosecond : Duration := 1.
Definition Second : Duration := 1000000000.
Definition Minute : Duration := 60 * Second.
Definition Hour : Duration := 60 * Minute.

(** [time.Time{}]: January 1, year 1, 00:00:00 UTC. *)
Definition zeroTime : Time := -62135596800 * Second.

Definition IsZero (t : Time) : bool := t =? zeroTime.
Definition Before (t u : Time) : bool := t <? u.
Definition After (t u : Time) : bool := u <? t.
Definition Add (t : Time) (d : Duration) : Time := t + d.

(** [t.Sub(u)] saturates at the bounds of [Duration]. *)
Definition Sub (t u : Time) : Duration :=
  let d := t - u in
  if d <? minInt64 then minInt64 else if maxInt64 <? d then maxInt64 else d.

(** Proleptic Gregorian calendar: day number (days since the Unix epoch)
    to civil date and back.  Years are counted from March, so that the
    leap day is the last day of the counted year; a 400-year era has
    146097 days. *)
Definition civilFromDays (z : Z) : Z * Z * Z :=
  let z := z + 719468 in
  let era := z / 146097 in
  let doe := z mod 146097 in
  let yoe := (doe - doe / 1460 + doe / 36524 - doe / 146096) / 365 in
  let doy := doe - (365 * yoe + yoe / 4 - yoe / 100) in
  let mp := (5 * doy + 2) / 153 in
  let d := doy - (153 * mp + 2) / 5 + 1 in
  let m := if mp <? 10 then mp + 3 else mp - 9 in
  let y := yoe + era * 400 in
  (if m <=? 2 then y + 1 else y, m, d).

Definition daysFromCivil (y m d : Z) : Z :=
  let y := if m <=? 2 then y - 1 else y in
  let era := y / 400 in
  let yoe := y mod 400 in
  let mp := if 2 <? m then m - 3 else m + 9 in
  let doy := (153 * mp + 2) / 5 + d - 1 in
  let doe := yoe * 365 + yoe / 4 - yoe / 100 + doy in
  era * 146097 + doe - 719468.

Definition secondsPerDay : Z := 86400.

Definition unixDay (t : Time) : Z := t / (secondsPerDay * Second).

Definition Year (t : Time) : Z := fst (fst (civilFromDays (unixDay t))).
Definition Month (t : Time) : Z := snd (fst (civilFromDays (unixDay t))).
Definition Day (t : Time) : Z := snd (civilFromDays (unixDay t)).

Definition secondOfDay (t : Time) : Z := (t / Second) mod secondsPerDay.
Definition clockHour (t : Time) : Z := secondOfDay t / 3600.
Definition clockMinute (t : Time) : Z := (secondOfDay t mod 3600) / 60.
Definition clockSecond (t : Time) : Z := secondOfDay t mod 60.
Definition Nanos (t : Time) : Z := t mod Second.

(** [time.Date(year, month, day, hour, min, sec, nsec, time.UTC)]: the
    month is normalised into 1..12 with carry into the year; days and the
    clock fields overflow linearly. *)
Definition Date (year month day hour min sec nsec : Z) : Time :=
  let m := month - 1 in
  let year := year + m / 12 in
  let month := m mod 12 + 1 in
  let days := daysFromCivil year month 1 + (day - 1) in
  (days * secondsPerDay + hour * 3600 + min * 60 + sec) * Second + nsec.

(** [t.AddDate(years, months, days)] *)
Definition AddDate (t : Time) (years months days : Z) : Time :=
  Date (Year t + years) (Month t + months) (Day t + days)
       (clockHour t) (clockMinute t) (clockSecond t) (Nanos t).

Definition isLeap (year : Z) : bool :=
  (year mod 4 =? 0) && (negb (year mod 100 =? 0) || (year mod 400 =? 0)).

Definition daysIn (month year : Z) : Z :=
  if month =? 2 then (if isLeap year then 29 else 28)
  else if (month =? 4) || (month =? 6) || (month =? 9) || (month =? 11) then 30
  else 31.

(** [time.Parse("2006-01-02", s)]: four digits, a dash, two digits, a
    dash, two digits and nothing else; month in 1..12 and the day valid
    for the month.  [None] stands for a non-nil error. *)
Definition parseDate (s : list ascii) : option Time :=
  match s with
  | [y1; y2; y3; y4; s1; m1; m2; s2; d1; d2] =>
      if forallb isDigit [y1; y2; y3; y4; m1; m2; d1; d2]
         && Ascii.eqb s1 "-" && Ascii.eqb s2 "-"
      then
        let year := 1000 * digitVal y1 + 100 * digitVal y2
                    + 10 * digitVal y3 + digitVal y4 in
        let month := 10 * digitVal m1 + digitVal m2 in
        let day := 10 * digitVal d1 + digitVal d2 in
        if (1 <=? month) && (month <=? 12)
           && (1 <=? day) && (day <=? daysIn month year)
        then Some (Date year month day 0 0 0 0)
        else None
      else None
  | _ => None
  end.

(** Coordinates inside a 400-year era, as [civilFromDays] computes them:
    the year of the era of a day, the first day of a year, the month
    index (March is 0) of a day of the year and the first day of a month. *)
Definition yearOfEra (doe : Z) : Z :=
  (doe - doe / 1460 + doe / 36524 - doe / 146096) / 365.
Definition yearStart (yoe : Z) : Z := 365 * yoe + yoe / 4 - yoe / 100.
Definition monthIndex (doy : Z) : Z := (5 * doy + 2) / 153.
Definition monthOffset (mp : Z) : Z := (153 * mp + 2) / 5.

(** ** Package config *)

Definition CandleInterval1Min : string := "CANDLE_INTERVAL_1_MIN".
Definition CandleInterval2Min : string := "CANDLE_INTERVAL_2_MIN".
Definition CandleInterval3Min : string := "CANDLE_INTERVAL_3_MIN".
Definition CandleInterval5Min : string := "CANDLE_INTERVAL_5_MIN".
Definition CandleInterval10Min : string := "CANDLE_INTERVAL_10_MIN".
Definition CandleInterval15Min : string := "CANDLE_INTERVAL_15_MIN".
Definition CandleInterval30Min : string := "CANDLE_INTERVAL_30_MIN".
Definition CandleIntervalHour : string := "CANDLE_INTERVAL_HOUR".
Definition CandleInterval2Hour : string := "CANDLE_INTERVAL_2_HOUR".
Definition CandleInterval4Hour : string := "CANDLE_INTERVAL_4_HOUR".
Definition CandleIntervalDay : string := "CANDLE_INTERVAL_DAY".
Definition CandleIntervalWeek : string := "CANDLE_INTERVAL_WEEK".
Definition CandleIntervalMonth : string := "CANDLE_INTERVAL_MONTH".

Definition CandleIntervalText1Min : string := "1min".
Definition CandleIntervalTextHour : string := "1hour".
Definition CandleIntervalTextDay : string := "1day".
Definition CandleIntervalTextWeek : string := "1week".
Definition CandleIntervalTextMonth : string := "1month".

Definition MinutesInHour : Z := 60.
Definition HoursInDay : Z := 24.
Definition DaysInWeek : Z := 7.
Definition DaysInMonth : Z := 30.
Definition MinutesInDay : Z := HoursInDay * MinutesInHour.
Definition DefaultUpdateThreshold : Duration := 1 * Minute.

Definition GetTimeUnitAndConfigKey (intervalType : string) : Duration * string :=
  if String.eqb intervalType CandleInterval1Min then (Minute, CandleIntervalText1Min)
  else if String.eqb intervalType CandleInterval2Min then (Minute, CandleIntervalText1Min)
  else if String.eqb intervalType CandleInterval3Min then (Minute, CandleIntervalText1Min)
  else if String.eqb intervalType CandleInterval5Min then (Minute, CandleIntervalText1Min)
  else if String.eqb intervalType CandleInterval10Min then (Minute, CandleIntervalText1Min)
  else if String.eqb intervalType CandleInterval15Min then (Minute, CandleIntervalText1Min)
  else if String.eqb intervalType CandleInterval30Min then (Minute, CandleIntervalText1Min)
  else if String.eqb intervalType CandleIntervalHour then (Minute, CandleIntervalText1Min)
  else if String.eqb intervalType CandleInterval2Hour then (Hour, CandleIntervalTextHour)
  else if String.eqb intervalType CandleInterval4Hour then (Hour, CandleIntervalTextHour)
  else if String.eqb intervalType CandleIntervalDay
       then (wrap64 (HoursInDay * Hour), CandleIntervalTextDay)
  else if String.eqb intervalType CandleIntervalWeek
       then (wrap64 (DaysInWeek * HoursInDay * Hour), CandleIntervalTextWeek)
  else if String.eqb intervalType CandleIntervalMonth
       then (wrap64 (DaysInMonth * HoursInDay * Hour), CandleIntervalTextMonth)
  else (DefaultUpdateThreshold, CandleIntervalText1Min).

Definition GetThreshold (intervalType : string) : Duration :=
  fst (GetTimeUnitAndConfigKey intervalType).

(** The part of [config.Config] the loaders read ([Loading]). *)
Record Config := mkConfig {
  StartDate : string;
  Limits : gmap string Z;
  RateLimitPause : Z
}.

Definition GetIntervalLimit (c : Config) (interval : string) : Z :=
  match Limits c !! interval with
  | Some limit => limit
  | None => MinutesInDay
  end.

(** [time.Duration(cfg.GetIntervalLimit(configKey)) * timeUnit], a 64-bit
    product. *)
Definition chunkSizeOf (c : Config) (intervalType : string) : Duration :=
  let '(timeUnit, configKey) := GetTimeUnitAndConfigKey intervalType in
  wrap64 (GetIntervalLimit c configKey * timeUnit).

(** ** Errors *)

Inductive error :=
| PgError (Severity Code Message : string)   (* *pgconn.PgError *)
| ErrorString (msg : string)                 (* errors.New and the like *)
| WrapError (msg : string) (err : error).    (* fmt.Errorf("msg: %w", err) *)

(** [fmt.Errorf(msg + ": %w", err)].  The result is a fresh error value
    whatever [err] is; with a nil operand the verb prints [%!w(<nil>)]
    and nothing is wrapped. *)
Definition Errorf (msg : string) (err : option error) : error :=
  match err with
  | Some e => WrapError msg e
  | None => ErrorString (msg ++ ": %!w(<nil>)")
  end.

(** [errors.As(err, &pgErr)]: the first [*pgconn.PgError] of the chain. *)
Fixpoint errorsAsPgError (e : error) : option (string * string) :=
  match e with
  | PgError _ code message => Some (code, message)
  | ErrorString _ => None
  | WrapError _ e' => errorsAsPgError e'
  end.

(** [inner] is [outer] or is reached from it by unwrapping. *)
Fixpoint wraps (outer inner : error) : Prop :=
  outer = inner \/
  match outer with
  | WrapError _ e' => wraps e' inner
  | _ => False
  end.

(** [strings.Contains] *)
Fixpoint Contains (s substr : string) : bool :=
  if String.prefix substr s then true
  else match s with
       | EmptyString => false
       | String _ r => Contains r substr
       end.

(** ** Records *)

(** [pb.HistoricCandle]; a nil price reads as zero through the getters. *)
Record HistoricCandle := mkCandle {
  cTime : Time;
  cOpen : Quotation;
  cHigh : Quotation;
  cLow : Quotation;
  cClose : Quotation;
  cVolume : Z
}.

(** A [float64] is only stored and copied: its bit pattern. *)
Definition float64 := Z.

(** [storage.Dividend] *)
Record Dividend := mkDividend {
  dFigi : string;
  dPaymentDate : Time;
  dDeclaredDate : option Time;
  dAmount : float64;
  dCurrency : string;
  dYieldPercent : option float64
}.

(** [storage.Instrument]: the fields [SaveInstrument] sends. *)
Record Instrument := mkInstrument {
  Figi : string;
  Ticker : string;
  Name : string;
  InstrumentType : string;
  Currency : string;
  LotSize : Z;
  MinPriceIncrement : float64;
  TradingStatus : string;
  Enabled : bool;
  Isin : string;
  ShortEnabledFlag : bool;
  IpoDate : Time;
  IssueSize : Z;
  Sector : string;
  RealExchange : string;
  First1MinCandleDate : Time;
  First1DayCandleDate : Time;
  DataSourceID : Z;
  CreatedAt : Time;
  UpdatedAt : Time
}.

(** ** The SQL statements the storage package sends *)

Inductive Query :=
| InsertCandle (figi : string) (time : Time)
               (open_price high_price low_price close_price : list ascii)
               (volume : Z) (interval_type : string)
| CreatePartitionOf (partitionName : list ascii) (from to : Time)
| UpsertDividend (d : Dividend)
| UpsertInstrumentBasic (i : Instrument)   (* internal/storage/instruments.go *)
| UpsertInstrument (i : Instrument)        (* the extended table *)
| UpdateLastLoadedTimeOf (figi : string) (t : Time).

Inductive TimeQuery :=
| MaxCandleTime (figi interval_type : string)
| MaxDividendDate (figi : string).

(** Result of scanning a nullable timestamp. *)
Inductive ScanTime :=
| ScanError (e : error)
| ScanNull
| ScanValue (t : Time).

(** ** The environment and the trace of a run *)

Record Env (World : Type) := mkEnv {
  dbExec : Query -> World -> option error * World;
  dbQueryTime : TimeQuery -> World -> ScanTime * World;
  apiGetHistoricCandles :
    string -> Time -> Time -> string -> World
    -> (error + list HistoricCandle) * World;
  apiLoadDividends :
    string -> Time -> Time -> World -> (error + list Dividend) * World;
  timeNow : World -> Time * World
}.
Arguments dbExec {World}.
Arguments dbQueryTime {World}.
Arguments apiGetHistoricCandles {World}.
Arguments apiLoadDividends {World}.
Arguments timeNow {World}.

Inductive Event :=
| EvExec (q : Query) (result : option error)
| EvFetch (figi : string) (from to : Time) (interval : string)
| EvSleep (d : Duration)
| EvLog (msg : string).

(** Database statements of a trace, in order. *)
Definition dbCalls (tr : list Event) : list (Query * option error) :=
  flat_map (fun e => match e with EvExec q r => [(q, r)] | _ => [] end) tr.

(** Chunks requested from the API, in order. *)
Definition fetchedChunks (tr : list Event) : list (Time * Time) :=
  flat_map (fun e => match e with EvFetch _ a b _ => [(a, b)] | _ => [] end) tr.

Definition logged (msg : string) (tr : list Event) : Prop := In (EvLog msg) tr.

(** State-passing computations over a world and the trace so far. *)
Definition M (World A : Type) : Type :=
  World * list Event -> A * (World * list Event).

Definition ret {World A} (a : A) : M World A := fun st => (a, st).

Definition bind {World A B} (c : M World A) (k : A -> M World B) : M World B :=
  fun st => let '(a, st') := c st in k a st'.

Notation "'let!' x ':=' c 'in' k" := (bind c (fun x => k))
  (at level 10, x name, c at level 100, k at level 200, only parsing).
Notation "'do!' c 'in' k" := (bind c (fun _ => k))
  (at level 10, c at level 100, k at level 200, only parsing).

Definition emit {World} (e : Event) : M World unit :=
  fun '(w, tr) => (tt, (w, tr ++ [e])).

(** [fmt.Sprintf("%02d", n)] for a month number. *)
Definition sprintf_02d (n : Z) : list ascii :=
  if n <? 0 then "-"%char :: padZeros 1 (formatUint (- n))
  else padZeros 2 (formatUint n).

(** ** Package storage: pure parts *)

(** [fmt.Sprintf("candles_%d_%02d", t.Year(), t.Month())] *)
Definition partitionName (t : Time) : list ascii :=
  bytes "candles_" ++ sprintf_d (Year t) ++ "_"%char :: sprintf_02d (Month t).

(** The two bounds [CreatePartition] computes.  They are sent as text with
    the layout [2006-01-02 15:04:05]; both are whole seconds. *)
Definition partitionMonthStart (t : Time) : Time :=
  Date (Year t) (Month t) 1 0 0 0 0.

Definition partitionMonthEnd (t : Time) : Time :=
  Add (AddDate (partitionMonthStart t) 0 1 0) (- Second).

(** First instant of the month after the month of [t]. *)
Definition nextMonthStart (t : Time) : Time :=
  Date (Year t) (Month t + 1) 1 0 0 0 0.

Definition createPartitionQuery (t : Time) : Query :=
  CreatePartitionOf (partitionName t) (partitionMonthStart t) (partitionMonthEnd t).

Definition insertCandleQuery (figi : string) (candle : HistoricCandle)
           (intervalType : string) : Query :=
  InsertCandle figi (cTime candle)
    (ConvertMoneyValue (Units (cOpen candle)) (Nano (cOpen candle)))
    (ConvertMoneyValue (Units (cHigh candle)) (Nano (cHigh candle)))
    (ConvertMoneyValue (Units (cLow candle)) (Nano (cLow candle)))
    (ConvertMoneyValue (Units (cClose candle)) (Nano (cClose candle)))
    (cVolume candle) intervalType.

(** The [switch] of [SaveCandles] on a [PgError]: the debug line of the
    first matching case, or [None] for the [default] case. *)
Definition classifyPartitionError (code message : string) : option string :=
  if String.eqb code "23514"
  then Some "Обнаружена ошибка отсутствия партиции (код 23514)"%string
  else if Contains message "no partition of relation"
  then Some "Обнаружена ошибка отсутствия партиции (английское сообщение)"%string
  else if Contains message "для строки не найдена секция"
  then Some "Обнаружена ошибка отсутствия партиции (русское сообщение)"%string
  else if Contains message "partition"
  then Some "Обнаружена ошибка партиции (общее сообщение)"%string
  else None.

(** An insert error [SaveCandles] treats as a missing partition. *)
Definition isPartitionError (err : error) : bool :=
  match errorsAsPgError err with
  | Some (code, message) =>
      match classifyPartitionError code message with
      | Some _ => true
      | None => false
      end
  | None => false
  end.

(** ** The loaders, over an environment *)

Section Driver.
Context {World : Type} (env : Env World).

Definition exec (q : Query) : M World (option error) :=
  fun '(w, tr) =>
    let '(r, w') := dbExec env q w in (r, (w', tr ++ [EvExec q r])).

Definition queryTime (q : TimeQuery) : M World ScanTime :=
  fun '(w, tr) => let '(r, w') := dbQueryTime env q w in (r, (w', tr)).

Definition now : M World Time :=
  fun '(w, tr) => let '(t, w') := timeNow env w in (t, (w', tr)).

Definition logf (msg : string) : M World unit := emit (EvLog msg).

(** *** storage *)

Definition CreatePartition (t : Time) : M World (option error) :=
  let! err := exec (createPartitionQuery t) in
  match err with
  | Some e => ret (Some (Errorf "ошибка создания партиции" (Some e)))
  | None => ret None
  end.

(** One iteration of the loop of [SaveCandles]: [Some err] when the
    function returns [err], [None] when the loop goes on. *)
Definition saveCandle (figi : string) (intervalType : string)
           (candle : HistoricCandle) : M World (option error) :=
  let! err := exec (insertCandleQuery figi candle intervalType) in
  match err with
  | None => ret None
  | Some err =>
      match errorsAsPgError err with
      | Some (code, message) =>
          match classifyPartitionError code message with
          | None => ret (Some (Errorf "ошибка вставки свечи" (Some err)))
          | Some line =>
              do! logf line in
              do! logf "Создаем партицию для времени" in
              let! createErr := CreatePartition (cTime candle) in
              match createErr with
              | Some ce =>
                  ret (Some (Errorf "ошибка создания партиции" (Some ce)))
              | None =>
                  let! retryErr := exec (insertCandleQuery figi candle intervalType) in
                  match retryErr with
                  | Some re =>
                      ret (Some (Errorf
                        "ошибка вставки свечи после создания партиции" (Some re)))
                  | None => ret None
                  end
              end
          end
      | None => ret (Some (Errorf "ошибка вставки свечи" (Some err)))
      end
  end.

Fixpoint saveCandlesLoop (figi : string) (intervalType : string)
         (candles : list HistoricCandle) : M World (option error) :=
  match candles with
  | [] => ret None
  | candle :: rest =>
      let! r := saveCandle figi intervalType candle in
      match r with
      | Some err => ret (Some err)
      | None => saveCandlesLoop figi intervalType rest
      end
  end.

Definition SaveCandles (figi : string) (candles : list HistoricCandle)
           (intervalType : string) : M World (option error) :=
  match candles with
  | [] => ret None
  | _ =>
      do! logf "Начинаем сохранение свечей" in
      saveCandlesLoop figi intervalType candles
  end.

Definition SaveDividend (dividend : Dividend) : M World (option error) :=
  let! err := exec (UpsertDividend dividend) in
  ret (Some (Errorf "ошибка сохранения дивиденда" err)).

(** [internal/storage/instruments.go] *)
Definition SaveInstrumentBasic (instrument : Instrument) : M World (option error) :=
  let! err := exec (UpsertInstrumentBasic instrument) in
  ret (Some (Errorf "ошибка сохранения инструмента" err)).

(** The extended table *)
Definition SaveInstrument (instrument : Instrument) : M World (option error) :=
  let! err := exec (UpsertInstrument instrument) in
  match err with
  | Some e => ret (Some (Errorf "ошибка сохранения инструмента" (Some e)))
  | None => ret None
  end.

Definition GetLastLoadedTime (figi intervalType : string)
  : M World (Time * option error) :=
  let! r := queryTime (MaxCandleTime figi intervalType) in
  match r with
  | ScanError e =>
      ret (zeroTime,
           Some (Errorf "ошибка выполнения запроса к таблице candles" (Some e)))
  | ScanNull => ret (zeroTime, None)
  | ScanValue t => ret (t, None)
  end.

(** [GetLastDividendDate]; its caller drops the error. *)
Definition GetLastDividendDate (figi : string) : M World Time :=
  let! r := queryTime (MaxDividendDate figi) in
  match r with
  | ScanValue t => ret t
  | _ => ret zeroTime
  end.

(** *** config *)

Definition ShouldUpdateData (lastLoadedTime : Time) (intervalType : string)
  : M World bool :=
  let! t := now in
  ret (GetThreshold intervalType <? Sub t lastLoadedTime).

Definition GetStartDate (c : Config) : M World Time :=
  if String.eqb (StartDate c) ""
  then (let! t := now in ret (AddDate t (-5) 0 0))
  else match parseDate (bytes (StartDate c)) with
       | Some startDate => ret startDate
       | None => let! t := now in ret (AddDate t (-5) 0 0)
       end.

(** *** data *)

Definition LoadCandleChunk (figi : string) (from to : Time) (interval : string)
  : M World (error + list HistoricCandle) :=
  fun '(w, tr) =>
    let '(r, w') := apiGetHistoricCandles env figi from to interval w in
    let r' := match r with
              | inl e => inl (Errorf "ошибка загрузки свечей" (Some e))
              | inr candles => inr candles
              end in
    (r', (w', tr ++ [EvFetch figi from to interval])).

(** The block "Сохраняем чанк в БД" of the chunk loop. *)
Definition saveChunk (figi intervalType : string)
           (candles : list HistoricCandle) : M World (option error) :=
  if (0 <? length candles)%nat then
    let! e := SaveCandles figi candles intervalType in
    match e with
    | Some err => ret (Some (Errorf "ошибка сохранения чанка" (Some err)))
    | None => do! logf "Чанк сохранен" in ret None
    end
  else ret None.

(** The chunk loop of [LoadCandleData].  [None]: the fuel ran out before
    the loop ended; [Some None]: the loop ended; [Some (Some err)]: the
    function returned [err] from inside the loop. *)
Fixpoint chunkLoop (fuel : nat) (cfg : Config) (figi intervalType : string)
         (chunkSize : Duration) (to currentFrom : Time)
  : M World (option (option error)) :=
  match fuel with
  | O => ret None
  | S fuel' =>
      if Before currentFrom to then
        let currentTo := Add currentFrom chunkSize in
        let currentTo := if After currentTo to then to else currentTo in
        do! logf "Загружаем чанк" in
        let! r := LoadCandleChunk figi currentFrom currentTo intervalType in
        match r with
        | inl err => ret (Some (Some (Errorf "ошибка загрузки чанка" (Some err))))
        | inr candles =>
            let! saved := saveChunk figi intervalType candles in
            match saved with
            | Some err => ret (Some (Some err))
            | None =>
                do! emit (EvSleep (wrap64 (RateLimitPause cfg * Second))) in
                chunkLoop fuel' cfg figi intervalType chunkSize to currentTo
            end
        end
      else ret (Some None)
  end.

(** Start of the loading period (lines "Определяем период загрузки"). *)
Definition loadingFrom (cfg : Config) (lastLoadedTime : Time) : M World Time :=
  if IsZero lastLoadedTime then GetStartDate cfg else ret lastLoadedTime.

Definition LoadCandleData (fuel : nat) (cfg : Config) (figi : string)
           (lastLoadedTime : Time) (intervalType : string)
  : M World (option (option error)) :=
  let! fresh := (if negb (IsZero lastLoadedTime)
     then (let! upd := ShouldUpdateData lastLoadedTime intervalType in ret (negb upd))
     else ret false) in
  if fresh then
    do! logf "Данные актуальны, пропускаем" in ret (Some None)
  else
    let chunkSize := chunkSizeOf cfg intervalType in
    let! from := loadingFrom cfg lastLoadedTime in
    let! to := now in
    do! logf "Загружаем данные с разбивкой по лимитам API" in
    let! r := chunkLoop fuel cfg figi intervalType chunkSize to from in
    match r with
    | Some None =>
        do! logf (if IsZero lastLoadedTime
                 then "Полная история загружена" else "Данные обновлены") in
        ret (Some None)
    | other => ret other
    end.

(** *** app *)

(** [ProcessInstrument] up to the end of the load; the progress update
    that follows returns the load error unchanged. *)
Definition ProcessInstrument (fuel : nat) (cfg : Config) (figi interval : string)
  : M World (option (option error)) :=
  let! r := GetLastLoadedTime figi interval in
  match r with
  | (_, Some err) =>
      ret (Some (Some (Errorf "ошибка получения времени последней загрузки"
                              (Some err))))
  | (lastLoadedTime, None) =>
      LoadCandleData fuel cfg figi lastLoadedTime interval
  end.

Fixpoint saveDividendsLoop (dividends : list Dividend) : M World (option error) :=
  match dividends with
  | [] => ret None
  | dividend :: rest =>
      let! err := SaveDividend dividend in
      match err with
      | Some e => ret (Some (Errorf "ошибка сохранения дивиденда" (Some e)))
      | None => saveDividendsLoop rest
      end
  end.

(** The block "Сохраняем дивиденды" of [ProcessInstrumentDividends]. *)
Definition storeDividends (dividends : list Dividend) : M World (option error) :=
  if (0 <? length dividends)%nat then
    let! saved := saveDividendsLoop dividends in
    match saved with
    | Some err => ret (Some err)
    | None => do! logf "Дивиденды сохранены" in ret None
    end
  else
    do! logf "Новых дивидендов нет" in ret None.

Definition LoadDividends (figi : string) (startTime endTime : Time)
  : M World (error + list Dividend) :=
  fun '(w, tr) =>
    let '(r, w') := apiLoadDividends env figi startTime endTime w in
    (r, (w', tr)).

Definition ProcessInstrumentDividends (cfg : Config) (figi : string)
  : M World (option error) :=
  let! lastDividendDate := GetLastDividendDate figi in
  let! endTime := now in
  let! startTime := GetStartDate cfg in
  let startTime :=
    if negb (IsZero lastDividendDate)
    then AddDate lastDividendDate 0 0 1 else startTime in
  if After startTime endTime then
    do! logf "Дивиденды актуальны, пропускаем" in ret None
  else
    do! logf "Загружаем дивиденды" in
    let! r := LoadDividends figi startTime endTime in
    match r with
    | inl err => ret (Some (Errorf "ошибка загрузки дивидендов" (Some err)))
    | inr dividends => storeDividends dividends
    end.
End Driver.

(** ** Chunks *)

(** The chunks follow one another from [from] to [to]: each starts where
    the previous one ends, none is empty, the last one ends at [to]. *)
Fixpoint chained (from to : Time) (chunks : list (Time * Time)) : Prop :=
  match chunks with
  | [] => from = to
  | (a, b) :: rest => a = from /\ a < b /\ chained b to rest
  end.

(** Every chunk but the last has length [size]; the last one is not
    longer. *)
Fixpoint sized (size : Duration) (chunks : list (Time * Time)) : Prop :=
  match chunks with
  | [] => True
  | (a, b) :: rest =>
      match rest with
      | [] => b - a <= size
      | _ :: _ => b - a = size
      end /\ sized size rest
  end.

(** Iterations the loop needs to go from [from] to [to]. *)
Definition chunkCount (size : Duration) (from to : Time) : nat :=
  Z.to_nat ((to - from + size - 1) / size).

(** ** The PostgreSQL side, as far as the statements above use it

    The schema is the one [InitDatabase] creates: [candles] is partitioned
    by range on [time] with primary key [(figi, time, interval_type)],
    [dividends] is unique on [(figi, payment_date)] and [instruments] has
    primary key [figi].  A range partition [FROM (a) TO (b)] holds the rows
    with [a <= time < b]: the upper bound is exclusive. *)

Record Partition := mkPartition {
  pName : list ascii;
  pFrom : Time;
  pTo : Time
}.

Definition partitionCovers (p : Partition) (t : Time) : bool :=
  (pFrom p <=? t) && (t <? pTo p).

(** The partition [CreatePartition] asks for. *)
Definition partitionOf (t : Time) : Partition :=
  mkPartition (partitionName t) (partitionMonthStart t) (partitionMonthEnd t).

Record CandleRow := mkCandleRow {
  rFigi : string;
  rTime : Time;
  rInterval : string;
  rOpen : list ascii;
  rHigh : list ascii;
  rLow : list ascii;
  rClose : list ascii;
  rVolume : Z
}.

(** A row of [instruments]: the columns [SaveInstrument] writes, kept in
    the shape of the Go struct, and [last_loaded_time]. *)
Record InstrumentRow := mkInstrumentRow {
  rMeta : Instrument;
  rLastLoadedTime : option Time
}.

Record PgState := mkPgState {
  partitions : list Partition;
  candles : list CandleRow;
  dividends : list Dividend;
  instruments : gmap string InstrumentRow;
  dbNow : Time
}.

Definition sameCandleKey (figi : string) (t : Time) (interval : string)
           (r : CandleRow) : bool :=
  String.eqb figi (rFigi r) && (t =? rTime r) && String.eqb interval (rInterval r).

(** [INSERT ... ON CONFLICT (figi, time, interval_type) DO UPDATE SET] the
    four prices and the volume. *)
Fixpoint upsertCandle (new : CandleRow) (rows : list CandleRow) : list CandleRow :=
  match rows with
  | [] => [new]
  | r :: rest =>
      if sameCandleKey (rFigi new) (rTime new) (rInterval new) r
      then mkCandleRow (rFigi r) (rTime r) (rInterval r)
             (rOpen new) (rHigh new) (rLow new) (rClose new) (rVolume new) :: rest
      else r :: upsertCandle new rest
  end.

(** [INSERT ... ON CONFLICT (figi, payment_date) DO UPDATE SET] the other
    columns. *)
Fixpoint upsertDividend (new : Dividend) (rows : list Dividend) : list Dividend :=
  match rows with
  | [] => [new]
  | r :: rest =>
      if String.eqb (dFigi new) (dFigi r) && (dPaymentDate new =? dPaymentDate r)
      then new :: rest
      else r :: upsertDividend new rest
  end.

(** The [DO UPDATE SET] list of the extended [SaveInstrument]: every sent
    column except [enabled] and [created_at]; [updated_at = NOW()]. *)
Definition mergeInstrument (old : InstrumentRow) (new : Instrument) (nowDb : Time)
  : InstrumentRow :=
  mkInstrumentRow
    (mkInstrument (Figi (rMeta old)) (Ticker new) (Name new) (InstrumentType new)
       (Currency new) (LotSize new) (MinPriceIncrement new) (TradingStatus new)
       (Enabled (rMeta old))
       (Isin new) (ShortEnabledFlag new) (IpoDate new) (IssueSize new)
       (Sector new) (RealExchange new)
       (First1MinCandleDate new) (First1DayCandleDate new) (DataSourceID new)
       (CreatedAt (rMeta old)) nowDb)
    (rLastLoadedTime old).

(** The [DO UPDATE SET] list of [internal/storage/instruments.go]: the
    seven descriptive columns; [updated_at = NOW()]. *)
Definition mergeInstrumentBasic (old : InstrumentRow) (new : Instrument)
           (nowDb : Time) : InstrumentRow :=
  let o := rMeta old in
  mkInstrumentRow
    (mkInstrument (Figi o) (Ticker new) (Name new) (InstrumentType new)
       (Currency new) (LotSize new) (MinPriceIncrement new) (TradingStatus new)
       (Enabled o)
       (Isin o) (ShortEnabledFlag o) (IpoDate o) (IssueSize o)
       (Sector o) (RealExchange o)
       (First1MinCandleDate o) (First1DayCandleDate o) (DataSourceID o)
       (CreatedAt o) nowDb)
    (rLastLoadedTime old).

(** The row a first insert creates. *)
Definition freshInstrument (new : Instrument) : InstrumentRow :=
  mkInstrumentRow new None.

Definition freshInstrumentBasic (new : Instrument) (nowDb : Time) : InstrumentRow :=
  mkInstrumentRow
    (mkInstrument (Figi new) (Ticker new) (Name new) (InstrumentType new)
       (Currency new) (LotSize new) (MinPriceIncrement new) (TradingStatus new)
       (Enabled new)
       EmptyString false 0 0 EmptyString EmptyString 0 0 0 nowDb nowDb)
    None.

Definition rangesOverlap (a b : Time) (p : Partition) : bool :=
  (a <? pTo p) && (pFrom p <? b).

Definition noPartitionError : error :=
  PgError "ERROR" "23514" "no partition of relation candles found for row".

Definition overlapError : error :=
  PgError "ERROR" "42P17" "partition would overlap an existing partition".

Definition emptyRangeError : error :=
  PgError "ERROR" "42P17" "empty range bound specified for partition".

Definition pgExec (q : Query) (st : PgState) : option error * PgState :=
  match q with
  | InsertCandle figi t o h l c v itv =>
      if existsb (fun p => partitionCovers p t) (partitions st)
      then (None,
            mkPgState (partitions st)
              (upsertCandle (mkCandleRow figi t itv o h l c v) (candles st))
              (dividends st) (instruments st) (dbNow st))
      else (Some noPartitionError, st)
  | CreatePartitionOf name a b =>
      if existsb (fun p => bool_decide (pName p = name)) (partitions st)
      then (None, st)                         (* IF NOT EXISTS *)
      else if b <=? a then (Some emptyRangeError, st)
      else if existsb (rangesOverlap a b) (partitions st)
      then (Some overlapError, st)
      else (None,
            mkPgState (partitions st ++ [mkPartition name a b])
              (candles st) (dividends st) (instruments st) (dbNow st))
  | UpsertDividend d =>
      (None,
       mkPgState (partitions st) (candles st) (upsertDividend d (dividends st))
         (instruments st) (dbNow st))
  | UpsertInstrument i =>
      let row := match instruments st !! Figi i with
                 | Some old => mergeInstrument old i (dbNow st)
                 | None => freshInstrument i
                 end in
      (None,
       mkPgState (partitions st) (candles st) (dividends st)
         (<[Figi i := row]> (instruments st)) (dbNow st))
  | UpsertInstrumentBasic i =>
      let row := match instruments st !! Figi i with
                 | Some old => mergeInstrumentBasic old i (dbNow st)
                 | None => freshInstrumentBasic i (dbNow st)
                 end in
      (None,
       mkPgState (partitions st) (candles st) (dividends st)
         (<[Figi i := row]> (instruments st)) (dbNow st))
  | UpdateLastLoadedTimeOf figi t =>
      (None,
       mkPgState (partitions st) (candles st) (dividends st)
         (alter (fun r => mkInstrumentRow (rMeta r) (Some t)) figi (instruments st))
         (dbNow st))
  end.

(** [SELECT MAX(time) ...] over the matching rows. *)
Definition maxTimeOf (ts : list Time) : ScanTime :=
  match ts with
  | [] => ScanNull
  | t :: rest => ScanValue (fold_left Z.max rest t)
  end.

Definition pgQueryTime (q : TimeQuery) (st : PgState) : ScanTime :=
  match q with
  | MaxCandleTime figi itv =>
      maxTimeOf (map rTime
        (filter (fun r => String.eqb figi (rFigi r) && String.eqb itv (rInterval r))
                (candles st)))
  | MaxDividendDate figi =>
      maxTimeOf (map dPaymentDate
        (filter (fun d => String.eqb figi (dFigi d)) (dividends st)))
  end.

(** A closed world for running the loaders: the database above, a wall
    clock, and a broker that serves the candles and dividends it holds or
    fails with a fixed error. *)
Record SimWorld := mkSim {
  pg : PgState;
  clock : Time;
  market : list HistoricCandle;
  payouts : list Dividend;
  apiDown : option error
}.

Definition simEnv : Env SimWorld :=
  mkEnv SimWorld
    (fun q w =>
       let '(r, st) := pgExec q (pg w) in
       (r, mkSim st (clock w) (market w) (payouts w) (apiDown w)))
    (fun q w => (pgQueryTime q (pg w), w))
    (fun figi a b itv w =>
       match apiDown w with
       | Some e => (inl e, w)
       | None =>
           (inr (filter (fun c => (a <=? cTime c) && (cTime c <=? b)) (market w)), w)
       end)
    (fun figi a b w =>
       match apiDown w with
       | Some e => (inl e, w)
       | None =>
           (inr (filter (fun d => String.eqb figi (dFigi d)
                                  && (a <=? dPaymentDate d) && (dPaymentDate d <=? b))
                        (payouts w)), w)
       end)
    (fun w => (clock w, w)).

Definition emptyPg (nowDb : Time) : PgState := mkPgState [] [] [] ∅ nowDb.

(* ------------------------------------------------------------------ *)
(** ** Predicates and scenarios used by the theorems *)

Definition plainByte (c : ascii) : Prop := isDigit c = true \/ c = "-"%char.

Definition headInert (ps : list (list ascii)) (c : ascii) : bool :=
  forallb (fun p => match p with
                    | [] => false
                    | a :: _ => negb (Ascii.eqb a c)
                    end) ps.

Definition dayNanos : Z := secondsPerDay * Second.

Definition finalSecondOfJanuary2025 : Time := Date 2025 1 31 23 59 59 0.

Definition candleAt (t : Time) : HistoricCandle :=
  mkCandle t (mkQuotation 272 270000000) (mkQuotation 273 0)
           (mkQuotation 272 0) (mkQuotation 272 500000000) 1000.

Definition emptyWorld (t : Time) : SimWorld :=
  mkSim (emptyPg t) t [] [] None.

Definition sameMetadata (row : InstrumentRow) (i : Instrument) : Prop :=
  Ticker (rMeta row) = Ticker i /\ Name (rMeta row) = Name i /\
  InstrumentType (rMeta row) = InstrumentType i /\
  Currency (rMeta row) = Currency i /\ LotSize (rMeta row) = LotSize i /\
  MinPriceIncrement (rMeta row) = MinPriceIncrement i /\
  TradingStatus (rMeta row) = TradingStatus i.

Definition sameExtendedMetadata (row : InstrumentRow) (i : Instrument) : Prop :=
  Isin (rMeta row) = Isin i /\ ShortEnabledFlag (rMeta row) = ShortEnabledFlag i /\
  IpoDate (rMeta row) = IpoDate i /\ IssueSize (rMeta row) = IssueSize i /\
  Sector (rMeta row) = Sector i /\ RealExchange (rMeta row) = RealExchange i /\
  First1MinCandleDate (rMeta row) = First1MinCandleDate i /\
  First1DayCandleDate (rMeta row) = First1DayCandleDate i /\
  DataSourceID (rMeta row) = DataSourceID i.

Definition sberbank (enabled : bool) (name : string) : Instrument :=
  mkInstrument "BBG004730N88" "SBER" name "share" "rub" 10 0
               "normal_trading" enabled "RU0009029540" true 0 21586948000
               "financial" "moex" 0 0 1 0 0.

Definition worldWith (row : InstrumentRow) : SimWorld :=
  mkSim (mkPgState [] [] [] (<[Figi (rMeta row) := row]> ∅) 1700000000) 1700000000
        [] [] None.

(** The claim C4 read on one record: after a first insert that fails with
    a missing-partition error, the statements sent for the record are the
    insert, the creation of the partition and one retry. *)
Definition retriesOnce {World : Type} (env : Env World)
           (figi intervalType : string) (candle : HistoricCandle) (w : World)
  : Prop :=
  forall err w1,
    dbExec env (insertCandleQuery figi candle intervalType) w = (Some err, w1) ->
    isPartitionError err = true ->
    exists createRes retryRes,
      dbCalls (snd (snd (saveCandle env figi intervalType candle (w, []))))
      = [ (insertCandleQuery figi candle intervalType, Some err);
          (createPartitionQuery (cTime candle), createRes);
          (insertCandleQuery figi candle intervalType, retryRes) ].

(** A database where the first half of January 2025 already has a
    partition of its own. *)
Definition halfMonthWorld : SimWorld :=
  mkSim (mkPgState
           [mkPartition (bytes "candles_2025_01_a")
                        (Date 2025 1 1 0 0 0 0) (Date 2025 1 16 0 0 0 0)]
           [] [] ∅ (Date 2025 1 20 12 0 0 0))
        (Date 2025 1 20 12 0 0 0) [] [] None.

(** A record is attempted in a run when its insert is among the statements
    the run sent. *)
Definition attempted (figi intervalType : string) (candle : HistoricCandle)
           (tr : list Event) : Prop :=
  exists r, In (insertCandleQuery figi candle intervalType, r) (dbCalls tr).

(** The claim C5 on a batch [pre ++ c :: post] in which [c] is the first
    record that fails for good. *)
Definition batchGoesOn {World : Type} (env : Env World)
           (figi intervalType : string)
           (pre : list HistoricCandle) (c : HistoricCandle)
           (post : list HistoricCandle) (w : World) : Prop :=
  let start := (w, [EvLog "Начинаем сохранение свечей"]) in
  fst (saveCandlesLoop env figi intervalType pre start) = None ->
  fst (saveCandle env figi intervalType c
         (snd (saveCandlesLoop env figi intervalType pre start))) <> None ->
  forall c', In c' post ->
    attempted figi intervalType c'
      (snd (snd (SaveCandles env figi (pre ++ c :: post) intervalType (w, [])))).

Definition twoCandleBatch : list HistoricCandle :=
  [candleAt finalSecondOfJanuary2025; candleAt (Date 2025 1 15 12 0 0 0)].

(** [c] only appends events satisfying [P] and returns a value
    satisfying [Q]. *)
Definition produces {World A : Type} (c : M World A)
           (P : Event -> Prop) (Q : A -> Prop) : Prop :=
  forall w tr,
    Q (fst (c (w, tr))) /\
    exists evs, snd (snd (c (w, tr))) = tr ++ evs /\ Forall P evs.

Definition notSavedLog (e : Event) : Prop := e <> EvLog "Дивиденды сохранены".

Definition notFetch (e : Event) : Prop :=
  match e with
  | EvFetch _ _ _ _ => False
  | _ => True
  end.

(** The claim C1 for one run of the loop on a healthy environment: with a
    positive row limit and [from < to], some number of iterations ends
    the loop and the chunks requested cover [from, to). *)
Definition chunksCover {World : Type} (env : Env World) (cfg : Config)
           (figi intervalType : string) (from to : Time) (w : World) : Prop :=
  0 < GetIntervalLimit cfg (snd (GetTimeUnitAndConfigKey intervalType)) ->
  from < to ->
  exists fuel,
    let run := chunkLoop env fuel cfg figi intervalType
                         (chunkSizeOf cfg intervalType) to from (w, []) in
    fst run = Some None /\ chained from to (fetchedChunks (snd (snd run))).

Definition configWithLimit (key : string) (limit : Z) : Config :=
  mkConfig "2024-01-01" (<[key := limit]> ∅) 0.

Definition dailyConfig : Config := configWithLimit "1day" 30.

(** The scenario of the specification: nothing persisted, history start
    2024-01-01, current time 2024-01-10, daily candles with a limit of 30
    rows: one chunk, from the start date to the current time. *)
Definition januaryWorld : SimWorld :=
  mkSim (emptyPg (Date 2024 1 10 0 0 0 0)) (Date 2024 1 10 0 0 0 0)
        [candleAt (Date 2024 1 3 7 0 0 0); candleAt (Date 2024 1 9 7 0 0 0)]
        [] None.

(* ------------------------------------------------------------------ *)
(** ** Further functions of the packages                              *)
(* ------------------------------------------------------------------ *)
(** ** Package config: the interval tables *)

Definition CandleIntervalText2Min : string := "2min".
Definition CandleIntervalText3Min : string := "3min".
Definition CandleIntervalText5Min : string := "5min".
Definition CandleIntervalText10Min : string := "10min".
Definition CandleIntervalText15Min : string := "15min".
Definition CandleIntervalText30Min : string := "30min".
Definition CandleIntervalText2Hour : string := "2hour".
Definition CandleIntervalText4Hour : string := "4hour".

(** The map literal [intervalMap] of [ParseInterval]. *)
Definition intervalMap : gmap string string :=
  <[CandleIntervalText1Min := CandleInterval1Min]>
  (<[CandleIntervalText2Min := CandleInterval2Min]>
  (<[CandleIntervalText3Min := CandleInterval3Min]>
  (<[CandleIntervalText5Min := CandleInterval5Min]>
  (<[CandleIntervalText10Min := CandleInterval10Min]>
  (<[CandleIntervalText15Min := CandleInterval15Min]>
  (<[CandleIntervalText30Min := CandleInterval30Min]>
  (<[CandleIntervalTextHour := CandleIntervalHour]>
  (<[CandleIntervalText2Hour := CandleInterval2Hour]>
  (<[CandleIntervalText4Hour := CandleInterval4Hour]>
  (<[CandleIntervalTextDay := CandleIntervalDay]>
  (<[CandleIntervalTextWeek := CandleIntervalWeek]>
  (<[CandleIntervalTextMonth := CandleIntervalMonth]> ∅)))))))))))).

(** [ParseInterval]: the interval constant and a nil error, or the empty
    string and [fmt.Errorf("неподдерживаемый интервал: %s", intervalStr)]. *)
Definition ParseInterval (intervalStr : string) : string * option error :=
  match intervalMap !! intervalStr with
  | Some intervalType => (intervalType, None)
  | None =>
      (EmptyString,
       Some (ErrorString ("неподдерживаемый интервал: " ++ intervalStr)))
  end.

(** The map literal [candleIntervalToText] of [Interval2text]. *)
Definition candleIntervalToText : gmap string string :=
  <[CandleInterval1Min := CandleIntervalText1Min]>
  (<[CandleInterval2Min := CandleIntervalText2Min]>
  (<[CandleInterval3Min := CandleIntervalText3Min]>
  (<[CandleInterval5Min := CandleIntervalText5Min]>
  (<[CandleInterval10Min := CandleIntervalText10Min]>
  (<[CandleInterval15Min := CandleIntervalText15Min]>
  (<[CandleInterval30Min := CandleIntervalText30Min]>
  (<[CandleIntervalHour := CandleIntervalTextHour]>
  (<[CandleInterval2Hour := CandleIntervalText2Hour]>
  (<[CandleInterval4Hour := CandleIntervalText4Hour]>
  (<[CandleIntervalDay := CandleIntervalTextDay]>
  (<[CandleIntervalWeek := CandleIntervalTextWeek]>
  (<[CandleIntervalMonth := CandleIntervalTextMonth]> ∅)))))))))))).

(** [Interval2text]: a missing key reads as the empty string. *)
Definition Interval2text (interval : string) : string :=
  match candleIntervalToText !! interval with
  | Some text => text
  | None => EmptyString
  end.

(** [pb.CandleInterval]: the values the source names, and any other value
    of the enumeration. *)
Inductive CandleInterval :=
| CANDLE_INTERVAL_1_MIN
| CANDLE_INTERVAL_2_MIN
| CANDLE_INTERVAL_3_MIN
| CANDLE_INTERVAL_5_MIN
| CANDLE_INTERVAL_10_MIN
| CANDLE_INTERVAL_15_MIN
| CANDLE_INTERVAL_30_MIN
| CANDLE_INTERVAL_HOUR
| CANDLE_INTERVAL_2_HOUR
| CANDLE_INTERVAL_4_HOUR
| CANDLE_INTERVAL_DAY
| CANDLE_INTERVAL_WEEK
| CANDLE_INTERVAL_MONTH
| CANDLE_INTERVAL_other (number : Z).

Definition GetCandleInterval (intervalType : string) : CandleInterval :=
  if String.eqb intervalType CandleInterval1Min then CANDLE_INTERVAL_1_MIN
  else if String.eqb intervalType CandleInterval2Min then CANDLE_INTERVAL_2_MIN
  else if String.eqb intervalType CandleInterval3Min then CANDLE_INTERVAL_3_MIN
  else if String.eqb intervalType CandleInterval5Min then CANDLE_INTERVAL_5_MIN
  else if String.eqb intervalType CandleInterval10Min then CANDLE_INTERVAL_10_MIN
  else if String.eqb intervalType CandleInterval15Min then CANDLE_INTERVAL_15_MIN
  else if String.eqb intervalType CandleInterval30Min then CANDLE_INTERVAL_30_MIN
  else if String.eqb intervalType CandleIntervalHour then CANDLE_INTERVAL_HOUR
  else if String.eqb intervalType CandleInterval2Hour then CANDLE_INTERVAL_2_HOUR
  else if String.eqb intervalType CandleInterval4Hour then CANDLE_INTERVAL_4_HOUR
  else if String.eqb intervalType CandleIntervalDay then CANDLE_INTERVAL_DAY
  else if String.eqb intervalType CandleIntervalWeek then CANDLE_INTERVAL_WEEK
  else if String.eqb intervalType CandleIntervalMonth then CANDLE_INTERVAL_MONTH
  else if String.eqb intervalType EmptyString then CANDLE_INTERVAL_1_MIN
  else CANDLE_INTERVAL_1_MIN.

Definition GetCandleIntervalString (interval : CandleInterval) : string :=
  match interval with
  | CANDLE_INTERVAL_1_MIN => CandleInterval1Min
  | CANDLE_INTERVAL_2_MIN => CandleInterval2Min
  | CANDLE_INTERVAL_3_MIN => CandleInterval3Min
  | CANDLE_INTERVAL_5_MIN => CandleInterval5Min
  | CANDLE_INTERVAL_10_MIN => CandleInterval10Min
  | CANDLE_INTERVAL_15_MIN => CandleInterval15Min
  | CANDLE_INTERVAL_30_MIN => CandleInterval30Min
  | CANDLE_INTERVAL_HOUR => CandleIntervalHour
  | CANDLE_INTERVAL_2_HOUR => CandleInterval2Hour
  | CANDLE_INTERVAL_4_HOUR => CandleInterval4Hour
  | CANDLE_INTERVAL_DAY => CandleIntervalDay
  | CANDLE_INTERVAL_WEEK => CandleIntervalWeek
  | CANDLE_INTERVAL_MONTH => CandleIntervalMonth
  | CANDLE_INTERVAL_other _ => CandleInterval1Min
  end.

(** [GetThreshold(intervalType) * time.Duration(apiLimit)], a 64-bit
    product. *)
Definition CalculateChunkSize (intervalType : string) (apiLimit : Z) : Duration :=
  wrap64 (GetThreshold intervalType * apiLimit).

Definition GetDateFormat (intervalType : string) : string :=
  if String.eqb intervalType CandleInterval1Min
     || String.eqb intervalType CandleInterval2Min
     || String.eqb intervalType CandleInterval3Min
     || String.eqb intervalType CandleInterval5Min
     || String.eqb intervalType CandleInterval10Min
     || String.eqb intervalType CandleInterval15Min
     || String.eqb intervalType CandleInterval30Min
     || String.eqb intervalType CandleIntervalHour
     || String.eqb intervalType CandleInterval2Hour
     || String.eqb intervalType CandleInterval4Hour
  then "2006-01-02 15:04"
  else if String.eqb intervalType CandleIntervalDay
          || String.eqb intervalType CandleIntervalWeek
          || String.eqb intervalType CandleIntervalMonth
  then "2006-01-02"
  else "2006-01-02 15:04".

(** The configuration with one more entry in [Loading.Limits]. *)
Definition withLimit (c : Config) (key : string) (limit : Z) : Config :=
  mkConfig (StartDate c) (<[key := limit]> (Limits c)) (RateLimitPause c).

(** The interval constants of the source. *)
Definition candleIntervals : list string :=
  [ CandleInterval1Min; CandleInterval2Min; CandleInterval3Min;
    CandleInterval5Min; CandleInterval10Min; CandleInterval15Min;
    CandleInterval30Min; CandleIntervalHour; CandleInterval2Hour;
    CandleInterval4Hour; CandleIntervalDay; CandleIntervalWeek;
    CandleIntervalMonth ].

(** ** Package storage: reading timestamps, recording progress *)

(** The [Error()] text of an error value; a [*pgconn.PgError] prints as
    [Severity + ": " + Message + " (SQLSTATE " + Code + ")"]. *)
Fixpoint errorText (e : error) : string :=
  match e with
  | PgError severity code message =>
      severity ++ ": " ++ message ++ " (SQLSTATE " ++ code ++ ")"
  | ErrorString msg => msg
  | WrapError msg e' => msg ++ ": " ++ errorText e'
  end.

(** [pgx.ErrNoRows] *)
Definition ErrNoRows : error := ErrorString "no rows in result set".

(** [err == pgx.ErrNoRows] *)
Definition isErrNoRows (err : option error) : bool :=
  match err with
  | Some (ErrorString msg) => String.eqb msg "no rows in result set"
  | _ => false
  end.

(** What [Scan(&t)] leaves behind for a [sql.NullTime] destination [t]:
    the error it returns, [t.Valid] and [t.Time]. *)
Definition scanErr (r : ScanTime) : option error :=
  match r with ScanError e => Some e | _ => None end.
Definition scanValid (r : ScanTime) : bool :=
  match r with ScanValue _ => true | _ => false end.
Definition scanTime (r : ScanTime) : Time :=
  match r with ScanValue t => t | _ => zeroTime end.

Section Progress.
Context {World : Type} (env : Env World).

(** [GetLastDividendDate] with the error its caller drops. *)
Definition GetLastDividendDateResult (figi : string)
  : M World (Time * option error) :=
  let! r := queryTime env (MaxDividendDate figi) in
  if isErrNoRows (scanErr r) || negb (scanValid r)
  then ret (zeroTime, None)
  else ret (scanTime r,
            Some (Errorf "ошибка сканирования даты последнего дивиденда"
                         (scanErr r))).

(** [GetEarliestCandle]; [queryEarliest] runs
    [SELECT MIN(time) FROM candles WHERE figi = $1 AND interval_type = $2]. *)
Definition GetEarliestCandle
           (queryEarliest : string -> string -> M World ScanTime)
           (figi intervalType : string) : M World (Time * option error) :=
  let! r := queryEarliest figi intervalType in
  if isErrNoRows (scanErr r) || negb (scanValid r)
  then ret (zeroTime, None)
  else ret (scanTime r,
            Some (Errorf "ошибка сканирования самого раннего времени"
                         (scanErr r))).

Definition GetLastCandleTime (figi intervalType : string)
  : M World (Time * option error) :=
  let! r := queryTime env (MaxCandleTime figi intervalType) in
  match r with
  | ScanError e =>
      if String.eqb (errorText e) "no rows in result set"
      then ret (zeroTime, None)
      else ret (zeroTime,
                Some (Errorf "ошибка получения времени последней свечи" (Some e)))
  | ScanNull => ret (zeroTime, None)
  | ScanValue t => ret (t, None)
  end.

Definition UpdateLastLoadedTime (figi : string) (lastLoadedTime : Time)
  : M World (option error) :=
  let! err := exec env (UpdateLastLoadedTimeOf figi lastLoadedTime) in
  match err with
  | Some e =>
      ret (Some (Errorf "ошибка обновления времени последней загрузки" (Some e)))
  | None => ret None
  end.

Definition ProcessLoadResult (figi intervalType : string)
           (loadError : option error) : M World (option error) :=
  let! r := GetLastCandleTime figi intervalType in
  match r with
  | (_, Some err) =>
      do! logf
        "Не удалось получить время последней свечи для обновления прогресса" in
      ret loadError
  | (lastCandleTime, None) =>
      do! (if negb (IsZero lastCandleTime) then
             let! err := UpdateLastLoadedTime figi lastCandleTime in
             match err with
             | Some _ => logf "Не удалось обновить время последней загрузки"
             | None =>
                 logf "Обновлено время последней загрузки на основе последней свечи"
             end
           else ret tt) in
      ret loadError
  end.

(** The whole of [ProcessInstrument]: the load of [LoadCandleData] and
    the progress update that follows it.  As in [chunkLoop], the outer
    [None] stands for fuel that ran out inside the load. *)
Definition ProcessInstrumentCycle (fuel : nat) (cfg : Config)
           (figi interval : string) : M World (option (option error)) :=
  let! r := GetLastLoadedTime env figi interval in
  match r with
  | (_, Some err) =>
      ret (Some (Some (Errorf "ошибка получения времени последней загрузки"
                              (Some err))))
  | (lastLoadedTime, None) =>
      let! loaded := LoadCandleData env fuel cfg figi lastLoadedTime interval in
      match loaded with
      | None => ret None
      | Some loadError =>
          let! result := ProcessLoadResult figi interval loadError in
          ret (Some result)
      end
  end.
End Progress.

(** ** Package storage: partitions of a year *)

Section Partitions.
Context {World : Type} (env : Env World).

Definition CreateInitialPartition : M World (option error) :=
  let! t := now env in
  let! err := CreatePartition env t in
  match err with
  | Some e =>
      ret (Some (Errorf "ошибка создания партиции для текущего месяца" (Some e)))
  | None => ret None
  end.

(** The loop [for month := 1; month <= 12; month++] of
    [CreateYearPartitions], from [month] on; [count] is the number of
    months left, [13 - month]. *)
Fixpoint createYearLoop (count : nat) (year month : Z) : M World (option error) :=
  match count with
  | O => ret None
  | S count' =>
      let t := Date year month 1 0 0 0 0 in
      let! err := CreatePartition env t in
      match err with
      | Some e =>
          ret (Some (Errorf
            ("ошибка создания партиции для "
             ++ string_of_list_ascii
                  (sprintf_d year ++ "-"%char :: sprintf_02d month))
            (Some e)))
      | None => createYearLoop count' year (month + 1)
      end
  end.

Definition CreateYearPartitions (year : Z) : M World (option error) :=
  createYearLoop 12 year 1.
End Partitions.

(** The partitions of the twelve months of [year], from [month] on. *)
Fixpoint yearPartitions (count : nat) (year month : Z) : list Partition :=
  match count with
  | O => []
  | S count' =>
      partitionOf (Date year month 1 0 0 0 0)
      :: yearPartitions count' year (month + 1)
  end.

(** The row [SaveCandles] writes for a candle. *)
Definition candleRow (figi : string) (candle : HistoricCandle)
           (intervalType : string) : CandleRow :=
  mkCandleRow figi (cTime candle) intervalType
    (ConvertMoneyValue (Units (cOpen candle)) (Nano (cOpen candle)))
    (ConvertMoneyValue (Units (cHigh candle)) (Nano (cHigh candle)))
    (ConvertMoneyValue (Units (cLow candle)) (Nano (cLow candle)))
    (ConvertMoneyValue (Units (cClose candle)) (Nano (cClose candle)))
    (cVolume candle).

(** An instant of the last second of its month. *)
Definition inFinalSecond (t : Time) : Prop := nextMonthStart t - Second <= t.

(** ** Dates as text *)

(** [appendInt] of package [time]: the sign, then the digits zero-padded
    to [width]. *)
Definition appendInt (x : Z) (width : nat) : list ascii :=
  if x <? 0 then "-"%char :: padZeros width (formatUint (- x))
  else padZeros width (formatUint x).

(** [t.Format("2006-01-02")] *)
Definition formatDate (t : Time) : list ascii :=
  appendInt (Year t) 4 ++ "-"%char :: appendInt (Month t) 2
  ++ "-"%char :: appendInt (Day t) 2.

(** The start date [runLoader] of the command-line loader leaves in the
    configuration: the text is parsed, and a date that is not after the
    current time is replaced by the parsed time formatted again
    ([cfg.Loading.StartDate = parsedTime.Format("2006-01-02")]); [None]
    where the loader stops with [logger.Fatalf], on a text that does not
    parse and on a date in the future. *)
Definition normalizeStartDate (startDate : string) (current : Time)
  : option (list ascii) :=
  match parseDate (bytes startDate) with
  | Some parsedTime =>
      if After parsedTime current then None else Some (formatDate parsedTime)
  | None => None
  end.

(** The conflict target of the candle insert: [(figi, time, interval_type)]. *)
Definition rowKey (r : CandleRow) : string * Time * string :=
  (rFigi r, rTime r, rInterval r).

(** ** Package data: loading the instruments *)

(** [pb.SecurityTradingStatus]: the values the code names, and any other
    number. *)
Inductive SecurityTradingStatus :=
| SECURITY_TRADING_STATUS_UNSPECIFIED
| SECURITY_TRADING_STATUS_NOT_AVAILABLE_FOR_TRADING
| SECURITY_TRADING_STATUS_OPENING_PERIOD
| SECURITY_TRADING_STATUS_CLOSING_PERIOD
| SECURITY_TRADING_STATUS_BREAK_IN_TRADING
| SECURITY_TRADING_STATUS_NORMAL_TRADING
| SECURITY_TRADING_STATUS_CLOSING_AUCTION
| SECURITY_TRADING_STATUS_DARK_POOL_AUCTION
| SECURITY_TRADING_STATUS_DISCRETE_AUCTION
| SECURITY_TRADING_STATUS_OPENING_AUCTION_PERIOD
| SECURITY_TRADING_STATUS_TRADING_AT_CLOSING_AUCTION_PRICE
| SECURITY_TRADING_STATUS_SESSION_ASSIGNED
| SECURITY_TRADING_STATUS_SESSION_CLOSE
| SECURITY_TRADING_STATUS_SESSION_OPEN
| SECURITY_TRADING_STATUS_DEALER_NORMAL_TRADING
| SECURITY_TRADING_STATUS_DEALER_BREAK_IN_TRADING
| SECURITY_TRADING_STATUS_DEALER_NOT_AVAILABLE_FOR_TRADING
| SECURITY_TRADING_STATUS_other (number : Z).

(** [config.IsNormalTrading] *)
Definition IsNormalTrading (status : SecurityTradingStatus) : bool :=
  match status with
  | SECURITY_TRADING_STATUS_NORMAL_TRADING => true
  | _ => false
  end.

(** [tradingStatusToString] of [internal/data/utils.go] *)
Definition tradingStatusToString (status : SecurityTradingStatus) : string :=
  match status with
  | SECURITY_TRADING_STATUS_UNSPECIFIED => "unspecified"
  | SECURITY_TRADING_STATUS_NOT_AVAILABLE_FOR_TRADING => "not_available"
  | SECURITY_TRADING_STATUS_OPENING_PERIOD => "opening_period"
  | SECURITY_TRADING_STATUS_CLOSING_PERIOD => "closing_period"
  | SECURITY_TRADING_STATUS_BREAK_IN_TRADING => "break_in_trading"
  | SECURITY_TRADING_STATUS_NORMAL_TRADING => "normal_trading"
  | SECURITY_TRADING_STATUS_CLOSING_AUCTION => "closing_auction"
  | SECURITY_TRADING_STATUS_DARK_POOL_AUCTION => "dark_pool_auction"
  | SECURITY_TRADING_STATUS_DISCRETE_AUCTION => "discrete_auction"
  | SECURITY_TRADING_STATUS_OPENING_AUCTION_PERIOD => "opening_auction_period"
  | SECURITY_TRADING_STATUS_TRADING_AT_CLOSING_AUCTION_PRICE =>
      "trading_at_close_price"
  | SECURITY_TRADING_STATUS_SESSION_ASSIGNED => "session_assigned"
  | SECURITY_TRADING_STATUS_SESSION_CLOSE => "session_close"
  | SECURITY_TRADING_STATUS_SESSION_OPEN => "session_open"
  | SECURITY_TRADING_STATUS_DEALER_NORMAL_TRADING => "dealer_normal_trading"
  | SECURITY_TRADING_STATUS_DEALER_BREAK_IN_TRADING => "dealer_break"
  | SECURITY_TRADING_STATUS_DEALER_NOT_AVAILABLE_FOR_TRADING =>
      "dealer_not_available"
  | SECURITY_TRADING_STATUS_other _ => "unknown"
  end.

(** [escapeTabs]: three passes of [strings.ReplaceAll] with one-byte
    patterns. *)
Definition replaceByte (old new : ascii) (s : list ascii) : list ascii :=
  map (fun c => if Ascii.eqb c old then new else c) s.

Definition escapeTabs (s : list ascii) : list ascii :=
  let s := replaceByte "009"%char " "%char s in
  let s := replaceByte "010"%char " "%char s in
  let s := replaceByte "013"%char " "%char s in
  s.

(** What [processInstruments] reads of an instrument of the API: the
    getters of its type parameter.  [GetMinPriceIncrement] returns a
    pointer, [None] being [nil]. *)
Record ProtoInstrument := mkProtoInstrument {
  GetFigi : string;
  GetTicker : string;
  GetName : string;
  GetCurrency : string;
  GetLot : Z;
  GetMinPriceIncrement : option Quotation;
  GetTradingStatus : SecurityTradingStatus
}.

(** How a call ends: with a run-time panic, or by returning. *)
Inductive completion (A : Type) :=
| Panics
| Returns (a : A).
Arguments Panics {A}.
Arguments Returns {A} a.

Section Instruments.
Context {World : Type} (env : Env World).

(** [money.ConvertMinPriceIncrement] on a quotation that is not nil is
    floating-point arithmetic, and [tradingStatus.String()] is generated
    code of the SDK; the loader only stores their results. *)
Variable ConvertMinPriceIncrement : Quotation -> float64.
Variable statusString : SecurityTradingStatus -> string.

(** [CreateInstrumentFromProto]: the struct of this package has the nine
    fields up to [Enabled]; the others are at their zero values. *)
Definition CreateInstrumentFromProto
           (figi ticker name instrumentType currency : string) (lotSize : Z)
           (minPriceIncrement : Quotation) (tradingStatus : SecurityTradingStatus)
  : Instrument :=
  mkInstrument figi ticker name instrumentType currency lotSize
    (ConvertMinPriceIncrement minPriceIncrement) (statusString tradingStatus)
    false
    EmptyString false 0 0 EmptyString EmptyString 0 0 0 0 0.

(** The loop of [processInstruments], with the value of [count] on
    return.  A nil price increment makes [ConvertMinPriceIncrement]
    dereference a nil pointer. *)
Fixpoint processInstrumentsLoop (instruments : list ProtoInstrument)
         (instrumentType : string) (count : Z) : M World (completion Z) :=
  match instruments with
  | [] => ret (Returns count)
  | protoInstrument :: rest =>
      if IsNormalTrading (GetTradingStatus protoInstrument) then
        match GetMinPriceIncrement protoInstrument with
        | None => ret Panics
        | Some minPriceIncrement =>
            let instrument :=
              CreateInstrumentFromProto
                (GetFigi protoInstrument) (GetTicker protoInstrument)
                (GetName protoInstrument) instrumentType
                (GetCurrency protoInstrument) (GetLot protoInstrument)
                minPriceIncrement (GetTradingStatus protoInstrument) in
            let! err := SaveInstrumentBasic env instrument in
            match err with
            | Some _ =>
                do! logf ("Ошибка сохранения " ++ instrumentType) in
                processInstrumentsLoop rest instrumentType count
            | None =>
                processInstrumentsLoop rest instrumentType (wrap64 (count + 1))
            end
        end
      else processInstrumentsLoop rest instrumentType count
  end.

(** [processInstruments]: the count its last line logs, and the error it
    returns. *)
Definition processInstruments (instruments : list ProtoInstrument)
           (instrumentType : string) : M World (completion (Z * option error)) :=
  let! r := processInstrumentsLoop instruments instrumentType 0 in
  match r with
  | Panics => ret Panics
  | Returns count =>
      do! logf (instrumentType ++ " загружены") in
      ret (Returns (count, None))
  end.
End Instruments.

(** An instrument built from what the API says of it, as
    [processInstruments] does for an instrument in normal trading. *)
Definition builtFrom (ConvertMinPriceIncrement : Quotation -> float64)
           (statusString : SecurityTradingStatus -> string)
           (instrumentType : string) (p : ProtoInstrument) (i : Instrument)
  : Prop :=
  exists minPriceIncrement,
    GetMinPriceIncrement p = Some minPriceIncrement /\
    i = CreateInstrumentFromProto ConvertMinPriceIncrement statusString
          (GetFigi p) (GetTicker p) (GetName p) instrumentType
          (GetCurrency p) (GetLot p) minPriceIncrement (GetTradingStatus p).

(** An instrument of the API the loader can convert: in normal trading
    only with a price increment. *)
Definition convertible (p : ProtoInstrument) : Prop :=
  IsNormalTrading (GetTradingStatus p) = true -> GetMinPriceIncrement p <> None.


(** ** Package arch: downloading the archive of a year *)

Definition DefaultRetryDelay : Duration := 5 * Second.
Definition StatusOK : Z := 200.

(** What [client.Do] returns: a response with a nil error, or an error,
    beside which a response may or may not be there.  A response is its
    status code. *)
Inductive DoResult :=
| DoResponse (StatusCode : Z)
| DoError (resp : option Z) (err : error).

(** The network and the file system of [DownloadYearArchive], and the
    reading of the downloaded archive, which it leaves to
    [processArchive]. *)
Record ArchiveEnv (World : Type) := mkArchiveEnv {
  newRequest : string -> Z -> option error;
  clientDo : string -> Z -> World -> DoResult * World;
  closeBody : World -> option error * World;
  osCreate : string -> Z -> World -> option error * World;
  ioCopy : World -> option error * World;
  closeFile : World -> option error * World;
  processArchive : string -> M World (error + list HistoricCandle)
}.
Arguments newRequest {World}.
Arguments clientDo {World}.
Arguments closeBody {World}.
Arguments osCreate {World}.
Arguments ioCopy {World}.
Arguments closeFile {World}.
Arguments processArchive {World}.

(** Durations slept in a trace, in order. *)
Definition sleeps (tr : list Event) : list Duration :=
  flat_map (fun e => match e with EvSleep d => [d] | _ => [] end) tr.

Section Archive.
Context {World : Type} (env : ArchiveEnv World).

Definition call {A : Type} (f : World -> A * World) : M World A :=
  fun '(w, tr) => let '(a, w') := f w in (a, (w', tr)).

(** [resp.Body.Close()] and [archiveFile.Close()] with their error lines. *)
Definition closeResponse : M World unit :=
  let! closeErr := call (closeBody env) in
  match closeErr with
  | Some _ => logf "Ошибка закрытия тела ответа"
  | None => ret tt
  end.

Definition closeArchive : M World unit :=
  let! closeErr := call (closeFile env) in
  match closeErr with
  | Some _ => logf "Ошибка закрытия файла архива"
  | None => ret tt
  end.

(** The request loop, [maxRetries] being 3: [remaining] is
    [maxRetries - attempt], so that [attempt < maxRetries] reads
    [remaining > 0].  [inr]: the loop was left by [break]; [inl err]: the
    function returned [err]. *)
Fixpoint requestLoop (figi : string) (year : Z) (remaining : nat)
         (retryDelay : Duration) : M World (error + Z) :=
  let again (lastError : error) : M World (error + Z) :=
    match remaining with
    | S remaining' =>
        do! logf "Попытка не удалась, повтор" in
        do! emit (EvSleep retryDelay) in
        requestLoop figi year remaining' (wrap64 (retryDelay * 2))
    | O => ret (inl lastError)
    end in
  let! r := call (clientDo env figi year) in
  match r with
  | DoResponse status =>
      if status =? StatusOK then
        do! logf "Успешный ответ от API" in ret (inr status)
      else
        do! closeResponse in
        again (ErrorString
                 ("ошибка HTTP " ++ string_of_list_ascii (sprintf_d status)
                  ++ " после 3 попыток"))
  | DoError resp err =>
      do! (match resp with Some _ => closeResponse | None => ret tt end) in
      again (Errorf "ошибка выполнения запроса после 3 попыток" (Some err))
  end.

(** [DownloadYearArchive]; the deferred closes run after the result is
    fixed, the file before the body. *)
Definition DownloadYearArchive (figi : string) (year : Z)
  : M World (error + list HistoricCandle) :=
  match newRequest env figi year with
  | Some err => ret (inl (Errorf "ошибка создания запроса" (Some err)))
  | None =>
      let! r := requestLoop figi year 2 DefaultRetryDelay in
      match r with
      | inl err => ret (inl err)
      | inr _ =>
          let! created := call (osCreate env figi year) in
          match created with
          | Some err =>
              do! closeResponse in
              ret (inl (Errorf "ошибка создания файла архива" (Some err)))
          | None =>
              let! copied := call (ioCopy env) in
              match copied with
              | Some err =>
                  do! closeArchive in
                  do! closeResponse in
                  ret (inl (Errorf "ошибка сохранения архива" (Some err)))
              | None =>
                  let! result := processArchive env figi in
                  do! closeArchive in
                  do! closeResponse in
                  ret result
              end
          end
      end
  end.
End Archive.

(** A server that answers from a script and then times out, with the
    number of requests received and of files created. *)
Record HttpWorld := mkHttp {
  answers : list DoResult;
  asked : nat;
  created : nat
}.

Definition timedOut : error := ErrorString "context deadline exceeded".

Definition simArchive : ArchiveEnv HttpWorld :=
  mkArchiveEnv HttpWorld
    (fun _ _ => None)
    (fun _ _ w =>
       (hd (DoError None timedOut) (answers w),
        mkHttp (tl (answers w)) (S (asked w)) (created w)))
    (fun w => (None, w))
    (fun _ _ w => (None, mkHttp (answers w) (asked w) (S (created w))))
    (fun w => (None, w))
    (fun w => (None, w))
    (fun _ => ret (inr [])).

(** An answer the loop takes: status 200 and no error. *)
Definition accepted (r : DoResult) : bool :=
  match r with
  | DoResponse status => status =? StatusOK
  | DoError _ _ => false
  end.

(** The delays before [k] further attempts, the first being [d]. *)
Fixpoint backoff (k : nat) (d : Duration) : list Duration :=
  match k with
  | O => []
  | S k' => d :: backoff k' (wrap64 (d * 2))
  end.

(** The error [DownloadYearArchive] returns after a last answer that it
    does not take. *)
Definition giveUpError (last : DoResult) : error :=
  match last with
  | DoResponse status =>
      ErrorString ("ошибка HTTP " ++ string_of_list_ascii (sprintf_d status)
                   ++ " после 3 попыток")
  | DoError _ err => Errorf "ошибка выполнения запроса после 3 попыток" (Some err)
  end.

(** The statement that creates a partition. *)
Definition partitionQuery (p : Partition) : Query :=
  CreatePartitionOf (pName p) (pFrom p) (pTo p).

(* ================================================================== *)
(** * Part II: theorems                                                *)
(* ================================================================== *)

(** ** Decimal digits *)

Lemma digitChar_spec (d : Z) :
  0 <= d < 10 -> isDigit (digitChar d) = true /\ digitVal (digitChar d) = d.
Proof.
  intros H.
  assert (d = 0 \/ d = 1 \/ d = 2 \/ d = 3 \/ d = 4 \/ d = 5 \/ d = 6 \/
          d = 7 \/ d = 8 \/ d = 9) as Hd by lia.
  repeat (destruct Hd as [-> | Hd]; [split; reflexivity |]).
  subst d; split; reflexivity.
Qed.

Lemma parseDigits_snoc (s : list ascii) (c : ascii) (acc : Z) :
  parseDigits acc (s ++ [c]) =
  match parseDigits acc s with
  | Some v => if isDigit c then Some (10 * v + digitVal c) else None
  | None => None
  end.
Proof.
  revert acc. induction s as [| a s IH]; intros acc; simpl.
  - destruct (isDigit c); reflexivity.
  - destruct (isDigit a); [apply IH | reflexivity].
Qed.

Lemma parseDigits_zeros (k : nat) (s : list ascii) :
  parseDigits 0 (repeat "0"%char k ++ s) = parseDigits 0 s.
Proof. induction k as [| k IH]; simpl; [reflexivity | exact IH]. Qed.

Lemma formatUint_aux_value (fuel : nat) :
  forall n, 0 <= n < 2 ^ Z.of_nat fuel ->
            parseDigits 0 (formatUint_aux fuel n) = Some n.
Proof.
  induction fuel as [| f IH]; intros n Hn.
  - simpl in *. f_equal. lia.
  - cbn [formatUint_aux]. destruct (Z.ltb_spec n 10) as [Hlt | Hge].
    + simpl. destruct (digitChar_spec n) as [-> ->]; [lia |]. f_equal; lia.
    + rewrite parseDigits_snoc, IH.
      * destruct (digitChar_spec (n mod 10)) as [-> ->].
        { apply Z.mod_pos_bound; lia. }
        f_equal. pose proof (Z.div_mod n 10). lia.
      * rewrite Nat2Z.inj_succ, Z.pow_succ_r in Hn by lia.
        split; [apply Z.div_pos; lia |].
        apply Z.div_lt_upper_bound; lia.
Qed.

Lemma log2_fuel (n : Z) : 0 <= n -> n < 2 ^ Z.of_nat (S (Z.to_nat (Z.log2 n))).
Proof.
  intros Hn. rewrite Nat2Z.inj_succ, Z2Nat.id by apply Z.log2_nonneg.
  destruct (Z.eq_dec n 0) as [-> | Hne]; [reflexivity |].
  apply Z.log2_spec. lia.
Qed.

Lemma formatUint_value (n : Z) :
  0 <= n -> parseDigits 0 (formatUint n) = Some n.
Proof.
  intros Hn. apply formatUint_aux_value. split; [exact Hn | now apply log2_fuel].
Qed.

Lemma formatUint_aux_digits (fuel : nat) :
  forall n, 0 <= n -> Forall (fun c => isDigit c = true) (formatUint_aux fuel n).
Proof.
  induction fuel as [| f IH]; intros n Hn; cbn [formatUint_aux].
  - constructor.
  - destruct (Z.ltb_spec n 10).
    + constructor; [| constructor]. now apply digitChar_spec.
    + apply Forall_app. split.
      * apply IH. apply Z.div_pos; lia.
      * constructor; [| constructor]. apply digitChar_spec.
        apply Z.mod_pos_bound. lia.
Qed.

Lemma formatUint_digits (n : Z) :
  0 <= n -> Forall (fun c => isDigit c = true) (formatUint n).
Proof. apply formatUint_aux_digits. Qed.

Lemma formatUint_aux_nonempty (fuel : nat) (n : Z) :
  formatUint_aux (S fuel) n <> [].
Proof.
  cbn [formatUint_aux]. destruct (n <? 10); [discriminate |].
  intros H. apply app_eq_nil in H. destruct H as [_ H]. discriminate.
Qed.

Lemma formatUint_nonempty (n : Z) : formatUint n <> [].
Proof. apply formatUint_aux_nonempty. Qed.

Lemma formatUint_aux_length (fuel : nat) :
  forall (k : nat) n, 0 <= n < 10 ^ Z.of_nat (S k) ->
                      (length (formatUint_aux fuel n) <= S k)%nat.
Proof.
  induction fuel as [| f IH]; intros k n Hn; cbn [formatUint_aux].
  - simpl. lia.
  - destruct (Z.ltb_spec n 10) as [Hlt | Hge].
    + simpl. lia.
    + rewrite length_app. simpl.
      destruct k as [| k].
      * change (10 ^ Z.of_nat 1) with 10 in Hn. lia.
      * assert (length (formatUint_aux f (n / 10)) <= S k)%nat; [| lia].
        apply IH. rewrite (Nat2Z.inj_succ (S k)), Z.pow_succ_r in Hn by lia.
        split; [apply Z.div_pos; lia |].
        apply Z.div_lt_upper_bound; lia.
Qed.

Lemma isDigit_cases (c : ascii) :
  isDigit c = true -> In c (bytes "0123456789").
Proof.
  destruct c as [[] [] [] [] [] [] [] []]; vm_compute; intros H;
    try discriminate H; tauto.
Qed.

Ltac digit_cases H :=
  apply isDigit_cases in H; simpl in H;
  repeat (destruct H as [H | H]; [subst |]); [.. | contradiction].

(** ** Trailing zeros *)

Lemma rev_repeat_zero (k : nat) :
  rev (repeat "0"%char k) = repeat "0"%char k.
Proof.
  induction k as [| k IH]; [reflexivity |].
  simpl. rewrite IH. symmetry. apply repeat_cons.
Qed.

Lemma dropLeadingZeros_split (l : list ascii) :
  exists k, l = repeat "0"%char k ++ dropLeadingZeros l.
Proof.
  induction l as [| c l [k IH]].
  - exists O. reflexivity.
  - simpl. destruct (Ascii.eqb_spec c "0") as [-> | Hne].
    + exists (S k). simpl. now f_equal.
    + exists O. reflexivity.
Qed.

Lemma dropLeadingZeros_head (l : list ascii) (c : ascii) (r : list ascii) :
  dropLeadingZeros l = c :: r -> c <> "0"%char.
Proof.
  induction l as [| a l IH]; simpl; [discriminate |].
  destruct (Ascii.eqb_spec a "0") as [-> | Hne]; [exact IH |].
  intros H. injection H as <- _. exact Hne.
Qed.

Lemma dropLeadingZeros_incl (P : ascii -> Prop) (l : list ascii) :
  Forall P l -> Forall P (dropLeadingZeros l).
Proof.
  induction 1 as [| a l Ha Hl IH]; simpl; [constructor |].
  destruct (Ascii.eqb a "0"); [exact IH | now constructor].
Qed.

Lemma stripTrailingZeros_split (s : list ascii) :
  exists k, s = stripTrailingZeros s ++ repeat "0"%char k.
Proof.
  destruct (dropLeadingZeros_split (rev s)) as [k Hk].
  exists k. unfold stripTrailingZeros.
  rewrite <- (rev_involutive s) at 1. rewrite Hk at 1.
  now rewrite rev_app_distr, rev_repeat_zero.
Qed.

Lemma stripTrailingZeros_last (s r : list ascii) (c : ascii) :
  stripTrailingZeros s = r ++ [c] -> c <> "0"%char.
Proof.
  unfold stripTrailingZeros. intros H.
  apply (f_equal (@rev ascii)) in H.
  rewrite rev_involutive, rev_app_distr in H. simpl in H.
  eapply dropLeadingZeros_head; eassumption.
Qed.

Lemma stripTrailingZeros_incl (P : ascii -> Prop) (s : list ascii) :
  Forall P s -> Forall P (stripTrailingZeros s).
Proof.
  intros H. unfold stripTrailingZeros.
  apply Forall_rev, dropLeadingZeros_incl, Forall_rev, H.
Qed.

(** Padding a stripped string back to its original length restores it. *)
Lemma stripTrailingZeros_repad (s : list ascii) :
  stripTrailingZeros s
    ++ repeat "0"%char (length s - length (stripTrailingZeros s)) = s.
Proof.
  destruct (stripTrailingZeros_split s) as [k Hk].
  assert (length s = length (stripTrailingZeros s) + k)%nat as Hlen.
  { rewrite Hk at 1. now rewrite length_app, repeat_length. }
  replace (length s - length (stripTrailingZeros s))%nat with k by lia.
  now symmetry.
Qed.

(** ** The nine-digit fraction *)

Lemma padZeros_length (w : nat) (ds : list ascii) :
  (length ds <= w)%nat -> length (padZeros w ds) = w.
Proof.
  intros H. unfold padZeros. rewrite length_app, repeat_length. lia.
Qed.

Lemma padZeros_digits (w : nat) (ds : list ascii) :
  Forall (fun c => isDigit c = true) ds ->
  Forall (fun c => isDigit c = true) (padZeros w ds).
Proof.
  intros H. unfold padZeros. apply Forall_app. split; [| exact H].
  apply List.Forall_forall. intros c Hc. apply repeat_spec in Hc. now subst.
Qed.

Section Fraction.
Variable nano : Z.
Hypothesis nano_range : 0 <= nano < 10 ^ 9.

Lemma sprintf_09d_unfold : sprintf_09d nano = padZeros 9 (formatUint nano).
Proof.
  unfold sprintf_09d. destruct (Z.ltb_spec nano 0); [lia | reflexivity].
Qed.

Lemma sprintf_09d_length : length (sprintf_09d nano) = 9%nat.
Proof.
  rewrite sprintf_09d_unfold. apply padZeros_length.
  apply (formatUint_aux_length _ 8). exact nano_range.
Qed.

Lemma sprintf_09d_digits :
  Forall (fun c => isDigit c = true) (sprintf_09d nano).
Proof.
  rewrite sprintf_09d_unfold. apply padZeros_digits, formatUint_digits. lia.
Qed.

Lemma sprintf_09d_value : parseDigits 0 (sprintf_09d nano) = Some nano.
Proof.
  rewrite sprintf_09d_unfold. unfold padZeros.
  rewrite parseDigits_zeros. apply formatUint_value. lia.
Qed.

Lemma stripped_fraction_nonempty :
  nano <> 0 -> stripTrailingZeros (sprintf_09d nano) <> [].
Proof.
  intros Hne Hnil.
  destruct (stripTrailingZeros_split (sprintf_09d nano)) as [k Hk].
  rewrite Hnil in Hk. simpl in Hk.
  pose proof sprintf_09d_value as Hv. rewrite Hk in Hv.
  rewrite <- (app_nil_r (repeat _ k)), parseDigits_zeros in Hv.
  simpl in Hv. congruence.
Qed.
End Fraction.

(** ** ParseInt on digit strings *)

Lemma ParseInt_digits (s : list ascii) (v bits : Z) :
  s <> [] ->
  Forall (fun c => isDigit c = true) s ->
  parseDigits 0 s = Some v ->
  v < 2 ^ (bits - 1) ->
  ParseInt s bits = Some v.
Proof.
  intros Hne Hd Hv Hlt. destruct s as [| c r]; [congruence |].
  unfold ParseInt.
  assert (Ascii.eqb c "+" = false /\ Ascii.eqb c "-" = false) as [-> ->].
  { inversion Hd as [| ? ? Hc _]; subst. digit_cases Hc; split; reflexivity. }
  unfold parseUintDigits. rewrite Hv.
  destruct (Z.ltb_spec v (2 ^ (bits - 1))); [reflexivity | lia].
Qed.

Lemma parseDigits_lower (s : list ascii) :
  forall acc v, parseDigits acc s = Some v -> 0 <= acc -> acc <= v.
Proof.
  induction s as [| c r IH]; intros acc v H Hacc; simpl in H.
  - injection H as <-. lia.
  - destruct (isDigit c) eqn:Hc; [| discriminate].
    apply IH in H.
    + unfold isDigit, digitVal in *. lia.
    + unfold isDigit, digitVal in *. lia.
Qed.

Lemma ParseInt_range (s : list ascii) (bits v : Z) :
  0 < bits ->
  ParseInt s bits = Some v -> - 2 ^ (bits - 1) <= v < 2 ^ (bits - 1).
Proof.
  intros Hbits. unfold ParseInt. destruct s as [| c r]; [discriminate |].
  assert (forall t un, parseUintDigits t = Some un -> 0 <= un) as Hpos.
  { intros t un Ht. destruct t; [discriminate |].
    apply parseDigits_lower in Ht; lia. }
  assert (0 < 2 ^ (bits - 1)) as Hc by (apply Z.pow_pos_nonneg; lia).
  destruct (Ascii.eqb c "+").
  { destruct (parseUintDigits r) as [un |] eqn:Hu; [| discriminate].
    destruct (Z.ltb_spec un (2 ^ (bits - 1))); [| discriminate].
    intros E; injection E as <-. apply Hpos in Hu. lia. }
  destruct (Ascii.eqb c "-").
  { destruct (parseUintDigits r) as [un |] eqn:Hu; [| discriminate].
    destruct (Z.leb_spec un (2 ^ (bits - 1))); [| discriminate].
    intros E; injection E as <-. apply Hpos in Hu. lia. }
  destruct (parseUintDigits (c :: r)) as [un |] eqn:Hu; [| discriminate].
  destruct (Z.ltb_spec un (2 ^ (bits - 1))); [| discriminate].
  intros E; injection E as <-. apply Hpos in Hu. lia.
Qed.

Lemma ParseInt_sprintf_d (units : Z) :
  inInt64 units -> ParseInt (sprintf_d units) 64 = Some units.
Proof.
  unfold inInt64, minInt64, maxInt64, sprintf_d. intros H.
  destruct (Z.ltb_spec units 0) as [Hneg | Hpos].
  - unfold ParseInt. simpl Ascii.eqb. cbv iota.
    pose proof (formatUint_value (- units) ltac:(lia)) as Hv.
    pose proof (formatUint_nonempty (- units)) as Hne.
    unfold parseUintDigits. destruct (formatUint (- units)); [congruence |].
    rewrite Hv. change (64 - 1) with 63.
    destruct (Z.leb_spec (- units) (2 ^ 63)); [f_equal; lia | lia].
  - apply ParseInt_digits.
    + apply formatUint_nonempty.
    + apply formatUint_digits. lia.
    + apply formatUint_value. lia.
    + change (64 - 1) with 63. lia.
Qed.

(** ** Index and TrimSpace on encoder output *)

Lemma sprintf_d_plain (units : Z) : Forall plainByte (sprintf_d units).
Proof.
  unfold sprintf_d. destruct (Z.ltb_spec units 0).
  - constructor; [now right |].
    eapply List.Forall_impl; [| apply formatUint_digits; lia].
    intros c Hc. now left.
  - eapply List.Forall_impl; [| apply formatUint_digits; lia].
    intros c Hc. now left.
Qed.

Lemma sprintf_d_nonempty (units : Z) : sprintf_d units <> [].
Proof.
  unfold sprintf_d. destruct (units <? 0); [discriminate |].
  apply formatUint_nonempty.
Qed.

Lemma plainByte_not_dot (c : ascii) : plainByte c -> Ascii.eqb c "." = false.
Proof. intros [H | ->]; [digit_cases H; reflexivity | reflexivity]. Qed.

Lemma IndexByte_none (s : list ascii) :
  Forall plainByte s -> IndexByte "."%char s = None.
Proof.
  induction 1 as [| c s Hc Hs IH]; simpl; [reflexivity |].
  now rewrite (plainByte_not_dot c Hc), IH.
Qed.

Lemma IndexByte_dot (a f : list ascii) :
  Forall plainByte a -> IndexByte "."%char (a ++ "."%char :: f) = Some (length a).
Proof.
  induction 1 as [| c s Hc Hs IH]; simpl; [reflexivity |].
  now rewrite (plainByte_not_dot c Hc), IH.
Qed.

Lemma stripAny_inert (ps : list (list ascii)) (c : ascii) (r : list ascii) :
  headInert ps c = true -> stripAny ps (c :: r) = None.
Proof.
  induction ps as [| p ps IH]; simpl; [reflexivity |].
  intros H. apply andb_prop in H. destruct H as [Hp Hps].
  destruct p as [| a p]; [discriminate |]. simpl.
  apply negb_true_iff in Hp. rewrite Hp. now apply IH.
Qed.

Lemma trimLeftRunes_inert (fuel : nat) ps (c : ascii) (r : list ascii) :
  headInert ps c = true -> trimLeftRunes fuel ps (c :: r) = c :: r.
Proof.
  intros H. destruct fuel; simpl; [reflexivity |].
  now rewrite stripAny_inert.
Qed.

Lemma plainByte_inert (c : ascii) :
  plainByte c ->
  headInert spaceRunes c = true /\
  headInert (map (@rev ascii) spaceRunes) c = true.
Proof.
  intros [H | ->]; [digit_cases H |]; split; vm_compute; reflexivity.
Qed.

(** A string that starts and ends with a digit or a minus sign has no
    surrounding white space to trim. *)
Lemma TrimSpace_plain (s : list ascii) (c c' : ascii) (r r' : list ascii) :
  s = c :: r -> plainByte c ->
  rev s = c' :: r' -> plainByte c' ->
  TrimSpace s = s.
Proof.
  intros Hs Hc Hrev Hc'. subst s. unfold TrimSpace. cbv zeta.
  rewrite trimLeftRunes_inert by now apply plainByte_inert.
  rewrite Hrev, trimLeftRunes_inert by now apply plainByte_inert.
  now rewrite <- Hrev, rev_involutive.
Qed.

Lemma TrimSpace_all_plain (s : list ascii) :
  s <> [] -> Forall plainByte s -> TrimSpace s = s.
Proof.
  intros Hne Hall.
  destruct s as [| c r] eqn:Hs; [congruence |]. rewrite <- Hs in *.
  destruct (rev s) as [| c' r'] eqn:Hrev.
  { apply (f_equal (@length ascii)) in Hrev. rewrite length_rev, Hs in Hrev.
    discriminate. }
  eapply TrimSpace_plain; eauto.
  - rewrite Hs in Hall. now inversion Hall.
  - apply Forall_rev in Hall. rewrite Hrev in Hall. now inversion Hall.
Qed.

Lemma skipn_past_dot (a f : list ascii) :
  skipn (S (length a)) (a ++ "."%char :: f) = f.
Proof. induction a as [| c a IH]; [reflexivity | exact IH]. Qed.

Lemma firstn_before_dot (a f : list ascii) :
  firstn (length a) (a ++ "."%char :: f) = a.
Proof. induction a as [| c a IH]; [reflexivity | simpl; now f_equal]. Qed.

(** ** The encoder (package money) *)

Example ConvertMoneyValue_ex2 :
  ConvertMoneyValue 272 270000000 = bytes "272.27".
Proof. vm_compute. reflexivity. Qed.

Example ConvertMoneyValue_ex3 : ConvertMoneyValue 5 0 = bytes "5".
Proof. vm_compute. reflexivity. Qed.

Example ConvertMoneyValue_negative :
  ConvertMoneyValue (-5) 500000000 = bytes "-5.5".
Proof. vm_compute. reflexivity. Qed.

Lemma ConvertMoneyValue_fraction (units nano : Z) :
  0 <= nano < 10 ^ 9 -> nano <> 0 ->
  ConvertMoneyValue units nano =
  sprintf_d units ++ "."%char :: stripTrailingZeros (sprintf_09d nano).
Proof.
  intros Hr Hne. unfold ConvertMoneyValue.
  destruct (Z.eqb_spec nano 0); [contradiction |]. cbv zeta.
  pose proof (stripped_fraction_nonempty nano Hr Hne) as Hfrac.
  destruct (stripTrailingZeros (sprintf_09d nano)); [congruence | reflexivity].
Qed.

Example ConvertMoneyValue_ex1 :
  ConvertMoneyValue 272 269999999 = bytes "272.269999999".
Proof. vm_compute. reflexivity. Qed.

(** C7.  For every [units] and every [nano] in [0, 10^9): when [nano] is
    zero [ConvertMoneyValue] emits the integer alone; otherwise it emits
    the integer, a dot and the fraction, where the fraction is the
    nine-digit zero-padded text of [nano] (nine decimal digits whose value
    is [nano]) with its trailing zeros removed: restoring the zeros gives
    the nine digits back, at least one digit remains and the last one is
    not a zero.  The three examples of the specification evaluate as
    stated. *)
Theorem ConvertMoneyValue_spec (units nano : Z) :
  0 <= nano < 10 ^ 9 ->
  (nano = 0 -> ConvertMoneyValue units nano = sprintf_d units) /\
  (nano <> 0 ->
   exists fraction,
     ConvertMoneyValue units nano = sprintf_d units ++ "."%char :: fraction /\
     fraction = stripTrailingZeros (sprintf_09d nano) /\
     length (sprintf_09d nano) = 9%nat /\
     Forall (fun c => isDigit c = true) (sprintf_09d nano) /\
     parseDigits 0 (sprintf_09d nano) = Some nano /\
     fraction ++ repeat "0"%char (9 - length fraction) = sprintf_09d nano /\
     fraction <> [] /\
     (forall r c, fraction = r ++ [c] -> c <> "0"%char)) /\
  ConvertMoneyValue 272 269999999 = bytes "272.269999999" /\
  ConvertMoneyValue 272 270000000 = bytes "272.27" /\
  ConvertMoneyValue 5 0 = bytes "5".
Proof.
  intros Hr. split; [| split; [| repeat split; vm_compute; reflexivity]].
  - intros ->. reflexivity.
  - intros Hne. exists (stripTrailingZeros (sprintf_09d nano)).
    split; [now apply ConvertMoneyValue_fraction |].
    split; [reflexivity |].
    split; [now apply sprintf_09d_length |].
    split; [now apply sprintf_09d_digits |].
    split; [now apply sprintf_09d_value |].
    split.
    { rewrite <- (sprintf_09d_length nano Hr) at 1.
      apply stripTrailingZeros_repad. }
    split; [now apply stripped_fraction_nonempty |].
    intros r c. apply stripTrailingZeros_last.
Qed.

Lemma ConvertMoneyValue_spec_witness :
  0 <= 270000000 < 10 ^ 9 /\
  ConvertMoneyValue 272 270000000 = bytes "272.27".
Proof.
  split; [lia |].
  exact (proj1 (proj2 (proj2 (proj2 (ConvertMoneyValue_spec 272 270000000
                                        ltac:(lia)))))).
Defined.

(** ** The decoder (package arch) *)

(** C2.  Decoding what the encoder emits gives the pair back: for every
    64-bit [units] and every [nano] in [0, 10^9),
    [parsePriceString (ConvertMoneyValue units nano)] is [(units, nano)]. *)
Theorem parsePriceString_ConvertMoneyValue (units nano : Z) :
  inInt64 units ->
  0 <= nano < 10 ^ 9 ->
  parsePriceString (ConvertMoneyValue units nano) = mkQuotation units nano.
Proof.
  intros Hu Hr. destruct (Z.eq_dec nano 0) as [-> | Hne].
  - change (ConvertMoneyValue units 0) with (sprintf_d units).
    unfold parsePriceString.
    rewrite TrimSpace_all_plain
      by (apply sprintf_d_nonempty || apply sprintf_d_plain).
    rewrite IndexByte_none by apply sprintf_d_plain.
    now rewrite ParseInt_sprintf_d.
  - rewrite ConvertMoneyValue_fraction by assumption.
    set (fraction := stripTrailingZeros (sprintf_09d nano)).
    assert (Forall (fun c => isDigit c = true) fraction) as Hdig
      by now apply stripTrailingZeros_incl, sprintf_09d_digits.
    assert (fraction <> []) as Hfne by now apply stripped_fraction_nonempty.
    assert (TrimSpace (sprintf_d units ++ "."%char :: fraction)
            = sprintf_d units ++ "."%char :: fraction) as Htrim.
    { pose proof (sprintf_d_nonempty units) as Hne1.
      pose proof (sprintf_d_plain units) as Hpl.
      destruct (sprintf_d units) as [| c r] eqn:Hd; [congruence |].
      destruct (rev fraction) as [| c' r'] eqn:Hrev.
      { apply (f_equal (@rev ascii)) in Hrev.
        rewrite rev_involutive in Hrev. contradiction. }
      eapply (TrimSpace_plain _ c c').
      - reflexivity.
      - now inversion Hpl.
      - change ((c :: r) ++ "."%char :: fraction)
          with ((c :: r) ++ ["."%char] ++ fraction).
        rewrite !rev_app_distr, Hrev. reflexivity.
      - left. apply Forall_rev in Hdig. rewrite Hrev in Hdig.
        now inversion Hdig. }
    unfold parsePriceString. rewrite Htrim.
    rewrite IndexByte_dot by apply sprintf_d_plain.
    rewrite firstn_before_dot, skipn_past_dot, ParseInt_sprintf_d by assumption.
    destruct (Nat.eqb_spec (length fraction) 0) as [Hz | _].
    { destruct fraction; [congruence | discriminate]. }
    assert (padFraction fraction = sprintf_09d nano) as ->.
    { unfold padFraction, fraction.
      rewrite <- (sprintf_09d_length nano Hr) at 1.
      apply stripTrailingZeros_repad. }
    assert (truncFraction (sprintf_09d nano) = sprintf_09d nano) as ->.
    { unfold truncFraction, MaxNanoDigits.
      now rewrite (sprintf_09d_length nano Hr). }
    rewrite (ParseInt_digits _ nano); try reflexivity.
    + intros Hnil. apply (f_equal (@length ascii)) in Hnil.
      rewrite (sprintf_09d_length nano Hr) in Hnil. discriminate.
    + now apply sprintf_09d_digits.
    + now apply sprintf_09d_value.
    + change (32 - 1) with 31. lia.
Qed.

Lemma parsePriceString_ConvertMoneyValue_witness :
  inInt64 272 /\ 0 <= 270000000 < 10 ^ 9 /\
  parsePriceString (ConvertMoneyValue 272 270000000)
  = mkQuotation 272 270000000.
Proof.
  assert (inInt64 272) as Hu by (unfold inInt64, minInt64, maxInt64; lia).
  assert (0 <= 270000000 < 10 ^ 9) as Hn by lia.
  split; [exact Hu | split; [exact Hn |]].
  exact (parsePriceString_ConvertMoneyValue 272 270000000 Hu Hn).
Defined.

Lemma parseDigits_app_zeros (k : nat) (s : list ascii) (acc v : Z) :
  parseDigits acc s = Some v ->
  parseDigits acc (s ++ repeat "0"%char k) = Some (v * 10 ^ Z.of_nat k).
Proof.
  intros Hv. induction k as [| k IH].
  - simpl. rewrite app_nil_r, Hv. f_equal. lia.
  - cbn [repeat]. rewrite repeat_cons, app_assoc, parseDigits_snoc, IH.
    change (isDigit "0") with true. cbv iota. f_equal.
    rewrite Nat2Z.inj_succ, Z.pow_succ_r by lia.
    change (digitVal "0") with 0. lia.
Qed.

Lemma parseDigits_upper (s : list ascii) :
  forall acc v, parseDigits acc s = Some v -> 0 <= acc ->
                v < (acc + 1) * 10 ^ Z.of_nat (length s).
Proof.
  induction s as [| c r IH]; intros acc v H Hacc; simpl in H.
  - injection H as <-. simpl. lia.
  - destruct (isDigit c) eqn:Hc; [| discriminate].
    assert (0 <= digitVal c <= 9) as Hd by (unfold isDigit, digitVal in *; lia).
    apply IH in H; [| lia].
    cbn [length]. rewrite Nat2Z.inj_succ, Z.pow_succ_r by lia.
    assert (0 < 10 ^ Z.of_nat (length r)) by (apply Z.pow_pos_nonneg; lia).
    nia.
Qed.

Lemma truncFraction_firstn (f : list ascii) : truncFraction f = firstn 9 f.
Proof.
  unfold truncFraction, MaxNanoDigits.
  destruct (Nat.ltb_spec 9 (length f)); [reflexivity |].
  symmetry. now apply firstn_all2.
Qed.

Lemma normalized_fraction_length (f : list ascii) :
  length (truncFraction (padFraction f)) = 9%nat.
Proof.
  rewrite truncFraction_firstn, length_firstn. unfold padFraction.
  rewrite length_app, repeat_length. lia.
Qed.

Lemma ParseInt_short_fraction (f : list ascii) (v : Z) :
  f <> [] -> Forall (fun c => isDigit c = true) f ->
  (length f <= 9)%nat -> parseDigits 0 f = Some v ->
  ParseInt (truncFraction (padFraction f)) 32
  = Some (v * 10 ^ Z.of_nat (9 - length f)).
Proof.
  intros Hne Hd Hlen Hv.
  assert (truncFraction (padFraction f) = padFraction f) as ->.
  { rewrite truncFraction_firstn. apply firstn_all2. unfold padFraction.
    rewrite length_app, repeat_length. lia. }
  unfold padFraction. apply ParseInt_digits.
  - destruct f; [congruence | discriminate].
  - apply Forall_app. split; [exact Hd |].
    apply List.Forall_forall. intros c Hc. apply repeat_spec in Hc. now subst.
  - now apply parseDigits_app_zeros.
  - change (32 - 1) with 31.
    pose proof (parseDigits_upper f 0 v Hv ltac:(lia)) as Hub.
    assert (v * 10 ^ Z.of_nat (9 - length f) < 10 ^ 9); [| lia].
    replace 9 with (Z.of_nat (length f) + Z.of_nat (9 - length f)) by lia.
    rewrite Z.pow_add_r by lia.
    assert (0 < 10 ^ Z.of_nat (9 - length f)) by (apply Z.pow_pos_nonneg; lia).
    nia.
Qed.

Lemma ParseInt_long_fraction (f : list ascii) (v : Z) :
  Forall (fun c => isDigit c = true) f ->
  (9 < length f)%nat -> parseDigits 0 (firstn 9 f) = Some v ->
  ParseInt (truncFraction (padFraction f)) 32 = Some v.
Proof.
  intros Hd Hlen Hv.
  assert (truncFraction (padFraction f) = firstn 9 f) as ->.
  { rewrite truncFraction_firstn. unfold padFraction.
    replace (9 - length f)%nat with O by lia. now rewrite app_nil_r. }
  apply ParseInt_digits.
  - intros Hnil. apply (f_equal (@length ascii)) in Hnil.
    rewrite length_firstn in Hnil. cbn [length] in Hnil. lia.
  - apply Forall_take. exact Hd.
  - exact Hv.
  - change (32 - 1) with 31.
    pose proof (parseDigits_upper _ 0 v Hv ltac:(lia)) as Hub.
    rewrite length_firstn in Hub.
    replace (Nat.min 9 (length f)) with 9%nat in Hub by lia.
    change (10 ^ Z.of_nat 9) with 1000000000 in Hub. lia.
Qed.

Example parsePriceString_pads : parsePriceString (bytes " 272.27 ")
                                = mkQuotation 272 270000000.
Proof. vm_compute. reflexivity. Qed.

Example parsePriceString_truncates :
  parsePriceString (bytes "1.1234567899") = mkQuotation 1 123456789.
Proof. vm_compute. reflexivity. Qed.

Example parsePriceString_bad_units :
  parsePriceString (bytes "x.5") = mkQuotation 0 0.
Proof. vm_compute. reflexivity. Qed.

(** C8, as stated, fails: a numeric integer part followed by a non-numeric
    fractional part is malformed, yet the decoder keeps the units and only
    zeroes the fraction; the result for ["12.ab"] is [(12, 0)], not the
    zero quotation. *)
Lemma parsePriceString_malformed_fraction :
  malformedPrice (bytes "12.ab") /\
  parsePriceString (bytes "12.ab") = mkQuotation 12 0 /\
  parsePriceString (bytes "12.ab") <> mkQuotation 0 0.
Proof.
  split; [| split].
  - right. split; [discriminate | vm_compute; reflexivity].
  - vm_compute. reflexivity.
  - vm_compute. discriminate.
Qed.

(** C8, amended.  For every input string [parsePriceString] returns a
    quotation whose fields fit [int64] and [int32].  With no decimal point
    the trimmed text is the integer part, and a text [ParseInt] rejects
    gives [(0, 0)].  With a decimal point, a rejected integer part gives
    [(0, 0)]; an accepted one is kept as [Units] whatever follows: an empty
    fraction gives [Nano = 0]; a non-empty one is zero-padded and cut to
    exactly nine bytes, and [Nano] is their value, or [0] when [ParseInt]
    rejects them.  For a fraction of decimal digits this is the value of
    the digits scaled by the missing places (short) or the value of the
    first nine digits (long). *)
Theorem parsePriceString_total (priceStr : list ascii) :
  let t := TrimSpace priceStr in
  let q := parsePriceString priceStr in
  inInt64 (Units q) /\ inInt32 (Nano q) /\
  (IndexByte "."%char t = None ->
   q = match ParseInt t 64 with
       | Some units => mkQuotation units 0
       | None => mkQuotation 0 0
       end) /\
  (forall dotIndex, IndexByte "."%char t = Some dotIndex ->
     let unitsStr := firstn dotIndex t in
     let fractionStr := skipn (S dotIndex) t in
     (ParseInt unitsStr 64 = None -> q = mkQuotation 0 0) /\
     (forall units, ParseInt unitsStr 64 = Some units ->
        Units q = units /\
        (fractionStr = [] -> Nano q = 0) /\
        (fractionStr <> [] ->
           let nine := truncFraction (padFraction fractionStr) in
           length nine = 9%nat /\
           nine = firstn 9 (fractionStr ++ repeat "0"%char (9 - length fractionStr)) /\
           Nano q = match ParseInt nine 32 with Some nano => nano | None => 0 end /\
           (forall v, Forall (fun c => isDigit c = true) fractionStr ->
                      (length fractionStr <= 9)%nat ->
                      parseDigits 0 fractionStr = Some v ->
                      Nano q = v * 10 ^ Z.of_nat (9 - length fractionStr)) /\
           (forall v, Forall (fun c => isDigit c = true) fractionStr ->
                      (9 < length fractionStr)%nat ->
                      parseDigits 0 (firstn 9 fractionStr) = Some v ->
                      Nano q = v)))).
Proof.
  intros t q.
  assert (inInt64 0 /\ inInt32 0) as [Hz64 Hz32].
  { unfold inInt64, inInt32, minInt64, maxInt64, minInt32, maxInt32. lia. }
  assert (forall s v, ParseInt s 64 = Some v -> inInt64 v) as H64.
  { intros s v Hs. apply ParseInt_range in Hs; [| lia].
    unfold inInt64, minInt64, maxInt64. change (64 - 1) with 63 in Hs. lia. }
  assert (forall s v, ParseInt s 32 = Some v -> inInt32 v) as H32.
  { intros s v Hs. apply ParseInt_range in Hs; [| lia].
    unfold inInt32, minInt32, maxInt32. change (32 - 1) with 31 in Hs. lia. }
  subst q. split; [| split; [| split]].
  - unfold parsePriceString. fold t.
    destruct (IndexByte "."%char t) as [dotIndex |].
    + destruct (ParseInt (firstn dotIndex t) 64) eqn:Hu; [| exact Hz64].
      destruct (length (skipn (S dotIndex) t) =? 0)%nat; simpl; eauto.
      destruct (ParseInt _ 32); simpl; eauto.
    + destruct (ParseInt t 64) eqn:Hu; simpl; eauto.
  - unfold parsePriceString. fold t.
    destruct (IndexByte "."%char t) as [dotIndex |].
    + destruct (ParseInt (firstn dotIndex t) 64) eqn:Hu; [| exact Hz32].
      destruct (length (skipn (S dotIndex) t) =? 0)%nat; simpl; eauto.
      destruct (ParseInt _ 32) eqn:Hn; simpl; eauto.
    + destruct (ParseInt t 64) eqn:Hu; simpl; eauto.
  - intros Hidx. unfold parsePriceString. fold t. now rewrite Hidx.
  - intros dotIndex Hidx unitsStr fractionStr.
    unfold parsePriceString. fold t. rewrite Hidx. fold unitsStr fractionStr.
    split; [intros Hu; now rewrite Hu |].
    intros units Hu. rewrite Hu.
    destruct (Nat.eqb_spec (length fractionStr) 0) as [Hlen | Hlen].
    { split; [reflexivity |]. split; [reflexivity |]. intros Hne.
      destruct fractionStr; [congruence | discriminate]. }
    set (nine := truncFraction (padFraction fractionStr)).
    split; [destruct (ParseInt nine 32); reflexivity |].
    split; [intros Hnil; rewrite Hnil in Hlen; now contradiction Hlen |].
    intros Hfne.
    split; [apply normalized_fraction_length |].
    split; [apply truncFraction_firstn |].
    split; [destruct (ParseInt nine 32); reflexivity |].
    split.
    + intros v Hd Hl Hv. unfold nine.
      now rewrite (ParseInt_short_fraction _ v).
    + intros v Hd Hl Hv. unfold nine.
      now rewrite (ParseInt_long_fraction _ v).
Qed.

Lemma parsePriceString_total_witness :
  Units (parsePriceString (bytes "12.5")) = 12 /\
  Nano (parsePriceString (bytes "12.5")) = 5 * 10 ^ Z.of_nat (9 - 1).
Proof.
  pose proof (parsePriceString_total (bytes "12.5")) as H. cbv zeta in H.
  destruct H as (_ & _ & _ & Hdot).
  destruct (Hdot 2%nat ltac:(vm_compute; reflexivity)) as [_ Hunits].
  destruct (Hunits 12 ltac:(vm_compute; reflexivity)) as (HU & _ & Hfrac).
  split; [exact HU |].
  destruct (Hfrac ltac:(vm_compute; discriminate)) as (_ & _ & _ & Hshort & _).
  apply (Hshort 5).
  - vm_compute. repeat constructor.
  - vm_compute. repeat constructor.
  - vm_compute. reflexivity.
Defined.

(** ** Calendar *)

Example civil_epoch : civilFromDays 0 = (1970, 1, 1).
Proof. reflexivity. Qed.

Example civil_leap_day : civilFromDays 19782 = (2024, 2, 29).
Proof. reflexivity. Qed.

Example zeroTime_is_year_one : Date 1 1 1 0 0 0 0 = zeroTime.
Proof. reflexivity. Qed.

Example parseDate_2024 :
  parseDate (bytes "2024-01-01") = Some (1704067200 * Second).
Proof. reflexivity. Qed.

Example parseDate_bad_day : parseDate (bytes "2023-02-29") = None.
Proof. reflexivity. Qed.

Ltac divlia := Z.div_mod_to_equations; lia.

Lemma yearOfEra_spec (doe : Z) :
  0 <= doe < 146097 ->
  0 <= yearOfEra doe <= 399 /\
  0 <= doe - yearStart (yearOfEra doe) <= 365 /\
  (yearOfEra doe < 399 -> doe < yearStart (yearOfEra doe + 1)).
Proof. intros H. unfold yearOfEra, yearStart. divlia. Qed.

Lemma yearOfEra_unique (doe k : Z) :
  0 <= doe < 146097 -> 0 <= k <= 399 ->
  yearStart k <= doe -> (k < 399 -> doe < yearStart (k + 1)) ->
  yearOfEra doe = k.
Proof. intros H Hk H1 H2. unfold yearOfEra, yearStart in *. divlia. Qed.

Lemma monthIndex_spec (doy : Z) :
  0 <= doy <= 365 ->
  0 <= monthIndex doy <= 11 /\
  monthOffset (monthIndex doy) <= doy /\
  (monthIndex doy < 11 -> doy < monthOffset (monthIndex doy + 1)).
Proof. intros H. unfold monthIndex, monthOffset. divlia. Qed.

Lemma monthIndex_offset (mp : Z) :
  0 <= mp <= 11 -> monthIndex (monthOffset mp) = mp.
Proof. intros H. unfold monthIndex, monthOffset. divlia. Qed.


Lemma civilFromDays_unfold (z : Z) :
  civilFromDays z =
  let era := (z + 719468) / 146097 in
  let doe := (z + 719468) mod 146097 in
  let yoe := yearOfEra doe in
  let doy := doe - yearStart yoe in
  let mp := monthIndex doy in
  let m := if mp <? 10 then mp + 3 else mp - 9 in
  (if m <=? 2 then yoe + era * 400 + 1 else yoe + era * 400, m,
   doy - monthOffset mp + 1).
Proof. reflexivity. Qed.

Lemma daysFromCivil_shifted (era yoe mp d : Z) :
  0 <= yoe <= 399 -> 0 <= mp <= 11 ->
  let m := if mp <? 10 then mp + 3 else mp - 9 in
  let y := if m <=? 2 then yoe + era * 400 + 1 else yoe + era * 400 in
  daysFromCivil y m d =
  era * 146097 + yearStart yoe + monthOffset mp + d - 1 - 719468.
Proof.
  intros Hy Hm m y. subst m y. unfold daysFromCivil, yearStart, monthOffset.
  cbv zeta.
  destruct (Z.ltb_spec mp 10).
  - destruct (Z.leb_spec (mp + 3) 2); [lia |].
    destruct (Z.ltb_spec 2 (mp + 3)); [| lia].
    replace (mp + 3 - 3) with mp by lia.
    assert ((yoe + era * 400) / 400 = era) as -> by divlia.
    assert ((yoe + era * 400) mod 400 = yoe) as -> by divlia.
    lia.
  - destruct (Z.leb_spec (mp - 9) 2); [| lia].
    destruct (Z.ltb_spec 2 (mp - 9)); [lia |].
    replace (mp - 9 + 9) with mp by lia.
    replace (yoe + era * 400 + 1 - 1) with (yoe + era * 400) by lia.
    assert ((yoe + era * 400) / 400 = era) as -> by divlia.
    assert ((yoe + era * 400) mod 400 = yoe) as -> by divlia.
    lia.
Qed.

Lemma daysFromCivil_march (era yoe : Z) :
  0 <= yoe <= 399 ->
  daysFromCivil (yoe + era * 400) 3 1 = era * 146097 + yearStart yoe - 719468.
Proof.
  intros Hy. unfold daysFromCivil, yearStart. cbv zeta.
  change (3 <=? 2) with false. change (2 <? 3) with true. cbv iota.
  assert ((yoe + era * 400) / 400 = era) as -> by divlia.
  assert ((yoe + era * 400) mod 400 = yoe) as -> by divlia.
  change ((153 * (3 - 3) + 2) / 5) with 0. lia.
Qed.

Lemma civil_month (z : Z) :
  let '(y, m, d) := civilFromDays z in
  1 <= m <= 12 /\ 1 <= d /\
  daysFromCivil y m 1 = z - (d - 1) /\
  z < daysFromCivil (y + m / 12) (m mod 12 + 1) 1 /\
  civilFromDays (z - (d - 1)) = (y, m, 1).
Proof.
  rewrite civilFromDays_unfold. cbv zeta.
  set (era := (z + 719468) / 146097).
  set (doe := (z + 719468) mod 146097).
  assert (0 <= doe < 146097) as Hdoe by (apply Z.mod_pos_bound; lia).
  assert (z = era * 146097 + doe - 719468) as Hz.
  { pose proof (Z.div_mod (z + 719468) 146097 ltac:(lia)). subst era doe. lia. }
  destruct (yearOfEra_spec doe Hdoe) as (Hyoe & Hdoy & Hnext).
  set (yoe := yearOfEra doe) in *.
  set (doy := doe - yearStart yoe) in *.
  destruct (monthIndex_spec doy Hdoy) as (Hmp & Hoff & Hnoff).
  set (mp := monthIndex doy) in *.
  pose proof (daysFromCivil_shifted era yoe mp 1 Hyoe Hmp) as Hms.
  cbv zeta in Hms.
  set (m := if mp <? 10 then mp + 3 else mp - 9) in *.
  set (y := if m <=? 2 then yoe + era * 400 + 1 else yoe + era * 400) in *.
  assert (1 <= m <= 12) as Hm by (subst m; destruct (Z.ltb_spec mp 10); lia).
  split; [exact Hm |]. split; [lia |]. split; [lia |]. split.
  - (* the month after *)
    destruct (Z.eq_dec mp 11) as [E11 | N11].
    + assert (m = 2) as Em by (subst m; rewrite E11; reflexivity).
      assert (y = yoe + era * 400 + 1) as Ey by (subst y; rewrite Em; reflexivity).
      rewrite Em, Ey. change (2 / 12) with 0. change (2 mod 12 + 1) with 3.
      destruct (Z.eq_dec yoe 399) as [E399 | N399].
      * replace (yoe + era * 400 + 1 + 0) with (0 + (era + 1) * 400) by lia.
        rewrite daysFromCivil_march by lia.
        change (yearStart 0) with 0. lia.
      * replace (yoe + era * 400 + 1 + 0) with (yoe + 1 + era * 400) by lia.
        rewrite daysFromCivil_march by lia.
        assert (doe < yearStart (yoe + 1)) by (apply Hnext; lia). lia.
    + pose proof (daysFromCivil_shifted era yoe (mp + 1) 1 Hyoe ltac:(lia)) as Hn.
      cbv zeta in Hn.
      assert (doy < monthOffset (mp + 1)) as Hlt by (apply Hnoff; lia).
      assert (daysFromCivil (y + m / 12) (m mod 12 + 1) 1
              = era * 146097 + yearStart yoe + monthOffset (mp + 1) + 1 - 1 - 719468)
        as ->; [| lia].
      rewrite <- Hn. subst y m.
      destruct (Z.ltb_spec mp 10) as [L10 | G10].
      * destruct (Z.leb_spec (mp + 3) 2); [lia |].
        destruct (Z.eq_dec mp 9) as [-> | N9].
        { reflexivity. }
        assert ((mp + 3) / 12 = 0) as -> by divlia.
        assert ((mp + 3) mod 12 = mp + 3) as -> by divlia.
        destruct (Z.ltb_spec (mp + 1) 10); [| lia].
        destruct (Z.leb_spec (mp + 1 + 3) 2); [lia |].
        f_equal; lia.
      * assert (mp = 10) as -> by lia.
        change ((10 - 9) / 12) with 0. change ((10 - 9) mod 12 + 1) with 2.
        change (10 - 9 <=? 2) with true. change (10 + 1 <? 10) with false.
        cbv iota. change (10 + 1 - 9) with 2. change (2 <=? 2) with true.
        cbv iota. f_equal. lia.
  - (* first of the month maps back *)
    replace (z - (doy - monthOffset mp + 1 - 1))
      with (era * 146097 + (yearStart yoe + monthOffset mp) - 719468) by lia.
    rewrite civilFromDays_unfold. cbv zeta.
    set (doe1 := yearStart yoe + monthOffset mp).
    assert (0 <= doe1 < 146097) as Hdoe1.
    { subst doe1. unfold yearStart, monthOffset in *. divlia. }
    assert ((era * 146097 + doe1 - 719468 + 719468) / 146097 = era) as -> by divlia.
    assert ((era * 146097 + doe1 - 719468 + 719468) mod 146097 = doe1) as -> by divlia.
    assert (yearOfEra doe1 = yoe) as ->.
    { apply yearOfEra_unique; try assumption; subst doe1.
      - unfold monthOffset. divlia.
      - intros Hlt. specialize (Hnext Hlt). lia. }
    replace (doe1 - yearStart yoe) with (monthOffset mp) by (subst doe1; lia).
    rewrite monthIndex_offset by assumption.
    fold m. fold y. f_equal. lia.
Qed.

(** ** Months as instants *)

Lemma Date_midnight (y m d : Z) :
  1 <= m <= 12 ->
  Date y m d 0 0 0 0 = (daysFromCivil y m 1 + (d - 1)) * dayNanos.
Proof.
  intros Hm. unfold Date, dayNanos. cbv zeta.
  assert ((m - 1) / 12 = 0) as -> by divlia.
  assert ((m - 1) mod 12 + 1 = m) as -> by divlia.
  replace (y + 0) with y by lia. unfold secondsPerDay, Second. lia.
Qed.

Lemma unixDay_midnight (D : Z) : unixDay (D * dayNanos) = D.
Proof. unfold unixDay. apply Z.div_mul. discriminate. Qed.

Lemma civil_fields (t : Time) :
  civilFromDays (unixDay t) = (Year t, Month t, Day t).
Proof.
  unfold Year, Month, Day. now destruct (civilFromDays (unixDay t)) as [[y m] d].
Qed.

Lemma day_bounds (t : Time) :
  unixDay t * dayNanos <= t < (unixDay t + 1) * dayNanos.
Proof.
  unfold unixDay. fold dayNanos.
  assert (0 < dayNanos) by reflexivity.
  pose proof (Z.div_mod t dayNanos ltac:(lia)).
  pose proof (Z.mod_pos_bound t dayNanos ltac:(lia)). lia.
Qed.

Lemma midnight_clock (D : Z) :
  (D * dayNanos / Second) mod secondsPerDay = 0 /\ (D * dayNanos) mod Second = 0.
Proof.
  unfold dayNanos. rewrite Z.mul_assoc. split.
  - rewrite Z.div_mul by discriminate. apply Z.mod_mul. discriminate.
  - apply Z.mod_mul. discriminate.
Qed.

Lemma AddDate_month_midnight (D y m : Z) :
  civilFromDays D = (y, m, 1) ->
  AddDate (D * dayNanos) 0 1 0 = Date y (m + 1) 1 0 0 0 0.
Proof.
  intros Hc.
  unfold AddDate, Year, Month, Day, clockHour, clockMinute, clockSecond,
    secondOfDay, Nanos.
  rewrite unixDay_midnight, Hc. cbn [fst snd].
  destruct (midnight_clock D) as [-> ->].
  rewrite !Z.add_0_r. reflexivity.
Qed.

Lemma partitionMonthStart_eq (t : Time) :
  partitionMonthStart t = (unixDay t - (Day t - 1)) * dayNanos.
Proof.
  pose proof (civil_month (unixDay t)) as H. rewrite civil_fields in H.
  destruct H as (Hm & Hd & Hstart & Hnext & Hback).
  unfold partitionMonthStart. rewrite Date_midnight by exact Hm.
  rewrite Hstart. f_equal. lia.
Qed.

Lemma nextMonthStart_eq (t : Time) :
  nextMonthStart t
  = daysFromCivil (Year t + Month t / 12) (Month t mod 12 + 1) 1 * dayNanos.
Proof.
  unfold nextMonthStart, Date, dayNanos. cbv zeta.
  replace (Month t + 1 - 1) with (Month t) by lia.
  unfold secondsPerDay, Second. lia.
Qed.

Lemma partitionMonthEnd_eq (t : Time) :
  partitionMonthEnd t = nextMonthStart t - Second.
Proof.
  pose proof (civil_month (unixDay t)) as H. rewrite civil_fields in H.
  destruct H as (Hm & Hd & Hstart & Hnext & Hback).
  unfold partitionMonthEnd, Add.
  rewrite partitionMonthStart_eq.
  rewrite (AddDate_month_midnight _ _ _ Hback).
  unfold nextMonthStart. apply Z.add_opp_r.
Qed.

(** The month of [t] starts at [partitionMonthStart t] and ends before
    [nextMonthStart t]. *)
Lemma month_bounds (t : Time) :
  partitionMonthStart t <= t < nextMonthStart t /\ 1 <= Month t <= 12.
Proof.
  pose proof (civil_month (unixDay t)) as H. rewrite civil_fields in H.
  destruct H as (Hm & Hd & Hstart & Hnext & Hback).
  pose proof (day_bounds t) as Ht.
  assert (0 < dayNanos) as Hpos by reflexivity.
  rewrite partitionMonthStart_eq, nextMonthStart_eq.
  split; [split; nia | exact Hm].
Qed.

(** ** Monthly partitions *)

(** What [CreatePartition] asks for: the range starts at the first instant
    of the month of [t] and ends one second before the next month; since
    the upper bound of a range partition is exclusive, an instant of the
    month is inside the partition exactly when it is before that bound. *)
Lemma partitionOf_covers (t u : Time) :
  partitionMonthStart t <= u < nextMonthStart t ->
  (partitionCovers (partitionOf t) u = true <-> u < nextMonthStart t - Second).
Proof.
  intros Hu. unfold partitionCovers, partitionOf. cbn [pFrom pTo].
  rewrite partitionMonthEnd_eq, andb_true_iff, Z.leb_le, Z.ltb_lt. lia.
Qed.

Lemma partitionOf_covers_own_instant (t : Time) :
  partitionCovers (partitionOf t) t = true <-> t < nextMonthStart t - Second.
Proof. apply partitionOf_covers. apply month_bounds. Qed.

(** C3 (the code departs from the claim).  At 2025-01-31 23:59:59 UTC the
    instant lies in January 2025, [CreatePartition] creates the partition
    [candles_2025_01] from 2025-01-01 00:00:00 to 2025-01-31 23:59:59, and
    that partition does not hold the instant: on a database without
    partitions [SaveCandles] creates it, retries, and returns the
    no-partition error; nothing is stored. *)
Theorem CreatePartition_misses_final_second :
  let t := finalSecondOfJanuary2025 in
  let run := SaveCandles simEnv "BBG000B9XRY4" [candleAt t] CandleInterval1Min
                         (emptyWorld t, []) in
  partitionMonthStart t = Date 2025 1 1 0 0 0 0 /\
  nextMonthStart t = Date 2025 2 1 0 0 0 0 /\
  partitionMonthStart t <= t < nextMonthStart t /\
  partitionName t = bytes "candles_2025_01" /\
  pTo (partitionOf t) = t /\
  partitionCovers (partitionOf t) t = false /\
  fst run = Some (Errorf "ошибка вставки свечи после создания партиции"
                         (Some noPartitionError)) /\
  partitions (pg (fst (snd run))) = [partitionOf t] /\
  candles (pg (fst (snd run))) = [].
Proof. vm_compute. repeat split; congruence. Qed.

(** ** Instrument metadata *)

(** C6.  When a row for the instrument exists, [SaveInstrument] (both the
    extended one and the one of [internal/storage/instruments.go]) leaves a
    row whose metadata columns are the incoming ones and whose [enabled]
    flag is the stored one, whatever [Enabled] the incoming record
    carries; a flag that was true is still true; the rows of other
    instruments are untouched. *)
Theorem SaveInstrument_keeps_enabled
        (w : SimWorld) (tr : list Event) (old : InstrumentRow)
        (incoming : Instrument) :
  instruments (pg w) !! Figi incoming = Some old ->
  let after := instruments (pg (fst (snd (SaveInstrument simEnv incoming (w, tr)))))
  in
  let afterBasic :=
    instruments (pg (fst (snd (SaveInstrumentBasic simEnv incoming (w, tr))))) in
  (exists row,
      after !! Figi incoming = Some row /\
      Enabled (rMeta row) = Enabled (rMeta old) /\
      sameMetadata row incoming /\ sameExtendedMetadata row incoming /\
      (Enabled (rMeta old) = true -> Enabled (rMeta row) = true)) /\
  (exists row,
      afterBasic !! Figi incoming = Some row /\
      Enabled (rMeta row) = Enabled (rMeta old) /\
      sameMetadata row incoming /\
      (Enabled (rMeta old) = true -> Enabled (rMeta row) = true)) /\
  (forall figi, figi <> Figi incoming ->
                after !! figi = instruments (pg w) !! figi /\
                afterBasic !! figi = instruments (pg w) !! figi).
Proof.
  intros Hold after afterBasic.
  assert (after = <[Figi incoming := mergeInstrument old incoming (dbNow (pg w))]>
                    (instruments (pg w))) as Hafter.
  { subst after. unfold SaveInstrument, bind, exec. cbn.
    rewrite Hold. reflexivity. }
  assert (afterBasic
          = <[Figi incoming := mergeInstrumentBasic old incoming (dbNow (pg w))]>
              (instruments (pg w))) as HafterB.
  { subst afterBasic. unfold SaveInstrumentBasic, bind, exec. cbn.
    rewrite Hold. reflexivity. }
  rewrite Hafter, HafterB. split; [| split].
  - eexists. split; [apply lookup_insert_eq |].
    unfold sameMetadata, sameExtendedMetadata. cbn. tauto.
  - eexists. split; [apply lookup_insert_eq |].
    unfold sameMetadata. cbn. tauto.
  - intros figi Hne. split; apply lookup_insert_ne; congruence.
Qed.

Lemma SaveInstrument_keeps_enabled_witness :
  let old := mkInstrumentRow (sberbank true "Sberbank") None in
  let incoming := sberbank false "Sberbank of Russia" in
  instruments (pg (worldWith old)) !! Figi incoming = Some old /\
  exists row,
    instruments (pg (fst (snd (SaveInstrument simEnv incoming (worldWith old, [])))))
      !! Figi incoming = Some row /\
    Enabled (rMeta row) = true /\ Name (rMeta row) = "Sberbank of Russia"%string.
Proof.
  intros old incoming.
  assert (instruments (pg (worldWith old)) !! Figi incoming = Some old) as Hold
    by (vm_compute; reflexivity).
  split; [exact Hold |].
  destruct (SaveInstrument_keeps_enabled (worldWith old) [] old incoming Hold)
    as [[row (Hrow & Hen & Hmeta & _)] _].
  exists row. split; [exact Hrow |]. split; [exact Hen |].
  exact (proj1 (proj2 Hmeta)).
Defined.

(** ** Saving candles *)

Lemma dbCalls_app (a b : list Event) : dbCalls (a ++ b) = dbCalls a ++ dbCalls b.
Proof. unfold dbCalls. apply flat_map_app. Qed.

Lemma fetchedChunks_app (a b : list Event) :
  fetchedChunks (a ++ b) = fetchedChunks a ++ fetchedChunks b.
Proof. unfold fetchedChunks. apply flat_map_app. Qed.

Lemma wraps_refl (e : error) : wraps e e.
Proof. destruct e; simpl; now left. Qed.

Lemma wraps_Errorf (msg : string) (e inner : error) :
  wraps e inner -> wraps (Errorf msg (Some e)) inner.
Proof. intros H. simpl. now right. Qed.

Section SaveCandlesFacts.
Context {World : Type} (env : Env World).
Variables (figi intervalType : string) (candle : HistoricCandle).

Let ins := insertCandleQuery figi candle intervalType.
Let create := createPartitionQuery (cTime candle).

Lemma saveCandle_inserted (w w1 : World) (tr : list Event) :
  dbExec env ins w = (None, w1) ->
  saveCandle env figi intervalType candle (w, tr)
  = (None, (w1, tr ++ [EvExec ins None])).
Proof.
  intros H. unfold saveCandle, bind, exec. fold ins. now rewrite H.
Qed.

Lemma saveCandle_not_partition (w w1 : World) (tr : list Event) (err : error) :
  dbExec env ins w = (Some err, w1) ->
  isPartitionError err = false ->
  saveCandle env figi intervalType candle (w, tr)
  = (Some (Errorf "ошибка вставки свечи" (Some err)),
     (w1, tr ++ [EvExec ins (Some err)])).
Proof.
  intros H Hc. unfold saveCandle, bind, exec. fold ins. rewrite H.
  unfold isPartitionError in Hc.
  destruct (errorsAsPgError err) as [[code message] |]; [| reflexivity].
  destruct (classifyPartitionError code message); [discriminate | reflexivity].
Qed.

Lemma saveCandle_partition (w w1 w2 : World) (tr : list Event)
      (err : error) (createRes : option error) :
  dbExec env ins w = (Some err, w1) ->
  isPartitionError err = true ->
  dbExec env create w1 = (createRes, w2) ->
  exists line,
    let tr1 := tr ++ [EvExec ins (Some err)] ++ [EvLog line]
                  ++ [EvLog "Создаем партицию для времени"]
                  ++ [EvExec create createRes] in
    match createRes with
    | Some ce =>
        saveCandle env figi intervalType candle (w, tr)
        = (Some (Errorf "ошибка создания партиции"
                   (Some (Errorf "ошибка создания партиции" (Some ce)))),
           (w2, tr1))
    | None =>
        forall retryRes w3,
          dbExec env ins w2 = (retryRes, w3) ->
          saveCandle env figi intervalType candle (w, tr)
          = (match retryRes with
             | Some re =>
                 Some (Errorf "ошибка вставки свечи после создания партиции"
                              (Some re))
             | None => None
             end,
             (w3, tr1 ++ [EvExec ins retryRes]))
    end.
Proof.
  intros H Hc Hcreate. unfold isPartitionError in Hc.
  destruct (errorsAsPgError err) as [[code message] |] eqn:Has; [| discriminate].
  destruct (classifyPartitionError code message) as [line |] eqn:Hcl;
    [| discriminate].
  exists line. cbv zeta.
  unfold saveCandle, bind, exec, CreatePartition, bind, exec, logf, emit, ret.
  fold ins create. rewrite H, Has, Hcl, Hcreate.
  destruct createRes as [ce |].
  - now rewrite <- !app_assoc.
  - intros retryRes w3 Hretry. rewrite Hretry.
    destruct retryRes; now rewrite <- !app_assoc.
Qed.
End SaveCandlesFacts.

(** C4, as stated, fails: when the creation of the partition itself
    fails, the record is not retried.  Here the month partition overlaps
    an existing one, the creation is refused, and only two statements are
    sent for the record. *)
Lemma SaveCandles_no_retry_when_creation_fails :
  let c := candleAt (Date 2025 1 20 12 0 0 0) in
  let ins := insertCandleQuery "BBG000B9XRY4" c CandleInterval1Min in
  dbExec simEnv ins halfMonthWorld = (Some noPartitionError, halfMonthWorld) /\
  isPartitionError noPartitionError = true /\
  dbCalls (snd (snd (saveCandle simEnv "BBG000B9XRY4" CandleInterval1Min c
                                (halfMonthWorld, []))))
  = [ (ins, Some noPartitionError);
      (createPartitionQuery (cTime c), Some overlapError) ] /\
  ~ retriesOnce simEnv "BBG000B9XRY4" CandleInterval1Min c halfMonthWorld.
Proof.
  intros c ins.
  assert (dbExec simEnv ins halfMonthWorld = (Some noPartitionError, halfMonthWorld))
    as Hins by (vm_compute; reflexivity).
  assert (isPartitionError noPartitionError = true) as Hcl by reflexivity.
  split; [exact Hins |]. split; [exact Hcl |]. split.
  - vm_compute. reflexivity.
  - intros Hclaim. destruct (Hclaim _ _ Hins Hcl) as (createRes & retryRes & H).
    vm_compute in H. discriminate H.
Qed.

(** C4, amended.  For a record whose first insert fails with [err]:
    - if [err] is not classified as a missing partition, nothing more is
      sent and [SaveCandles] returns an error wrapping [err];
    - if it is, the creation of the month partition of the record's
      timestamp is sent next; when the creation succeeds the insert is
      sent once more and never again: a failing retry is returned wrapped,
      a successful one lets the loop go on; when the creation fails its
      error is returned wrapped and the insert is not retried. *)
Theorem saveCandle_self_heal {World : Type} (env : Env World)
        (figi intervalType : string) (candle : HistoricCandle)
        (w w1 : World) (tr : list Event) (err : error) :
  let ins := insertCandleQuery figi candle intervalType in
  let create := createPartitionQuery (cTime candle) in
  let run := saveCandle env figi intervalType candle (w, tr) in
  dbExec env ins w = (Some err, w1) ->
  (isPartitionError err = false ->
     fst run = Some (Errorf "ошибка вставки свечи" (Some err)) /\
     fst (snd run) = w1 /\
     dbCalls (snd (snd run)) = dbCalls tr ++ [(ins, Some err)]) /\
  (isPartitionError err = true ->
     forall createRes w2,
       dbExec env create w1 = (createRes, w2) ->
       match createRes with
       | Some ce =>
           (exists e, fst run = Some e /\ wraps e ce) /\
           fst (snd run) = w2 /\
           dbCalls (snd (snd run))
           = dbCalls tr ++ [(ins, Some err); (create, Some ce)]
       | None =>
           forall retryRes w3,
             dbExec env ins w2 = (retryRes, w3) ->
             match retryRes with
             | Some re => exists e, fst run = Some e /\ wraps e re
             | None => fst run = None
             end /\
             fst (snd run) = w3 /\
             dbCalls (snd (snd run))
             = dbCalls tr ++ [(ins, Some err); (create, None); (ins, retryRes)]
       end).
Proof.
  intros ins create run Hins. split.
  - intros Hc. subst run.
    rewrite (saveCandle_not_partition env figi intervalType candle w w1 tr err Hins Hc).
    cbn.
    repeat split. now rewrite dbCalls_app.
  - intros Hc createRes w2 Hcreate.
    destruct (saveCandle_partition env figi intervalType candle w w1 w2 tr err
                createRes Hins Hc Hcreate) as [line Hrun].
    cbv zeta in Hrun. destruct createRes as [ce |].
    + subst run. rewrite Hrun. cbn. repeat split.
      * eexists. split; [reflexivity |].
        apply wraps_Errorf, wraps_Errorf, wraps_refl.
      * rewrite !dbCalls_app. reflexivity.
    + intros retryRes w3 Hretry. subst run. rewrite (Hrun _ _ Hretry). cbn.
      repeat split.
      * destruct retryRes as [re |]; [| reflexivity].
        eexists. split; [reflexivity |]. apply wraps_Errorf, wraps_refl.
      * rewrite !dbCalls_app. cbn. now rewrite <- app_assoc.
Qed.

Lemma saveCandle_self_heal_witness :
  let t := Date 2025 1 15 12 0 0 0 in
  let c := candleAt t in
  let w := emptyWorld t in
  let ins := insertCandleQuery "BBG000B9XRY4" c CandleInterval1Min in
  dbExec simEnv ins w = (Some noPartitionError, w) /\
  dbCalls (snd (snd (saveCandle simEnv "BBG000B9XRY4" CandleInterval1Min c (w, []))))
  = [ (ins, Some noPartitionError);
      (createPartitionQuery t, None);
      (ins, None) ].
Proof.
  intros t c w ins.
  assert (dbExec simEnv ins w = (Some noPartitionError, w)) as Hins
    by (vm_compute; reflexivity).
  split; [exact Hins |].
  pose proof (saveCandle_self_heal simEnv "BBG000B9XRY4" CandleInterval1Min c
                w w [] noPartitionError Hins) as [_ Hheal].
  specialize (Hheal eq_refl None
                (snd (dbExec simEnv (createPartitionQuery (cTime c)) w))).
  specialize (Hheal ltac:(vm_compute; reflexivity)).
  cbv iota in Hheal.
  specialize (Hheal None
     (snd (dbExec simEnv ins
             (snd (dbExec simEnv (createPartitionQuery (cTime c)) w))))
     ltac:(vm_compute; reflexivity)).
  exact (proj2 (proj2 Hheal)).
Defined.

Section BatchFacts.
Context {World : Type} (env : Env World).
Variables (figi intervalType : string).

Lemma saveCandlesLoop_app (pre post : list HistoricCandle)
      (st st1 : World * list Event) :
  saveCandlesLoop env figi intervalType pre st = (None, st1) ->
  saveCandlesLoop env figi intervalType (pre ++ post) st
  = saveCandlesLoop env figi intervalType post st1.
Proof.
  revert st. induction pre as [| c pre IH]; intros st H.
  - cbn in H. injection H as <-. reflexivity.
  - cbn [app saveCandlesLoop] in *. unfold bind in *.
    destruct (saveCandle env figi intervalType c st) as [[e |] st'].
    + discriminate H.
    + now apply IH.
Qed.

Lemma saveCandlesLoop_fails_at (pre post : list HistoricCandle)
      (c : HistoricCandle) (st st1 st2 : World * list Event) (err : error) :
  saveCandlesLoop env figi intervalType pre st = (None, st1) ->
  saveCandle env figi intervalType c st1 = (Some err, st2) ->
  saveCandlesLoop env figi intervalType (pre ++ c :: post) st = (Some err, st2).
Proof.
  intros Hpre Hc. rewrite (saveCandlesLoop_app _ _ _ _ Hpre).
  cbn [saveCandlesLoop]. unfold bind. now rewrite Hc.
Qed.
End BatchFacts.

(** C5, amended.  [SaveCandles] stops at the first record that fails for
    good: when the records before [c] are saved and [c] makes the loop
    body return [err], the whole call returns [err] in the state reached
    right after [c]; the result and the statements sent are the same
    whatever follows [c] in the batch, so no later record is attempted. *)
Theorem SaveCandles_stops_at_first_failure {World : Type} (env : Env World)
        (figi intervalType : string)
        (pre post : list HistoricCandle) (c : HistoricCandle)
        (w : World) (tr : list Event)
        (st1 st2 : World * list Event) (err : error) :
  saveCandlesLoop env figi intervalType pre
    (w, tr ++ [EvLog "Начинаем сохранение свечей"]) = (None, st1) ->
  saveCandle env figi intervalType c st1 = (Some err, st2) ->
  SaveCandles env figi (pre ++ c :: post) intervalType (w, tr) = (Some err, st2) /\
  SaveCandles env figi (pre ++ c :: post) intervalType (w, tr)
  = SaveCandles env figi (pre ++ [c]) intervalType (w, tr).
Proof.
  intros Hpre Hc.
  assert (forall rest,
             SaveCandles env figi (pre ++ c :: rest) intervalType (w, tr)
             = (Some err, st2)) as Hall.
  { intros rest. unfold SaveCandles.
    destruct (pre ++ c :: rest) eqn:Hl.
    { destruct pre; discriminate Hl. }
    rewrite <- Hl. unfold bind, logf, emit.
    eapply saveCandlesLoop_fails_at; eassumption. }
  split; [apply Hall |]. now rewrite !Hall.
Qed.

(** C5, as stated, fails.  The first record of the batch lies in the last
    second of January 2025: its insert finds no partition, the partition
    is created, the retry finds none either and [SaveCandles] returns.
    The second record, which the new partition would hold, is never
    sent. *)
Lemma SaveCandles_skips_rest_after_failure :
  let w := emptyWorld finalSecondOfJanuary2025 in
  let run := SaveCandles simEnv "BBG000B9XRY4" twoCandleBatch CandleInterval1Min
                         (w, []) in
  fst run = Some (Errorf "ошибка вставки свечи после создания партиции"
                         (Some noPartitionError)) /\
  map fst (dbCalls (snd (snd run)))
  = [ insertCandleQuery "BBG000B9XRY4" (candleAt finalSecondOfJanuary2025)
                        CandleInterval1Min;
      createPartitionQuery finalSecondOfJanuary2025;
      insertCandleQuery "BBG000B9XRY4" (candleAt finalSecondOfJanuary2025)
                        CandleInterval1Min ] /\
  partitionCovers (partitionOf finalSecondOfJanuary2025)
                  (Date 2025 1 15 12 0 0 0) = true /\
  ~ batchGoesOn simEnv "BBG000B9XRY4" CandleInterval1Min []
      (candleAt finalSecondOfJanuary2025) [candleAt (Date 2025 1 15 12 0 0 0)] w.
Proof.
  intros w run. split; [vm_compute; reflexivity |].
  split; [vm_compute; reflexivity |]. split; [vm_compute; reflexivity |].
  intros Hclaim.
  destruct (Hclaim ltac:(reflexivity) ltac:(vm_compute; discriminate)
                   (candleAt (Date 2025 1 15 12 0 0 0)) ltac:(now left))
    as [r Hin].
  vm_compute in Hin.
  repeat (destruct Hin as [Hin | Hin]; [discriminate Hin |]). exact Hin.
Qed.

Lemma SaveCandles_stops_at_first_failure_witness :
  let w := emptyWorld finalSecondOfJanuary2025 in
  let c := candleAt finalSecondOfJanuary2025 in
  let st1 := (w, [EvLog "Начинаем сохранение свечей"]) in
  saveCandlesLoop simEnv "BBG000B9XRY4" CandleInterval1Min [] st1 = (None, st1) /\
  SaveCandles simEnv "BBG000B9XRY4" twoCandleBatch CandleInterval1Min (w, [])
  = SaveCandles simEnv "BBG000B9XRY4" [c] CandleInterval1Min (w, []).
Proof.
  intros w c st1. split; [reflexivity |].
  exact (proj2 (SaveCandles_stops_at_first_failure simEnv "BBG000B9XRY4"
                  CandleInterval1Min [] [candleAt (Date 2025 1 15 12 0 0 0)] c
                  w [] st1
                  (snd (saveCandle simEnv "BBG000B9XRY4" CandleInterval1Min c st1))
                  (Errorf "ошибка вставки свечи после создания партиции"
                          (Some noPartitionError))
                  eq_refl ltac:(vm_compute; reflexivity))).
Defined.

(** ** Traces of computations *)

Section Produces.
Context {World : Type} (env : Env World).
Variable P : Event -> Prop.

Lemma produces_ret {A} (a : A) (Q : A -> Prop) :
  Q a -> produces (ret (World := World) a) P Q.
Proof.
  intros Ha w tr. split; [exact Ha |]. exists []. cbn.
  now rewrite app_nil_r.
Qed.

Lemma produces_bind {A B} (c : M World A) (k : A -> M World B)
      (Q : A -> Prop) (R : B -> Prop) :
  produces c P Q -> (forall a, Q a -> produces (k a) P R) ->
  produces (bind c k) P R.
Proof.
  intros Hc Hk w tr. unfold bind.
  destruct (Hc w tr) as [Ha (evs & Htr & Hevs)].
  destruct (c (w, tr)) as [a [w' tr']]. cbn in *. subst tr'.
  destruct (Hk a Ha w' (tr ++ evs)) as [Hb (evs' & Htr' & Hevs')].
  split; [exact Hb |]. exists (evs ++ evs'). split.
  - rewrite Htr'. now rewrite app_assoc.
  - apply Forall_app. now split.
Qed.

Lemma produces_weaken {A} (c : M World A) (Q Q' : A -> Prop) :
  produces c P Q -> (forall a, Q a -> Q' a) -> produces c P Q'.
Proof.
  intros Hc HQ w tr. destruct (Hc w tr) as [Ha He]. split; [now apply HQ | exact He].
Qed.

Lemma produces_emit (e : Event) :
  P e -> produces (emit (World := World) e) P (fun _ => True).
Proof.
  intros He w tr. split; [exact I |]. exists [e]. cbn.
  split; [reflexivity | now constructor].
Qed.

Lemma produces_exec (q : Query) :
  (forall r, P (EvExec q r)) -> produces (exec env q) P (fun _ => True).
Proof.
  intros He w tr. split; [exact I |]. unfold exec.
  destruct (dbExec env q w) as [r w']. exists [EvExec q r]. cbn.
  split; [reflexivity | constructor; [apply He | constructor]].
Qed.

Lemma produces_now : produces (now env) P (fun _ => True).
Proof.
  intros w tr. split; [exact I |]. unfold now.
  destruct (timeNow env w) as [t w']. exists []. cbn. now rewrite app_nil_r.
Qed.

Lemma produces_queryTime (q : TimeQuery) :
  produces (queryTime env q) P (fun _ => True).
Proof.
  intros w tr. split; [exact I |]. unfold queryTime.
  destruct (dbQueryTime env q w) as [t w']. exists []. cbn. now rewrite app_nil_r.
Qed.

Lemma produces_GetStartDate (cfg : Config) :
  produces (GetStartDate env cfg) P (fun _ => True).
Proof.
  unfold GetStartDate.
  destruct (String.eqb (StartDate cfg) "");
    [| destruct (parseDate (bytes (StartDate cfg)))].
  - eapply produces_bind; [apply produces_now |].
    intros t _. now apply produces_ret.
  - now apply produces_ret.
  - eapply produces_bind; [apply produces_now |].
    intros t _. now apply produces_ret.
Qed.
End Produces.

(** ** Dividends *)

Section DividendFacts.
Context {World : Type} (env : Env World).

Lemma SaveDividend_result (dividend : Dividend) (w : World) (tr : list Event) :
  SaveDividend env dividend (w, tr)
  = (Some (Errorf "ошибка сохранения дивиденда"
                  (fst (dbExec env (UpsertDividend dividend) w))),
     (snd (dbExec env (UpsertDividend dividend) w),
      tr ++ [EvExec (UpsertDividend dividend)
                    (fst (dbExec env (UpsertDividend dividend) w))])).
Proof.
  unfold SaveDividend, bind, exec.
  now destruct (dbExec env (UpsertDividend dividend) w).
Qed.

Lemma saveDividendsLoop_first (dividend : Dividend) (rest : list Dividend)
      (w : World) (tr : list Event) :
  saveDividendsLoop env (dividend :: rest) (w, tr)
  = (Some (Errorf "ошибка сохранения дивиденда"
             (Some (Errorf "ошибка сохранения дивиденда"
                           (fst (dbExec env (UpsertDividend dividend) w))))),
     (snd (dbExec env (UpsertDividend dividend) w),
      tr ++ [EvExec (UpsertDividend dividend)
                    (fst (dbExec env (UpsertDividend dividend) w))])).
Proof.
  cbn [saveDividendsLoop]. unfold bind at 1. now rewrite SaveDividend_result.
Qed.

Lemma storeDividends_first (dividend : Dividend) (rest : list Dividend)
      (w : World) (tr : list Event) :
  storeDividends env (dividend :: rest) (w, tr)
  = (Some (Errorf "ошибка сохранения дивиденда"
             (Some (Errorf "ошибка сохранения дивиденда"
                           (fst (dbExec env (UpsertDividend dividend) w))))),
     (snd (dbExec env (UpsertDividend dividend) w),
      tr ++ [EvExec (UpsertDividend dividend)
                    (fst (dbExec env (UpsertDividend dividend) w))])).
Proof.
  unfold storeDividends. cbn [length Nat.ltb Nat.leb]. unfold bind at 1.
  now rewrite saveDividendsLoop_first.
Qed.

Lemma storeDividends_produces (dividends : list Dividend) :
  produces (storeDividends env dividends) notSavedLog
           (fun r => r = None -> dividends = []).
Proof.
  destruct dividends as [| d rest].
  - unfold storeDividends. cbn [length Nat.ltb Nat.leb].
    eapply produces_bind; [apply produces_emit; discriminate |].
    intros _ _. now apply produces_ret.
  - intros w tr. rewrite storeDividends_first. cbn [fst snd].
    split; [discriminate |].
    eexists. split; [reflexivity |]. constructor; [discriminate | constructor].
Qed.

Lemma ProcessInstrumentDividends_produces (cfg : Config) (figi : string) :
  produces (ProcessInstrumentDividends env cfg figi) notSavedLog (fun _ => True).
Proof.
  unfold ProcessInstrumentDividends.
  eapply produces_bind with (Q := fun _ => True).
  { unfold GetLastDividendDate. eapply produces_bind with (Q := fun _ => True);
      [apply produces_queryTime |].
    intros r _. destruct r; apply produces_ret; exact I. }
  intros last _. eapply produces_bind; [apply produces_now |].
  intros endTime _. eapply produces_bind; [apply produces_GetStartDate |].
  intros start _. cbv zeta.
  destruct (After _ endTime).
  - eapply produces_bind; [apply produces_emit; discriminate |].
    intros _ _. now apply produces_ret.
  - eapply produces_bind; [apply produces_emit; discriminate |].
    intros _ _. eapply produces_bind with (Q := fun _ => True).
    { intros w tr. split; [exact I |]. unfold LoadDividends.
      destruct (apiLoadDividends env figi _ endTime w) as [r w'].
      exists []. cbn. now rewrite app_nil_r. }
    intros [err | dividends] _.
    + now apply produces_ret.
    + eapply produces_weaken; [apply storeDividends_produces | easy].
Qed.
End DividendFacts.

(** C10.  [SaveDividend] returns a non-nil error for every record and
    every answer of the database, a successful upsert included: the
    error is built from the (possibly nil) database error.  Hence storing
    a non-empty batch sends the upsert of the first record only and
    returns an error, and no run of [ProcessInstrumentDividends] ever
    logs that the dividends were saved. *)
Theorem SaveDividend_always_fails {World : Type} (env : Env World)
        (cfg : Config) (figi : string)
        (dividend : Dividend) (rest : list Dividend)
        (w : World) (tr : list Event) :
  let answer := fst (dbExec env (UpsertDividend dividend) w) in
  fst (SaveDividend env dividend (w, tr))
  = Some (Errorf "ошибка сохранения дивиденда" answer) /\
  (answer = None ->
   fst (SaveDividend env dividend (w, tr))
   = Some (ErrorString "ошибка сохранения дивиденда: %!w(<nil>)")) /\
  fst (storeDividends env (dividend :: rest) (w, tr))
  = Some (Errorf "ошибка сохранения дивиденда"
            (Some (Errorf "ошибка сохранения дивиденда" answer))) /\
  dbCalls (snd (snd (storeDividends env (dividend :: rest) (w, tr))))
  = dbCalls tr ++ [(UpsertDividend dividend, answer)] /\
  (logged "Дивиденды сохранены"
          (snd (snd (ProcessInstrumentDividends env cfg figi (w, tr))))
   <-> logged "Дивиденды сохранены" tr).
Proof.
  intros answer. subst answer. rewrite SaveDividend_result. cbn [fst].
  split; [reflexivity |]. split; [intros H; now rewrite H |].
  rewrite storeDividends_first. cbn [fst snd].
  split; [reflexivity |]. split; [now rewrite dbCalls_app |].
  destruct (ProcessInstrumentDividends_produces env cfg figi w tr)
    as [_ (evs & -> & Hevs)].
  unfold logged. rewrite in_app_iff. split; [| tauto].
  intros [H | H]; [exact H |].
  rewrite List.Forall_forall in Hevs. now apply Hevs in H.
Qed.

Example SaveDividend_on_healthy_database :
  fst (SaveDividend simEnv (mkDividend "BBG004730N88" 1700000000 None 0 "rub" None)
         (emptyWorld 1700000000, []))
  = Some (ErrorString "ошибка сохранения дивиденда: %!w(<nil>)").
Proof. vm_compute. reflexivity. Qed.

(** ** The chunk loop *)

Lemma fetchedChunks_notFetch (evs : list Event) :
  Forall notFetch evs -> fetchedChunks evs = [].
Proof.
  induction 1 as [| e evs He _ IH]; [reflexivity |].
  destruct e; try contradiction; exact IH.
Qed.

Lemma wrap64_id (z : Z) : inInt64 z -> wrap64 z = z.
Proof.
  unfold inInt64, minInt64, maxInt64, wrap64. intros H.
  rewrite Z.mod_small; lia.
Qed.

Lemma timeUnit_bounds (intervalType : string) :
  0 < fst (GetTimeUnitAndConfigKey intervalType) <= 720 * Hour.
Proof.
  unfold GetTimeUnitAndConfigKey.
  repeat match goal with
         | |- context [if ?b then _ else _] => destruct b
         end; vm_compute; split; congruence.
Qed.

Lemma bind_run {World A B : Type} (c : M World A) (k : A -> M World B)
      (st : World * list Event) :
  bind c k st = k (fst (c st)) (snd (c st)).
Proof. unfold bind. now destruct (c st). Qed.

Lemma logf_run {World : Type} (msg : string) (w : World) (tr : list Event) :
  logf msg (w, tr) = (tt, (w, tr ++ [EvLog msg])).
Proof. reflexivity. Qed.

Lemma emit_run {World : Type} (e : Event) (w : World) (tr : list Event) :
  emit e (w, tr) = (tt, (w, tr ++ [e])).
Proof. reflexivity. Qed.

Section ChunkFacts.
Context {World : Type} (env : Env World).

Lemma LoadCandleChunk_run (figi : string) (a b : Time) (itv : string)
      (w : World) (tr : list Event) :
  LoadCandleChunk env figi a b itv (w, tr)
  = (match fst (apiGetHistoricCandles env figi a b itv w) with
     | inl e => inl (Errorf "ошибка загрузки свечей" (Some e))
     | inr candles => inr candles
     end,
     (snd (apiGetHistoricCandles env figi a b itv w),
      tr ++ [EvFetch figi a b itv])).
Proof.
  unfold LoadCandleChunk. now destruct (apiGetHistoricCandles env figi a b itv w).
Qed.

Lemma saveCandle_produces (figi intervalType : string) (candle : HistoricCandle) :
  produces (saveCandle env figi intervalType candle) notFetch (fun _ => True).
Proof.
  unfold saveCandle.
  eapply produces_bind with (Q := fun _ => True); [now apply produces_exec |].
  intros [err |] _; [| now apply produces_ret].
  destruct (errorsAsPgError err) as [[code message] |]; [| now apply produces_ret].
  destruct (classifyPartitionError code message); [| now apply produces_ret].
  eapply produces_bind; [now apply produces_emit |]. intros _ _.
  eapply produces_bind; [now apply produces_emit |]. intros _ _.
  eapply produces_bind with (Q := fun _ => True).
  { unfold CreatePartition.
    eapply produces_bind with (Q := fun _ => True); [now apply produces_exec |].
    intros [e |] _; now apply produces_ret. }
  intros [ce |] _; [now apply produces_ret |].
  eapply produces_bind with (Q := fun _ => True); [now apply produces_exec |].
  intros [re |] _; now apply produces_ret.
Qed.

Lemma saveCandlesLoop_produces (figi intervalType : string)
      (candles : list HistoricCandle) :
  produces (saveCandlesLoop env figi intervalType candles) notFetch
           (fun _ => True).
Proof.
  induction candles as [| c rest IH]; cbn [saveCandlesLoop].
  - now apply produces_ret.
  - eapply produces_bind; [apply saveCandle_produces |].
    intros [e |] _; [now apply produces_ret | exact IH].
Qed.

Lemma saveChunk_produces (figi intervalType : string)
      (candles : list HistoricCandle) :
  produces (saveChunk env figi intervalType candles) notFetch (fun _ => True).
Proof.
  unfold saveChunk. destruct (0 <? length candles)%nat; [| now apply produces_ret].
  eapply produces_bind with (Q := fun _ => True).
  { unfold SaveCandles. destruct candles; [now apply produces_ret |].
    eapply produces_bind; [now apply produces_emit |]. intros _ _.
    apply saveCandlesLoop_produces. }
  intros [e |] _; [now apply produces_ret |].
  eapply produces_bind; [now apply produces_emit |]. intros _ _.
  now apply produces_ret.
Qed.

Variables (cfg : Config) (figi intervalType : string) (size : Duration) (to : Time).

Let loop (fuel : nat) (from : Time) (st : World * list Event) :=
  chunkLoop env fuel cfg figi intervalType size to from st.

(** One iteration that enters the loop body: the chunk requested, and
    what the iteration leads to. *)
Lemma chunkLoop_step (fuel : nat) (from : Time) (w : World) (tr : list Event) :
  from < to ->
  let currentTo := if to <? from + size then to else from + size in
  (exists e st', loop (S fuel) from (w, tr) = (Some (Some e), st') /\
                 fetchedChunks (snd st') = fetchedChunks tr ++ [(from, currentTo)])
  \/
  (exists w' tr', loop (S fuel) from (w, tr) = loop fuel currentTo (w', tr') /\
                  fetchedChunks tr' = fetchedChunks tr ++ [(from, currentTo)]).
Proof.
  intros Hlt currentTo. unfold loop. cbn [chunkLoop].
  unfold Before, After, Add. destruct (Z.ltb_spec from to) as [_ | ?]; [| lia].
  fold currentTo.
  rewrite bind_run, logf_run. cbn [fst snd].
  rewrite bind_run, LoadCandleChunk_run. cbn [fst snd].
  destruct (apiGetHistoricCandles env figi from currentTo intervalType w)
    as [[err | candles] w1]; cbn [fst snd].
  - left. eexists _, _. split; [reflexivity |]. cbn [snd].
    rewrite !fetchedChunks_app. cbn. now rewrite app_nil_r.
  - rewrite bind_run.
    destruct (saveChunk_produces figi intervalType candles w1
                ((tr ++ [EvLog "Загружаем чанк"])
                   ++ [EvFetch figi from currentTo intervalType]))
      as [_ (evs & Htr & Hevs)].
    destruct (saveChunk env figi intervalType candles _) as [saved [w2 tr2]].
    cbn [fst snd] in *. subst tr2.
    destruct saved as [e |].
    + left. eexists _, _. split; [reflexivity |]. cbn [snd].
      rewrite !fetchedChunks_app, (fetchedChunks_notFetch evs Hevs). cbn.
      now rewrite !app_nil_r.
    + right. rewrite bind_run, emit_run. cbn [fst snd].
      eexists _, _. split; [reflexivity |].
      rewrite !fetchedChunks_app, (fetchedChunks_notFetch evs Hevs). cbn.
      now rewrite !app_nil_r.
Qed.

Lemma chunkLoop_done (fuel : nat) (from : Time) (st : World * list Event) :
  to <= from -> loop (S fuel) from st = (Some None, st).
Proof.
  intros Hge. unfold loop. cbn [chunkLoop]. unfold Before.
  destruct (Z.ltb_spec from to); [lia | reflexivity].
Qed.

Lemma chunkLoop_spec :
  0 < size ->
  forall fuel from w tr,
  exists chunks,
    fetchedChunks (snd (snd (loop fuel from (w, tr)))) = fetchedChunks tr ++ chunks /\
    match fst (loop fuel from (w, tr)) with
    | Some None =>
        if from <? to then chained from to chunks /\ sized size chunks
        else chunks = []
    | Some (Some _) => True
    | None => Z.of_nat fuel * size < Z.max 0 (to - from) + size
    end.
Proof.
  intros Hsize. induction fuel as [| fuel IH]; intros from w tr.
  - exists []. unfold loop. cbn. rewrite app_nil_r. split; [reflexivity | lia].
  - destruct (Z.ltb_spec from to) as [Hlt | Hge].
    2:{ rewrite chunkLoop_done by exact Hge. exists []. cbn.
        rewrite app_nil_r. split; [reflexivity |].
        destruct (Z.ltb_spec from to); [lia | reflexivity]. }
    destruct (chunkLoop_step fuel from w tr Hlt)
      as [(e & st' & -> & Hf) | (w' & tr' & -> & Hf)]; cbv zeta in Hf.
    + eexists. split; [exact Hf | exact I].
    + set (currentTo := if to <? from + size then to else from + size) in *.
      destruct (IH currentTo w' tr') as (chunks & Hc & Hres).
      exists ((from, currentTo) :: chunks). split.
      { rewrite Hc, Hf, <- app_assoc. reflexivity. }
      assert (from < currentTo <= to) as Hcur
          by (subst currentTo; destruct (Z.ltb_spec to (from + size)); lia).
      destruct (fst (loop fuel currentTo (w', tr'))) as [[e |] |].
      * exact I.
      * destruct (Z.ltb_spec currentTo to) as [Hmore | Hlast].
        -- destruct Hres as [Hch Hsz]. cbn [chained sized].
           assert (currentTo = from + size) as Hfull
               by (subst currentTo; destruct (Z.ltb_spec to (from + size)); lia).
           repeat split; try lia; try assumption.
           destruct chunks as [| [a b] rest]; [cbn in Hch; lia | lia].
        -- subst chunks. cbn [chained sized].
           assert (currentTo = to) by lia.
           repeat split; try lia.
           subst currentTo. destruct (Z.ltb_spec to (from + size)); lia.
      * rewrite Nat2Z.inj_succ.
        destruct (Z.eq_dec (Z.of_nat fuel) 0) as [E | N].
        -- rewrite E in *. lia.
        -- assert (1 <= Z.of_nat fuel) by lia.
           subst currentTo. destruct (Z.ltb_spec to (from + size)); nia.
Qed.

(** With a chunk size that is not positive the loop never comes to its
    end: every iteration finds [currentFrom] before [to] again. *)
Lemma chunkLoop_never_ends :
  size <= 0 ->
  forall fuel from st, from < to -> fst (loop fuel from st) <> Some None.
Proof.
  intros Hsize. induction fuel as [| fuel IH]; intros from [w tr] Hlt.
  - discriminate.
  - destruct (chunkLoop_step fuel from w tr Hlt)
      as [(e & st' & -> & _) | (w' & tr' & -> & _)].
    + discriminate.
    + apply IH. destruct (Z.ltb_spec to (from + size)); lia.
Qed.
End ChunkFacts.

Lemma chunkCount_enough (size : Duration) (from to : Time) :
  0 < size ->
  Z.max 0 (to - from) + size <= Z.of_nat (S (chunkCount size from to)) * size.
Proof.
  intros Hsize. unfold chunkCount. rewrite Nat2Z.inj_succ.
  set (q := (to - from + size - 1) / size).
  assert (to - from + size - 1 < (q + 1) * size) as Hq.
  { subst q. pose proof (Z.div_mod (to - from + size - 1) size ltac:(lia)).
    pose proof (Z.mod_pos_bound (to - from + size - 1) size Hsize). nia. }
  destruct (Z.le_gt_cases 0 q) as [Hpos | Hneg].
  - rewrite Z2Nat.id by exact Hpos. nia.
  - replace (Z.to_nat q) with O by lia. nia.
Qed.

(** C1, as stated, fails for a row limit whose chunk duration does not fit
    the 64-bit nanosecond count of [time.Duration].  With 4000 rows of
    monthly candles the product wraps to a negative duration: the first
    chunk requested ends before it starts, [currentFrom] moves backwards
    and the loop never reaches [to]. *)
Lemma chunkLoop_overflow_never_covers :
  let cfg := configWithLimit "1month" 4000 in
  let from := Date 2024 1 1 0 0 0 0 in
  let to := Date 2024 6 1 0 0 0 0 in
  let w := emptyWorld to in
  0 < GetIntervalLimit cfg (snd (GetTimeUnitAndConfigKey CandleIntervalMonth)) /\
  from < to /\
  chunkSizeOf cfg CandleIntervalMonth = -8078744073709551616 /\
  fetchedChunks
    (snd (snd (chunkLoop simEnv 2 cfg "BBG000B9XRY4" CandleIntervalMonth
                         (chunkSizeOf cfg CandleIntervalMonth) to from (w, []))))
  = [ (from, from - 8078744073709551616);
      (from - 8078744073709551616, from - 2 * 8078744073709551616) ] /\
  ~ chunksCover simEnv cfg "BBG000B9XRY4" CandleIntervalMonth from to w.
Proof.
  intros cfg from to w.
  assert (0 < GetIntervalLimit cfg (snd (GetTimeUnitAndConfigKey CandleIntervalMonth)))
    as Hlimit by (vm_compute; reflexivity).
  assert (from < to) as Hlt by (vm_compute; reflexivity).
  assert (chunkSizeOf cfg CandleIntervalMonth = -8078744073709551616) as Hsize
      by (vm_compute; reflexivity).
  split; [exact Hlimit |]. split; [exact Hlt |]. split; [exact Hsize |].
  split; [vm_compute; reflexivity |].
  intros Hclaim. destruct (Hclaim Hlimit Hlt) as (fuel & Hend & _).
  revert Hend. apply chunkLoop_never_ends; [rewrite Hsize; lia | exact Hlt].
Qed.

(** C1, amended.  For every resolution, every [from] and [to] and every
    positive row limit whose chunk duration [unit * limit] fits a
    [time.Duration], the chunk size is that product and the loop comes to
    an end within one iteration per chunk plus one.  If [from >= to]
    nothing is requested.  If [from < to] and no request or save fails,
    the chunks requested follow one another from [from] to [to] without
    gap or overrun; each has the chunk size except the last, which is
    clamped to [to]. *)
Theorem chunkLoop_covers {World : Type} (env : Env World) (cfg : Config)
        (figi intervalType : string) (from to : Time)
        (w : World) (tr : list Event) :
  let timeUnit := fst (GetTimeUnitAndConfigKey intervalType) in
  let limit := GetIntervalLimit cfg (snd (GetTimeUnitAndConfigKey intervalType)) in
  let size := chunkSizeOf cfg intervalType in
  let run := chunkLoop env (S (chunkCount size from to)) cfg figi intervalType
                       size to from (w, tr) in
  0 < limit ->
  limit * timeUnit <= maxInt64 ->
  size = limit * timeUnit /\
  fst run <> None /\
  (to <= from -> run = (Some None, (w, tr))) /\
  (from < to -> fst run = Some None ->
   exists chunks,
     fetchedChunks (snd (snd run)) = fetchedChunks tr ++ chunks /\
     chained from to chunks /\ sized size chunks).
Proof.
  intros timeUnit limit size run Hlimit Hfit.
  pose proof (timeUnit_bounds intervalType) as Hunit. fold timeUnit in Hunit.
  assert (size = limit * timeUnit) as Hsize.
  { subst size. unfold chunkSizeOf. subst limit timeUnit.
    destruct (GetTimeUnitAndConfigKey intervalType) as [u k]. cbn [fst snd] in *.
    apply wrap64_id. unfold inInt64, minInt64. split; [| exact Hfit]. nia. }
  assert (0 < size) as Hpos by (rewrite Hsize; nia).
  destruct (chunkLoop_spec env cfg figi intervalType size to Hpos
              (S (chunkCount size from to)) from w tr) as (chunks & Hf & Hres).
  fold run in Hf, Hres.
  split; [exact Hsize |]. split; [| split].
  - intros Hnone. rewrite Hnone in Hres.
    pose proof (chunkCount_enough size from to Hpos). lia.
  - intros Hge. subst run. now apply chunkLoop_done.
  - intros Hlt Hend. rewrite Hend in Hres.
    destruct (Z.ltb_spec from to); [| lia].
    exists chunks. tauto.
Qed.

Example chunkLoop_single_daily_chunk :
  fetchedChunks
    (snd (snd (chunkLoop simEnv 2 dailyConfig "BBG000B9XRY4" CandleIntervalDay
                 (chunkSizeOf dailyConfig CandleIntervalDay)
                 (Date 2024 1 10 0 0 0 0) (Date 2024 1 1 0 0 0 0)
                 (emptyWorld (Date 2024 1 10 0 0 0 0), []))))
  = [(Date 2024 1 1 0 0 0 0, Date 2024 1 10 0 0 0 0)].
Proof. vm_compute. reflexivity. Qed.

Lemma chunkLoop_covers_witness :
  let from := Date 2024 1 1 0 0 0 0 in
  let to := Date 2024 3 15 0 0 0 0 in
  let size := chunkSizeOf dailyConfig CandleIntervalDay in
  0 < GetIntervalLimit dailyConfig (snd (GetTimeUnitAndConfigKey CandleIntervalDay)) /\
  GetIntervalLimit dailyConfig (snd (GetTimeUnitAndConfigKey CandleIntervalDay))
  * fst (GetTimeUnitAndConfigKey CandleIntervalDay) <= maxInt64 /\
  exists chunks,
    fetchedChunks
      (snd (snd (chunkLoop simEnv (S (chunkCount size from to)) dailyConfig
                   "BBG000B9XRY4" CandleIntervalDay size to from
                   (emptyWorld to, []))))
    = [] ++ chunks /\
    chained from to chunks /\ sized size chunks.
Proof.
  intros from to size.
  assert (0 < GetIntervalLimit dailyConfig
                (snd (GetTimeUnitAndConfigKey CandleIntervalDay))) as Hlimit
      by (vm_compute; reflexivity).
  assert (GetIntervalLimit dailyConfig (snd (GetTimeUnitAndConfigKey CandleIntervalDay))
          * fst (GetTimeUnitAndConfigKey CandleIntervalDay) <= maxInt64) as Hfit
      by (vm_compute; discriminate).
  split; [exact Hlimit |]. split; [exact Hfit |].
  apply (proj2 (proj2 (proj2
           (chunkLoop_covers simEnv dailyConfig "BBG000B9XRY4" CandleIntervalDay
                             from to (emptyWorld to) [] Hlimit Hfit)))).
  - vm_compute. reflexivity.
  - vm_compute. reflexivity.
Defined.

(** ** The start of the loading range *)

Section RangeFacts.
Context {World : Type} (env : Env World).

Lemma now_run (w : World) (tr : list Event) :
  now env (w, tr) = (fst (timeNow env w), (snd (timeNow env w), tr)).
Proof. unfold now. now destruct (timeNow env w). Qed.

Lemma GetStartDate_trace (cfg : Config) (w : World) (tr : list Event) :
  snd (snd (GetStartDate env cfg (w, tr))) = tr.
Proof.
  unfold GetStartDate.
  destruct (String.eqb (StartDate cfg) "");
    [| destruct (parseDate (bytes (StartDate cfg)))];
    try reflexivity; now rewrite bind_run, now_run.
Qed.

Lemma GetStartDate_configured (cfg : Config) (d : Time) (st : World * list Event) :
  StartDate cfg <> ""%string ->
  parseDate (bytes (StartDate cfg)) = Some d ->
  GetStartDate env cfg st = (d, st).
Proof.
  intros Hne Hd. unfold GetStartDate.
  destruct (String.eqb_spec (StartDate cfg) ""); [contradiction |].
  now rewrite Hd.
Qed.

Lemma ShouldUpdateData_trace (last : Time) (itv : string)
      (w : World) (tr : list Event) :
  snd (snd (ShouldUpdateData env last itv (w, tr))) = tr.
Proof. unfold ShouldUpdateData. now rewrite bind_run, now_run. Qed.

Lemma GetLastLoadedTime_run (figi itv : string) (w : World) (tr : list Event) :
  GetLastLoadedTime env figi itv (w, tr)
  = (match fst (dbQueryTime env (MaxCandleTime figi itv) w) with
     | ScanError e =>
         (zeroTime,
          Some (Errorf "ошибка выполнения запроса к таблице candles" (Some e)))
     | ScanNull => (zeroTime, None)
     | ScanValue t => (t, None)
     end,
     (snd (dbQueryTime env (MaxCandleTime figi itv) w), tr)).
Proof.
  unfold GetLastLoadedTime, bind, queryTime.
  destruct (dbQueryTime env (MaxCandleTime figi itv) w) as [[e | | t] w1];
    reflexivity.
Qed.

Variables (cfg : Config) (figi intervalType : string).

(** Requests only add to the chunks fetched so far. *)
Lemma chunkLoop_extends (size : Duration) (to : Time) :
  forall fuel from w tr,
  exists chunks,
    fetchedChunks
      (snd (snd (chunkLoop env fuel cfg figi intervalType size to from (w, tr))))
    = fetchedChunks tr ++ chunks.
Proof.
  induction fuel as [| fuel IH]; intros from w tr.
  - exists []. cbn. now rewrite app_nil_r.
  - destruct (Z.ltb_spec from to) as [Hlt | Hge].
    + destruct (chunkLoop_step env cfg figi intervalType size to fuel from w tr Hlt)
        as [(e & st' & -> & Hf) | (w' & tr' & -> & Hf)]; cbv zeta in Hf.
      * eexists. exact Hf.
      * destruct (IH (if to <? from + size then to else from + size) w' tr')
          as (chunks & Hc).
        eexists. rewrite Hc, Hf, <- app_assoc. reflexivity.
    + rewrite chunkLoop_done by exact Hge. exists []. cbn. now rewrite app_nil_r.
Qed.

(** A loop that starts before [to] requests the chunk at its start
    first. *)
Lemma chunkLoop_first (size : Duration) (to from : Time) (fuel : nat)
      (w : World) (tr : list Event) :
  from < to ->
  exists e rest,
    fetchedChunks
      (snd (snd (chunkLoop env (S fuel) cfg figi intervalType size to from (w, tr))))
    = fetchedChunks tr ++ (from, e) :: rest.
Proof.
  intros Hlt.
  destruct (chunkLoop_step env cfg figi intervalType size to fuel from w tr Hlt)
    as [(e & st' & -> & Hf) | (w' & tr' & -> & Hf)]; cbv zeta in Hf.
  - eexists _, []. exact Hf.
  - destruct (chunkLoop_extends size to fuel
                (if to <? from + size then to else from + size) w' tr')
      as (chunks & Hc).
    eexists _, chunks. rewrite Hc, Hf, <- app_assoc. reflexivity.
Qed.

(** The run of [LoadCandleData] once the freshness check lets it go
    on: the range starts at [from], ends at the clock reading taken
    next, and the loop starts at [from]. *)
Lemma loading_fetches (fuel : nat) (doneMsg : string) (from : Time)
      (w : World) (tr : list Event) :
  let to := fst (timeNow env w) in
  let run :=
    (let! to := now env in
     do! logf "Загружаем данные с разбивкой по лимитам API" in
     let! r := chunkLoop env (S fuel) cfg figi intervalType
                         (chunkSizeOf cfg intervalType) to from in
     match r with
     | Some None =>
         do! logf doneMsg in ret (Some None)
     | other => ret other
     end) (w, tr) in
  (from < to ->
   exists e rest,
     fetchedChunks (snd (snd run)) = fetchedChunks tr ++ (from, e) :: rest) /\
  (to <= from -> fetchedChunks (snd (snd run)) = fetchedChunks tr).
Proof.
  intros to run. subst run.
  rewrite bind_run, now_run. cbn [fst snd]. fold to.
  rewrite bind_run, logf_run. cbn [fst snd]. rewrite bind_run.
  split.
  - intros Hlt.
    destruct (chunkLoop_first (chunkSizeOf cfg intervalType) to from fuel
                (snd (timeNow env w))
                (tr ++ [EvLog "Загружаем данные с разбивкой по лимитам API"]) Hlt)
      as (e & rest & Hf).
    exists e, rest.
    destruct (chunkLoop env (S fuel) cfg figi intervalType _ to from _)
      as [r [w' tr']]. cbn [fst snd] in *.
    rewrite fetchedChunks_app in Hf. cbn in Hf. rewrite app_nil_r in Hf.
    destruct r as [[err |] |]; unfold ret; cbn [snd]; try exact Hf.
    rewrite bind_run, logf_run. unfold ret. cbn [fst snd].
    rewrite fetchedChunks_app, Hf. cbn. now rewrite app_nil_r.
  - intros Hge. rewrite chunkLoop_done by exact Hge. cbn [fst snd].
    rewrite bind_run, logf_run. unfold ret. cbn [fst snd].
    rewrite !fetchedChunks_app. cbn. now rewrite !app_nil_r.
Qed.
End RangeFacts.

Lemma ret_run {World A : Type} (a : A) (st : World * list Event) :
  ret a st = (a, st).
Proof. reflexivity. Qed.

Section CycleStart.
Context {World : Type} (env : Env World).
Variables (cfg : Config) (figi intervalType : string).

Lemma LoadCandleData_absent (fuel : nat) (last : Time)
      (w : World) (tr : list Event) :
  IsZero last = true ->
  let start := fst (GetStartDate env cfg (w, tr)) in
  let to := fst (timeNow env (fst (snd (GetStartDate env cfg (w, tr))))) in
  let fetched :=
    fetchedChunks
      (snd (snd (LoadCandleData env (S fuel) cfg figi last intervalType (w, tr))))
  in
  (start < to -> exists e rest, fetched = fetchedChunks tr ++ (start, e) :: rest) /\
  (to <= start -> fetched = fetchedChunks tr).
Proof.
  intros Hzero start to fetched. subst fetched.
  unfold LoadCandleData. rewrite Hzero. cbn [negb].
  rewrite bind_run, ret_run. cbn [fst snd]. cbv zeta.
  rewrite bind_run. unfold loadingFrom. rewrite Hzero.
  pose proof (GetStartDate_trace env cfg w tr) as Htr.
  destruct (GetStartDate env cfg (w, tr)) as [s [w2 tr2]].
  cbn [fst snd] in *. subst tr2 start to.
  apply (loading_fetches env cfg figi intervalType fuel _ s w2 tr).
Qed.

Lemma LoadCandleData_present (fuel : nat) (last : Time)
      (w : World) (tr : list Event) :
  IsZero last = false ->
  let check := ShouldUpdateData env last intervalType (w, tr) in
  let to := fst (timeNow env (fst (snd check))) in
  let run := LoadCandleData env (S fuel) cfg figi last intervalType (w, tr) in
  let fetched := fetchedChunks (snd (snd run)) in
  (fst check = false -> fetched = fetchedChunks tr /\ fst run = Some None) /\
  (fst check = true ->
   (last < to -> exists e rest, fetched = fetchedChunks tr ++ (last, e) :: rest) /\
   (to <= last -> fetched = fetchedChunks tr)).
Proof.
  intros Hzero check to run fetched. subst fetched run.
  unfold LoadCandleData. rewrite Hzero. cbn [negb].
  rewrite bind_run, bind_run.
  pose proof (ShouldUpdateData_trace env last intervalType w tr) as Htr.
  fold check in Htr |- *.
  destruct check as [upd [w1 tr1]]. cbn [fst snd] in *. subst tr1 to.
  rewrite ret_run. cbn [fst snd].
  split.
  - intros ->. cbn [negb]. rewrite bind_run, logf_run, ret_run. cbn [fst snd].
    rewrite fetchedChunks_app. cbn. now rewrite app_nil_r.
  - intros ->. cbn [negb]. cbv zeta. rewrite bind_run.
    unfold loadingFrom. rewrite Hzero, ret_run. cbn [fst snd].
    apply (loading_fetches env cfg figi intervalType fuel _ last w1 tr).
Qed.
End CycleStart.

(** C9.  A cycle of [ProcessInstrument] first asks the candle store for
    the last persisted timestamp of the pair.  When there is none the
    store reports the zero time without an error, and the loading range
    starts at the history start date of the configuration: if that date
    is before the current time, the first chunk requested starts exactly
    there.  When there is one (a non-zero time [t]) and the data are
    stale, the range starts at [t]: the first chunk requested starts
    exactly at [t]. *)
Theorem ProcessInstrument_range_start {World : Type} (env : Env World)
        (fuel : nat) (cfg : Config) (figi intervalType : string)
        (w : World) (tr : list Event) :
  let scan := fst (dbQueryTime env (MaxCandleTime figi intervalType) w) in
  let w1 := snd (dbQueryTime env (MaxCandleTime figi intervalType) w) in
  let run := ProcessInstrument env (S fuel) cfg figi intervalType (w, tr) in
  let fetched := fetchedChunks (snd (snd run)) in
  (scan = ScanNull ->
   GetLastLoadedTime env figi intervalType (w, tr) = ((zeroTime, None), (w1, tr)) /\
   IsZero zeroTime = true /\
   let start := fst (GetStartDate env cfg (w1, tr)) in
   let to := fst (timeNow env (fst (snd (GetStartDate env cfg (w1, tr))))) in
   (start < to -> exists e rest, fetched = fetchedChunks tr ++ (start, e) :: rest) /\
   (to <= start -> fetched = fetchedChunks tr) /\
   (forall d, StartDate cfg <> ""%string ->
              parseDate (bytes (StartDate cfg)) = Some d -> start = d)) /\
  (forall t, scan = ScanValue t -> IsZero t = false ->
   GetLastLoadedTime env figi intervalType (w, tr) = ((t, None), (w1, tr)) /\
   let check := ShouldUpdateData env t intervalType (w1, tr) in
   let to := fst (timeNow env (fst (snd check))) in
   (fst check = false -> fetched = fetchedChunks tr /\ fst run = Some None) /\
   (fst check = true ->
    (t < to -> exists e rest, fetched = fetchedChunks tr ++ (t, e) :: rest) /\
    (to <= t -> fetched = fetchedChunks tr))).
Proof.
  intros scan w1 run fetched. split.
  - intros Hscan.
    assert (GetLastLoadedTime env figi intervalType (w, tr)
            = ((zeroTime, None), (w1, tr))) as Hlast.
    { rewrite GetLastLoadedTime_run. fold scan w1. now rewrite Hscan. }
    split; [exact Hlast |]. split; [reflexivity |].
    assert (run = LoadCandleData env (S fuel) cfg figi zeroTime intervalType (w1, tr))
      as Hrun.
    { subst run. unfold ProcessInstrument. rewrite bind_run, Hlast. reflexivity. }
    subst fetched. rewrite Hrun. cbv zeta.
    pose proof (LoadCandleData_absent env cfg figi intervalType fuel zeroTime
                  w1 tr eq_refl) as [Hfetch Hnone].
    split; [exact Hfetch |]. split; [exact Hnone |].
    intros d Hne Hd. now rewrite (GetStartDate_configured env cfg d).
  - intros t Hscan Hzero.
    assert (GetLastLoadedTime env figi intervalType (w, tr)
            = ((t, None), (w1, tr))) as Hlast.
    { rewrite GetLastLoadedTime_run. fold scan w1. now rewrite Hscan. }
    split; [exact Hlast |].
    assert (run = LoadCandleData env (S fuel) cfg figi t intervalType (w1, tr))
      as Hrun.
    { subst run. unfold ProcessInstrument. rewrite bind_run, Hlast. reflexivity. }
    subst fetched. rewrite Hrun.
    apply (LoadCandleData_present env cfg figi intervalType fuel t w1 tr Hzero).
Qed.

Example ProcessInstrument_first_backfill :
  let run := ProcessInstrument simEnv 3 dailyConfig "BBG000B9XRY4"
                               CandleIntervalDay (januaryWorld, []) in
  fst run = Some None /\
  fetchedChunks (snd (snd run))
  = [(Date 2024 1 1 0 0 0 0, Date 2024 1 10 0 0 0 0)] /\
  map rTime (candles (pg (fst (snd run))))
  = [Date 2024 1 3 7 0 0 0; Date 2024 1 9 7 0 0 0] /\
  map pName (partitions (pg (fst (snd run)))) = [bytes "candles_2024_01"] /\
  pgQueryTime (MaxCandleTime "BBG000B9XRY4" CandleIntervalDay) (pg (fst (snd run)))
  = ScanValue (Date 2024 1 9 7 0 0 0).
Proof. vm_compute. repeat split; reflexivity. Qed.

Lemma ProcessInstrument_range_start_witness :
  let run := ProcessInstrument simEnv 3 dailyConfig "BBG000B9XRY4"
                               CandleIntervalDay (januaryWorld, []) in
  exists e rest,
    fetchedChunks (snd (snd run)) = [] ++ (Date 2024 1 1 0 0 0 0, e) :: rest.
Proof.
  intros run.
  destruct (ProcessInstrument_range_start simEnv 2 dailyConfig "BBG000B9XRY4"
              CandleIntervalDay januaryWorld []) as [Habsent _].
  destruct (Habsent eq_refl) as (_ & _ & Hfetch & _ & _).
  exact (Hfetch ltac:(vm_compute; reflexivity)).
Defined.

(* ------------------------------------------------------------------ *)
(** ** Further properties of the packages                             *)
(* ------------------------------------------------------------------ *)
(** ** The interval tables *)

Lemma intervalMap_lookup (s i : string) :
  intervalMap !! s = Some i ->
  In (s, i) [ (CandleIntervalText1Min, CandleInterval1Min);
              (CandleIntervalText2Min, CandleInterval2Min);
              (CandleIntervalText3Min, CandleInterval3Min);
              (CandleIntervalText5Min, CandleInterval5Min);
              (CandleIntervalText10Min, CandleInterval10Min);
              (CandleIntervalText15Min, CandleInterval15Min);
              (CandleIntervalText30Min, CandleInterval30Min);
              (CandleIntervalTextHour, CandleIntervalHour);
              (CandleIntervalText2Hour, CandleInterval2Hour);
              (CandleIntervalText4Hour, CandleInterval4Hour);
              (CandleIntervalTextDay, CandleIntervalDay);
              (CandleIntervalTextWeek, CandleIntervalWeek);
              (CandleIntervalTextMonth, CandleIntervalMonth) ].
Proof.
  unfold intervalMap. intros H.
  repeat (apply lookup_insert_Some in H as [[<- <-] | [_ H]];
          [simpl; tauto |]).
  rewrite lookup_empty in H. discriminate.
Qed.

Lemma candleIntervalToText_lookup (i s : string) :
  candleIntervalToText !! i = Some s ->
  In (s, i) [ (CandleIntervalText1Min, CandleInterval1Min);
              (CandleIntervalText2Min, CandleInterval2Min);
              (CandleIntervalText3Min, CandleInterval3Min);
              (CandleIntervalText5Min, CandleInterval5Min);
              (CandleIntervalText10Min, CandleInterval10Min);
              (CandleIntervalText15Min, CandleInterval15Min);
              (CandleIntervalText30Min, CandleInterval30Min);
              (CandleIntervalTextHour, CandleIntervalHour);
              (CandleIntervalText2Hour, CandleInterval2Hour);
              (CandleIntervalText4Hour, CandleInterval4Hour);
              (CandleIntervalTextDay, CandleIntervalDay);
              (CandleIntervalTextWeek, CandleIntervalWeek);
              (CandleIntervalTextMonth, CandleIntervalMonth) ].
Proof.
  unfold candleIntervalToText. intros H.
  repeat (apply lookup_insert_Some in H as [[<- <-] | [_ H]];
          [simpl; tauto |]).
  rewrite lookup_empty in H. discriminate.
Qed.

Lemma Interval2text_known (i : string) :
  Interval2text i <> EmptyString <-> In i candleIntervals.
Proof.
  unfold Interval2text. split.
  - destruct (candleIntervalToText !! i) as [s |] eqn:E; [| congruence].
    intros _. apply candleIntervalToText_lookup in E. simpl in E.
    repeat (destruct E as [E | E]; [injection E as <- <-; simpl; tauto |]).
    contradiction.
  - intros H. simpl in H.
    repeat (destruct H as [<- | H]; [vm_compute; discriminate |]).
    contradiction.
Qed.

(** X1.  [ParseInterval] and [Interval2text] are inverse to each other on
    the thirteen supported intervals: [ParseInterval s] succeeds with [i]
    exactly when [Interval2text i] is the non-empty text [s]; every other
    text is refused with the error that quotes it, and every other
    constant reads as the empty text. *)
Theorem ParseInterval_Interval2text (s i : string) :
  (ParseInterval s = (i, None) <-> Interval2text i = s /\ s <> EmptyString) /\
  (snd (ParseInterval s) <> None ->
   ParseInterval s
   = (EmptyString, Some (ErrorString ("неподдерживаемый интервал: " ++ s))) /\
   forall j, Interval2text j = s -> s = EmptyString) /\
  (Interval2text i <> EmptyString ->
   ParseInterval (Interval2text i) = (i, None)).
Proof.
  assert (forall s i, ParseInterval s = (i, None) ->
                      Interval2text i = s /\ s <> EmptyString) as Hfwd.
  { clear. intros s i. unfold ParseInterval.
    destruct (intervalMap !! s) as [i' |] eqn:E; [| discriminate].
    intros [= ->]. apply intervalMap_lookup in E. simpl in E.
    repeat (destruct E as [E | E];
            [injection E as <- <-; split; [vm_compute; reflexivity | discriminate] |]).
    contradiction. }
  assert (forall s i, Interval2text i = s -> s <> EmptyString ->
                      ParseInterval s = (i, None)) as Hbwd.
  { clear. intros s i. unfold Interval2text.
    destruct (candleIntervalToText !! i) as [s' |] eqn:E; [| congruence].
    intros <- _. apply candleIntervalToText_lookup in E. simpl in E.
    repeat (destruct E as [E | E];
            [injection E as <- <-; vm_compute; reflexivity |]).
    contradiction. }
  split; [| split].
  - split; [apply Hfwd | intros [H1 H2]; now apply Hbwd].
  - intros Herr. unfold ParseInterval in *.
    destruct (intervalMap !! s) as [i' |] eqn:E; [cbn in Herr; congruence |].
    split; [reflexivity |].
    intros j Hj. destruct (String.eqb_spec s EmptyString) as [-> | Hne];
      [reflexivity |].
    pose proof (Hbwd s j Hj Hne) as Hp. unfold ParseInterval in Hp.
    rewrite E in Hp. discriminate.
  - intros Hne. now apply Hbwd.
Qed.

Example ParseInterval_unknown :
  ParseInterval "7min"
  = (EmptyString, Some (ErrorString "неподдерживаемый интервал: 7min")).
Proof. vm_compute. reflexivity. Qed.

Lemma GetCandleInterval_known (s : string) :
  In s candleIntervals ->
  GetCandleIntervalString (GetCandleInterval s) = s.
Proof.
  intros H. simpl in H.
  repeat (destruct H as [<- | H]; [vm_compute; reflexivity |]).
  contradiction.
Qed.

Lemma GetCandleInterval_unknown (s : string) :
  ~ In s candleIntervals -> GetCandleInterval s = CANDLE_INTERVAL_1_MIN.
Proof.
  intros H. unfold GetCandleInterval.
  repeat match goal with
         | |- context [String.eqb s ?c] =>
             destruct (String.eqb_spec s c) as [-> | _];
             [try reflexivity; exfalso; apply H; simpl; tauto |]
         end.
  reflexivity.
Qed.

(** X2.  The two conversions between interval constants and the protobuf
    enumeration are inverse to each other on the thirteen supported
    intervals; every other constant (the empty one included) and every
    other enumeration value is read as the one-minute interval, so that a
    round trip through either function changes exactly the unsupported
    values. *)
Theorem GetCandleInterval_roundtrip (s : string) (e : CandleInterval) :
  (In s candleIntervals -> GetCandleIntervalString (GetCandleInterval s) = s) /\
  (~ In s candleIntervals ->
   GetCandleInterval s = CANDLE_INTERVAL_1_MIN /\
   GetCandleIntervalString (GetCandleInterval s) = CandleInterval1Min) /\
  In (GetCandleIntervalString e) candleIntervals /\
  GetCandleInterval (GetCandleIntervalString e)
  = match e with
    | CANDLE_INTERVAL_other _ => CANDLE_INTERVAL_1_MIN
    | _ => e
    end /\
  (GetCandleIntervalString (GetCandleInterval s) = s
   <-> Interval2text s <> EmptyString).
Proof.
  split; [apply GetCandleInterval_known |].
  split.
  { intros H. rewrite (GetCandleInterval_unknown s H). split; reflexivity. }
  split; [destruct e; simpl; tauto |].
  split; [destruct e; reflexivity |].
  rewrite Interval2text_known. split.
  - intros H. destruct (In_dec string_dec s candleIntervals) as [Hin | Hout];
      [exact Hin |].
    rewrite (GetCandleInterval_unknown s Hout) in H. rewrite <- H.
    simpl. tauto.
  - apply GetCandleInterval_known.
Qed.

(** ** Row limits and chunk sizes *)

Lemma configKey_cases (intervalType : string) :
  In (snd (GetTimeUnitAndConfigKey intervalType))
     [CandleIntervalText1Min; CandleIntervalTextHour; CandleIntervalTextDay;
      CandleIntervalTextWeek; CandleIntervalTextMonth].
Proof.
  unfold GetTimeUnitAndConfigKey.
  repeat match goal with
         | |- context [if ?b then _ else _] => destruct b
         end; simpl; tauto.
Qed.

Lemma chunkSizeOf_eq (c : Config) (intervalType : string) :
  chunkSizeOf c intervalType
  = wrap64 (GetIntervalLimit c (snd (GetTimeUnitAndConfigKey intervalType))
            * fst (GetTimeUnitAndConfigKey intervalType)).
Proof.
  unfold chunkSizeOf. now destruct (GetTimeUnitAndConfigKey intervalType).
Qed.

(** X3.  The row limit that sizes the chunks of [LoadCandleData] is read
    under the key [GetTimeUnitAndConfigKey] returns, which is the
    interval's own text only for the one-minute, daily, weekly and monthly
    intervals.  For every other interval an entry of [Loading.Limits]
    under the interval's own text ([Interval2text], the key the loaders
    log as [apiLimit]) has no effect on the chunk size, while an entry
    under the returned key fixes it. *)
Theorem chunk_limit_key (cfg : Config) (intervalType : string) (limit : Z) :
  let own := Interval2text intervalType in
  let used := snd (GetTimeUnitAndConfigKey intervalType) in
  let timeUnit := fst (GetTimeUnitAndConfigKey intervalType) in
  (own = used <->
   In intervalType [CandleInterval1Min; CandleIntervalDay;
                    CandleIntervalWeek; CandleIntervalMonth]) /\
  (own <> used ->
   chunkSizeOf (withLimit cfg own limit) intervalType
   = chunkSizeOf cfg intervalType) /\
  chunkSizeOf (withLimit cfg used limit) intervalType = wrap64 (limit * timeUnit) /\
  (Limits cfg !! used = None ->
   chunkSizeOf cfg intervalType = MinutesInDay * timeUnit).
Proof.
  intros own used timeUnit. split; [| split; [| split]].
  - subst own used. split.
    + intros H.
      destruct (In_dec string_dec intervalType candleIntervals) as [Hin | Hout].
      * simpl in Hin.
        repeat (destruct Hin as [<- | Hin];
                [first [ simpl; tauto | vm_compute in H; discriminate H ] |]).
        contradiction.
      * assert (Interval2text intervalType = EmptyString) as Hnone.
        { destruct (string_dec (Interval2text intervalType) EmptyString)
            as [He | Hne]; [exact He |].
          exfalso. apply Hout. now apply Interval2text_known. }
        rewrite Hnone in H.
        pose proof (configKey_cases intervalType) as Hk. rewrite <- H in Hk.
        simpl in Hk. repeat (destruct Hk as [Hk | Hk]; [discriminate Hk |]).
        contradiction.
    + intros H. simpl in H.
      repeat (destruct H as [<- | H]; [vm_compute; reflexivity |]).
      contradiction.
  - intros Hne. rewrite !chunkSizeOf_eq. fold used. unfold GetIntervalLimit.
    cbn [withLimit Limits]. now rewrite lookup_insert_ne.
  - rewrite chunkSizeOf_eq. fold used timeUnit. unfold GetIntervalLimit.
    cbn [withLimit Limits]. now rewrite lookup_insert_eq.
  - intros Hnone. rewrite chunkSizeOf_eq. fold used timeUnit.
    unfold GetIntervalLimit. rewrite Hnone.
    pose proof (timeUnit_bounds intervalType) as Hb. fold timeUnit in Hb.
    apply wrap64_id. unfold inInt64, minInt64, maxInt64, MinutesInDay,
      HoursInDay, MinutesInHour. unfold Hour, Minute, Second in Hb. lia.
Qed.

Lemma timeUnit_range (intervalType : string) :
  Minute <= GetThreshold intervalType <= 720 * Hour.
Proof.
  unfold GetThreshold, GetTimeUnitAndConfigKey.
  repeat match goal with
         | |- context [if ?b then _ else _] => destruct b
         end; vm_compute; split; congruence.
Qed.

(** X4.  [CalculateChunkSize] multiplies in 64-bit nanoseconds.  For every
    interval and every row limit from 1 to 3558 the product is exact: the
    chunk is the threshold of the interval taken [apiLimit] times, at least
    [apiLimit] minutes long.  The bound is sharp: 3559 rows of monthly
    candles wrap to a negative duration.  With the limit of the
    configuration the result is the chunk size [LoadCandleData] uses. *)
Theorem CalculateChunkSize_exact (cfg : Config) (intervalType : string)
        (apiLimit : Z) :
  1 <= apiLimit <= 3558 ->
  CalculateChunkSize intervalType apiLimit = GetThreshold intervalType * apiLimit /\
  apiLimit * Minute <= CalculateChunkSize intervalType apiLimit /\
  CalculateChunkSize CandleIntervalMonth 3559 < 0 /\
  CalculateChunkSize intervalType
    (GetIntervalLimit cfg (snd (GetTimeUnitAndConfigKey intervalType)))
  = chunkSizeOf cfg intervalType.
Proof.
  intros Hlimit. pose proof (timeUnit_range intervalType) as Hu.
  assert (CalculateChunkSize intervalType apiLimit
          = GetThreshold intervalType * apiLimit) as Hexact.
  { unfold CalculateChunkSize. apply wrap64_id.
    unfold inInt64, minInt64, maxInt64. unfold Hour, Minute, Second in Hu. nia. }
  split; [exact Hexact |]. split; [rewrite Hexact; unfold Minute, Second in *; nia |].
  split; [vm_compute; reflexivity |].
  rewrite chunkSizeOf_eq. unfold CalculateChunkSize, GetThreshold.
  f_equal. apply Z.mul_comm.
Qed.

Lemma CalculateChunkSize_exact_witness :
  1 <= 1000 <= 3558 /\
  CalculateChunkSize CandleIntervalHour 1000 = 1000 * Minute.
Proof.
  assert (1 <= 1000 <= 3558) as H by lia.
  split; [exact H |].
  exact (proj1 (CalculateChunkSize_exact dailyConfig CandleIntervalHour 1000 H)).
Defined.

(** ** Reading timestamps *)

Lemma queryTime_run {World : Type} (env : Env World) (q : TimeQuery)
      (w : World) (tr : list Event) :
  queryTime env q (w, tr)
  = (fst (dbQueryTime env q w), (snd (dbQueryTime env q w), tr)).
Proof. unfold queryTime. now destruct (dbQueryTime env q w). Qed.

Lemma exec_run {World : Type} (env : Env World) (q : Query)
      (w : World) (tr : list Event) :
  exec env q (w, tr)
  = (fst (dbExec env q w),
     (snd (dbExec env q w), tr ++ [EvExec q (fst (dbExec env q w))])).
Proof. unfold exec. now destruct (dbExec env q w). Qed.

(** X5.  [GetLastDividendDate] reports an error exactly when it found a
    last payment date: the date comes back with a non-nil error built
    from the nil scan error.  When the query fails, or finds no row, it
    returns the zero time and a nil error, so a failed query reads as
    "no dividends yet".  The time it returns is the one
    [ProcessInstrumentDividends] goes on with. *)
Theorem GetLastDividendDate_error {World : Type} (env : Env World)
        (figi : string) (w : World) (tr : list Event) :
  let scan := fst (dbQueryTime env (MaxDividendDate figi) w) in
  let res := fst (GetLastDividendDateResult env figi (w, tr)) in
  (forall t, scan = ScanValue t ->
     res = (t, Some (ErrorString
       "ошибка сканирования даты последнего дивиденда: %!w(<nil>)"))) /\
  (scan = ScanNull -> res = (zeroTime, None)) /\
  (forall e, scan = ScanError e -> res = (zeroTime, None)) /\
  (snd res <> None <-> exists t, scan = ScanValue t) /\
  fst res = fst (GetLastDividendDate env figi (w, tr)) /\
  snd (GetLastDividendDateResult env figi (w, tr))
  = snd (GetLastDividendDate env figi (w, tr)).
Proof.
  intros scan res. subst res.
  unfold GetLastDividendDateResult, GetLastDividendDate.
  rewrite !bind_run, queryTime_run. cbn [fst snd]. fold scan.
  destruct scan as [e | | t]; cbn; rewrite ?orb_true_r; cbn;
    repeat split;
    try solve [ discriminate | congruence
              | intros H; now elim H
              | intros [t' H]; discriminate H
              | intros t' [= ->]; reflexivity
              | intros _; now eexists ].
Qed.

(** X6.  [GetEarliestCandle] has the same shape: whenever the query finds
    an earliest time it is returned together with a non-nil error, and a
    failed query is returned as the zero time with a nil error.  No call
    returns a time taken from the database with a nil error. *)
Theorem GetEarliestCandle_error {World : Type}
        (queryEarliest : string -> string -> M World ScanTime)
        (figi intervalType : string) (st : World * list Event) :
  let scan := fst (queryEarliest figi intervalType st) in
  let res := fst (GetEarliestCandle queryEarliest figi intervalType st) in
  (forall t, scan = ScanValue t ->
     res = (t, Some (ErrorString
       "ошибка сканирования самого раннего времени: %!w(<nil>)"))) /\
  (scan = ScanNull -> res = (zeroTime, None)) /\
  (forall e, scan = ScanError e -> res = (zeroTime, None)) /\
  (snd res = None -> fst res = zeroTime /\ scanValid scan = false) /\
  snd (GetEarliestCandle queryEarliest figi intervalType st)
  = snd (queryEarliest figi intervalType st).
Proof.
  intros scan res. subst res. unfold GetEarliestCandle.
  rewrite bind_run. fold scan.
  destruct scan as [e | | t]; cbn; rewrite ?orb_true_r; cbn;
    repeat split;
    try solve [ discriminate | congruence
              | intros t' [= ->]; reflexivity ].
Qed.

(** X7.  [GetLastCandleTime] and [GetLastLoadedTime] read the same
    maximum: whenever [GetLastLoadedTime] succeeds, [GetLastCandleTime]
    returns the same time and a nil error.  They differ on a failed scan
    only: [GetLastLoadedTime] always reports it, [GetLastCandleTime]
    reports it unless its text is "no rows in result set", which it reads
    as no data.  Neither changes the trace. *)
Theorem GetLastCandleTime_agrees {World : Type} (env : Env World)
        (figi intervalType : string) (w : World) (tr : list Event) :
  let scan := fst (dbQueryTime env (MaxCandleTime figi intervalType) w) in
  let loaded := GetLastLoadedTime env figi intervalType (w, tr) in
  let last := GetLastCandleTime env figi intervalType (w, tr) in
  snd last = snd loaded /\
  snd (snd last) = tr /\
  (snd (fst loaded) = None -> fst last = fst loaded) /\
  (forall e, scan = ScanError e ->
     snd (fst loaded) <> None /\
     (errorText e = "no rows in result set"%string ->
      fst last = (zeroTime, None)) /\
     (errorText e <> "no rows in result set"%string ->
      exists err, fst last = (zeroTime, Some err) /\ wraps err e)).
Proof.
  intros scan loaded last. subst loaded last.
  unfold GetLastCandleTime. rewrite GetLastLoadedTime_run, bind_run, queryTime_run.
  cbn [fst snd]. fold scan.
  destruct scan as [e | | t]; cbn [fst snd].
  - split; [| split; [| split]].
    + now destruct (String.eqb (errorText e) "no rows in result set").
    + now destruct (String.eqb (errorText e) "no rows in result set").
    + discriminate.
    + intros e' [= <-]. split; [discriminate |].
      destruct (String.eqb_spec (errorText e) "no rows in result set") as [Ht | Ht].
      * split; [reflexivity | contradiction].
      * split; [contradiction |]. intros _. eexists. split; [reflexivity |].
        apply wraps_Errorf, wraps_refl.
  - repeat split; discriminate.
  - repeat split; discriminate.
Qed.

(** ** Recording progress *)

Lemma GetLastCandleTime_run {World : Type} (env : Env World)
      (figi intervalType : string) (w : World) (tr : list Event) :
  GetLastCandleTime env figi intervalType (w, tr)
  = (match fst (dbQueryTime env (MaxCandleTime figi intervalType) w) with
     | ScanError e =>
         if String.eqb (errorText e) "no rows in result set"
         then (zeroTime, None)
         else (zeroTime,
               Some (Errorf "ошибка получения времени последней свечи" (Some e)))
     | ScanNull => (zeroTime, None)
     | ScanValue t => (t, None)
     end,
     (snd (dbQueryTime env (MaxCandleTime figi intervalType) w), tr)).
Proof.
  unfold GetLastCandleTime. rewrite bind_run, queryTime_run. cbn [fst snd].
  destruct (fst (dbQueryTime env (MaxCandleTime figi intervalType) w)) as [e | | t];
    try reflexivity.
  now destruct (String.eqb (errorText e) "no rows in result set").
Qed.

(** The statement [ProcessLoadResult] sends after a scan. *)
Lemma ProcessLoadResult_run {World : Type} (env : Env World)
      (figi intervalType : string) (loadError : option error)
      (w : World) (tr : list Event) :
  let scan := fst (dbQueryTime env (MaxCandleTime figi intervalType) w) in
  let w1 := snd (dbQueryTime env (MaxCandleTime figi intervalType) w) in
  exists logs,
    Forall (fun e => exists msg, e = EvLog msg) logs /\
    ProcessLoadResult env figi intervalType loadError (w, tr)
    = match scan with
      | ScanValue t =>
          if IsZero t then (loadError, (w1, tr))
          else
            let q := UpdateLastLoadedTimeOf figi t in
            (loadError,
             (snd (dbExec env q w1),
              tr ++ [EvExec q (fst (dbExec env q w1))] ++ logs))
      | ScanNull => (loadError, (w1, tr))
      | ScanError _ => (loadError, (w1, tr ++ logs))
      end.
Proof.
  intros scan w1. unfold ProcessLoadResult.
  rewrite bind_run, GetLastCandleTime_run. cbn [fst snd]. fold scan w1.
  destruct scan as [e | | t].
  - destruct (String.eqb (errorText e) "no rows in result set").
    + exists []. split; [constructor |]. cbn. now rewrite app_nil_r.
    + eexists [_]. split; [repeat constructor; now eexists |]. reflexivity.
  - exists []. split; [constructor |]. reflexivity.
  - destruct (IsZero t) eqn:Hz; cbn [negb].
    + exists []. split; [constructor |]. reflexivity.
    + unfold UpdateLastLoadedTime.
      rewrite !bind_run, exec_run. cbn [fst snd].
      destruct (fst (dbExec env (UpdateLastLoadedTimeOf figi t) w1)) as [e |];
        (eexists [_]; split; [repeat constructor; now eexists |]);
        cbn; now rewrite <- app_assoc.
Qed.

Lemma dbCalls_logs (logs : list Event) :
  Forall (fun e => exists msg, e = EvLog msg) logs -> dbCalls logs = [].
Proof.
  induction 1 as [| e logs [msg ->] _ IH]; [reflexivity | exact IH].
Qed.

Lemma fetchedChunks_logs (logs : list Event) :
  Forall (fun e => exists msg, e = EvLog msg) logs -> fetchedChunks logs = [].
Proof.
  induction 1 as [| e logs [msg ->] _ IH]; [reflexivity | exact IH].
Qed.

(** X8.  [ProcessLoadResult] returns the load error it was given, in
    every case: a failure to read the newest candle or to record it is
    logged and never returned, and a nil load error stays nil.  It
    requests no candles, and the only statement it can send is one update
    of [last_loaded_time] for the instrument, with the newest candle time
    of the pair, sent exactly when that time was read and is not the zero
    time. *)
Theorem ProcessLoadResult_returns_loadError {World : Type} (env : Env World)
        (figi intervalType : string) (loadError : option error)
        (w : World) (tr : list Event) :
  let scan := fst (dbQueryTime env (MaxCandleTime figi intervalType) w) in
  let w1 := snd (dbQueryTime env (MaxCandleTime figi intervalType) w) in
  let run := ProcessLoadResult env figi intervalType loadError (w, tr) in
  fst run = loadError /\
  fetchedChunks (snd (snd run)) = fetchedChunks tr /\
  dbCalls (snd (snd run))
  = dbCalls tr ++
    match scan with
    | ScanValue t =>
        if IsZero t then []
        else [(UpdateLastLoadedTimeOf figi t,
               fst (dbExec env (UpdateLastLoadedTimeOf figi t) w1))]
    | _ => []
    end.
Proof.
  intros scan w1 run.
  destruct (ProcessLoadResult_run env figi intervalType loadError w tr)
    as (logs & Hlogs & Hrun).
  cbv zeta in Hrun. fold scan w1 run in Hrun. rewrite Hrun.
  pose proof (dbCalls_logs logs Hlogs) as Hdb.
  pose proof (fetchedChunks_logs logs Hlogs) as Hfetch.
  destruct scan as [e | | t]; cbn [fst snd].
  - rewrite dbCalls_app, fetchedChunks_app, Hdb, Hfetch, !app_nil_r. auto.
  - rewrite app_nil_r. auto.
  - destruct (IsZero t); cbn [fst snd].
    + rewrite app_nil_r. auto.
    + rewrite !dbCalls_app, !fetchedChunks_app, Hdb, Hfetch. cbn.
      rewrite !app_nil_r. auto.
Qed.

Lemma maxTimeOf_spec (ts : list Time) (t : Time) :
  maxTimeOf ts = ScanValue t -> In t ts /\ forall u, In u ts -> u <= t.
Proof.
  destruct ts as [| a rest]; [discriminate |]. cbn [maxTimeOf].
  intros [= <-]. revert a. induction rest as [| b rest IH]; intros a.
  - cbn. split; [now left |]. intros u [<- | []]. lia.
  - cbn [fold_left]. destruct (IH (Z.max a b)) as [Hin Hmax]. split.
    + destruct Hin as [Heq | Hin].
      * rewrite <- Heq. destruct (Z.max_spec a b) as [[_ ->] | [_ ->]];
          cbn; tauto.
      * right. now right.
    + intros u [Hu | [Hu | Hu]].
      * specialize (Hmax (Z.max a b) (or_introl eq_refl)). lia.
      * specialize (Hmax (Z.max a b) (or_introl eq_refl)). lia.
      * apply Hmax. now right.
Qed.

(** X9.  On the PostgreSQL model, [ProcessLoadResult] changes nothing but
    the [last_loaded_time] of the instrument: partitions, candles,
    dividends and the rows of other instruments stay as they are.  When
    candles of the pair are stored, the instrument's row (if there is one;
    none is created) keeps its other columns and gets the time of the
    newest of them, a time no stored candle of the pair exceeds; when no
    candle of the pair is stored the instruments are untouched. *)
Theorem ProcessLoadResult_records_newest
        (figi intervalType : string) (loadError : option error)
        (w : SimWorld) (tr : list Event) :
  let before := pg w in
  let after := pg (fst (snd (ProcessLoadResult simEnv figi intervalType
                               loadError (w, tr)))) in
  let ofPair := fun r : CandleRow =>
    String.eqb figi (rFigi r) && String.eqb intervalType (rInterval r) in
  partitions after = partitions before /\
  candles after = candles before /\
  dividends after = dividends before /\
  (forall other, other <> figi ->
                 instruments after !! other = instruments before !! other) /\
  (filter ofPair (candles before) = [] -> instruments after = instruments before) /\
  (filter ofPair (candles before) <> [] ->
   exists newest,
     In newest (filter ofPair (candles before)) /\
     (forall r, In r (candles before) -> ofPair r = true ->
                rTime r <= rTime newest) /\
     (rTime newest <> zeroTime ->
      instruments after !! figi
      = (fun row => mkInstrumentRow (rMeta row) (Some (rTime newest)))
          <$> instruments before !! figi)).
Proof.
  intros before after ofPair.
  destruct (ProcessLoadResult_run simEnv figi intervalType loadError w tr)
    as (logs & _ & Hrun).
  cbv zeta in Hrun. subst after. rewrite Hrun. clear Hrun.
  change (fst (dbQueryTime simEnv (MaxCandleTime figi intervalType) w))
    with (maxTimeOf (map rTime (filter ofPair (candles before)))).
  change (snd (dbQueryTime simEnv (MaxCandleTime figi intervalType) w)) with w.
  destruct (filter ofPair (candles before)) as [| r0 rows] eqn:Hrows.
  - cbn. repeat split; try reflexivity. congruence.
  - destruct (maxTimeOf (map rTime (r0 :: rows))) as [e | | t] eqn:Hmax;
      [discriminate Hmax | discriminate Hmax |].
    apply maxTimeOf_spec in Hmax as [Hin Hle].
    apply in_map_iff in Hin as (newest & <- & Hnewest).
    assert (forall r, In r (candles before) -> ofPair r = true ->
                      rTime r <= rTime newest) as Hbound.
    { intros r Hr Hp. apply Hle, in_map. rewrite <- Hrows.
      apply list_elem_of_In, list_elem_of_filter.
      split; [now apply Is_true_true | now apply list_elem_of_In]. }
    unfold IsZero. destruct (Z.eqb_spec (rTime newest) zeroTime) as [Hz | Hnz].
    + cbn. repeat split; try reflexivity; try discriminate.
      intros _. exists newest. repeat split; [exact Hnewest | exact Hbound |].
      congruence.
    + cbn. repeat split; try reflexivity; try discriminate.
      * intros other Hother. apply lookup_alter_ne. congruence.
      * intros _. exists newest. repeat split; [exact Hnewest | exact Hbound |].
        intros _. apply lookup_alter_eq.
Qed.

Lemma ProcessLoadResult_trace {World : Type} (env : Env World)
      (figi intervalType : string) (loadError : option error)
      (st : World * list Event) :
  let run := ProcessLoadResult env figi intervalType loadError st in
  fst run = loadError /\
  fetchedChunks (snd (snd run)) = fetchedChunks (snd st) /\
  exists extra,
    dbCalls (snd (snd run)) = dbCalls (snd st) ++ extra /\
    (length extra <= 1)%nat /\
    forall q r, In (q, r) extra -> exists t, q = UpdateLastLoadedTimeOf figi t.
Proof.
  destruct st as [w tr]. cbv zeta.
  destruct (ProcessLoadResult_run env figi intervalType loadError w tr)
    as (logs & Hlogs & Hrun).
  cbv zeta in Hrun. rewrite Hrun. clear Hrun.
  pose proof (dbCalls_logs logs Hlogs) as Hdb.
  pose proof (fetchedChunks_logs logs Hlogs) as Hfetch.
  assert (forall tr', dbCalls tr' = dbCalls tr ->
            exists extra : list (Query * option error),
              dbCalls tr' = dbCalls tr ++ extra /\ (length extra <= 1)%nat /\
              forall q r, In (q, r) extra ->
                          exists t, q = UpdateLastLoadedTimeOf figi t) as Hsame.
  { intros tr' ->. exists []. rewrite app_nil_r.
    split; [reflexivity |]. split; [cbn; lia |]. intros q r []. }
  destruct (fst (dbQueryTime env (MaxCandleTime figi intervalType) w))
    as [e | | t]; cbn [fst snd].
  - rewrite fetchedChunks_app, Hfetch, app_nil_r.
    split; [reflexivity |]. split; [reflexivity |].
    apply Hsame. now rewrite dbCalls_app, Hdb, app_nil_r.
  - split; [reflexivity |]. split; [reflexivity |]. now apply Hsame.
  - destruct (IsZero t); cbn [fst snd].
    + split; [reflexivity |]. split; [reflexivity |]. now apply Hsame.
    + rewrite !fetchedChunks_app, Hfetch, !dbCalls_app, Hdb. cbn.
      rewrite !app_nil_r.
      split; [reflexivity |]. split; [reflexivity |].
      eexists. split; [reflexivity |]. split; [cbn; lia |].
      intros q r [[= <- <-] | []]. now exists t.
Qed.

(** X10.  A whole cycle of [ProcessInstrument] returns what the load
    returned: the progress update that follows [LoadCandleData] neither
    hides a load error nor turns a successful load into a failure, and it
    requests no candles.  After the statements of the load the cycle
    sends at most one more, an update of [last_loaded_time] of the same
    instrument; when the last loaded time cannot be read nothing is
    sent. *)
Theorem ProcessInstrumentCycle_result {World : Type} (env : Env World)
        (fuel : nat) (cfg : Config) (figi interval : string)
        (w : World) (tr : list Event) :
  let load := ProcessInstrument env fuel cfg figi interval (w, tr) in
  let cycle := ProcessInstrumentCycle env fuel cfg figi interval (w, tr) in
  fst cycle = fst load /\
  fetchedChunks (snd (snd cycle)) = fetchedChunks (snd (snd load)) /\
  (exists extra,
     dbCalls (snd (snd cycle)) = dbCalls (snd (snd load)) ++ extra /\
     (length extra <= 1)%nat /\
     forall q r, In (q, r) extra -> exists t, q = UpdateLastLoadedTimeOf figi t) /\
  (snd (fst (GetLastLoadedTime env figi interval (w, tr))) <> None ->
   dbCalls (snd (snd cycle)) = dbCalls tr).
Proof.
  intros load cycle. subst load cycle.
  unfold ProcessInstrument, ProcessInstrumentCycle. rewrite !bind_run.
  rewrite GetLastLoadedTime_run. cbn [fst snd].
  set (w1 := snd (dbQueryTime env (MaxCandleTime figi interval) w)).
  assert (forall st : World * list Event,
            exists extra : list (Query * option error),
              dbCalls (snd st) = dbCalls (snd st) ++ extra /\
              (length extra <= 1)%nat /\
              forall q r, In (q, r) extra ->
                          exists t, q = UpdateLastLoadedTimeOf figi t) as Hnone.
  { intros st. exists []. rewrite app_nil_r.
    split; [reflexivity |]. split; [cbn; lia |]. intros q r []. }
  assert (forall last,
    let load := LoadCandleData env fuel cfg figi last interval (w1, tr) in
    let cycle :=
      bind (LoadCandleData env fuel cfg figi last interval)
           (fun loaded =>
              match loaded with
              | Some loadError =>
                  bind (ProcessLoadResult env figi interval loadError)
                       (fun result => ret (Some result))
              | None => ret None
              end) (w1, tr) in
    fst cycle = fst load /\
    fetchedChunks (snd (snd cycle)) = fetchedChunks (snd (snd load)) /\
    exists extra,
      dbCalls (snd (snd cycle)) = dbCalls (snd (snd load)) ++ extra /\
      (length extra <= 1)%nat /\
      forall q r, In (q, r) extra ->
                  exists t, q = UpdateLastLoadedTimeOf figi t) as Hload.
  { intros last. cbv zeta. rewrite bind_run.
    destruct (LoadCandleData env fuel cfg figi last interval (w1, tr))
      as [[loadError |] st]; cbn [fst snd].
    - rewrite bind_run, ret_run. cbn [fst snd].
      destruct (ProcessLoadResult_trace env figi interval loadError st)
        as (Hres & Hfetch & Hextra).
      split; [now rewrite Hres |]. split; [exact Hfetch | exact Hextra].
    - rewrite ret_run. cbn [fst snd].
      split; [reflexivity |]. split; [reflexivity | apply Hnone]. }
  destruct (fst (dbQueryTime env (MaxCandleTime figi interval) w)) as [e | | t];
    cbn [fst snd].
  - rewrite !ret_run. cbn [fst snd].
    split; [reflexivity |]. split; [reflexivity |].
    split; [apply (Hnone (w1, tr)) | reflexivity].
  - destruct (Hload zeroTime) as (H1 & H2 & H3).
    split; [exact H1 |]. split; [exact H2 |]. split; [exact H3 |].
    intros H. now elim H.
  - destruct (Hload t) as (H1 & H2 & H3).
    split; [exact H1 |]. split; [exact H2 |]. split; [exact H3 |].
    intros H. now elim H.
Qed.

(** A first backfill followed by the progress update: the instrument's
    row gets the time of the newest candle stored. *)
Example ProcessInstrumentCycle_first_backfill :
  let w := mkSim (mkPgState [] [] []
                    (<["BBG004730N88"%string :=
                         mkInstrumentRow (sberbank true "Sberbank") None]> ∅)
                    (Date 2024 1 10 0 0 0 0))
                 (Date 2024 1 10 0 0 0 0)
                 [candleAt (Date 2024 1 3 7 0 0 0); candleAt (Date 2024 1 9 7 0 0 0)]
                 [] None in
  let run := ProcessInstrumentCycle simEnv 3 dailyConfig "BBG004730N88"
                                    CandleIntervalDay (w, []) in
  fst run = Some None /\
  rLastLoadedTime <$> instruments (pg (fst (snd run))) !! "BBG004730N88"%string
  = Some (Some (Date 2024 1 9 7 0 0 0)).
Proof. vm_compute. split; reflexivity. Qed.

(** ** Negative fractions *)

Lemma dropLeadingZeros_app (a b : list ascii) :
  dropLeadingZeros a <> [] ->
  dropLeadingZeros (a ++ b) = dropLeadingZeros a ++ b.
Proof.
  induction a as [| c a IH]; [easy |]. cbn.
  destruct (Ascii.eqb c "0"); [exact IH | reflexivity].
Qed.

Lemma stripTrailingZeros_cons (c : ascii) (s : list ascii) :
  stripTrailingZeros s <> [] ->
  stripTrailingZeros (c :: s) = c :: stripTrailingZeros s.
Proof.
  unfold stripTrailingZeros. intros H. cbn [rev].
  rewrite dropLeadingZeros_app.
  - now rewrite rev_app_distr.
  - intros Hnil. apply H. now rewrite Hnil.
Qed.

Lemma stripTrailingZeros_value (s : list ascii) (v : Z) :
  parseDigits 0 s = Some v -> v <> 0 -> stripTrailingZeros s <> [].
Proof.
  intros Hv Hne Hnil. destruct (stripTrailingZeros_split s) as [k Hk].
  rewrite Hnil in Hk. cbn in Hk. rewrite Hk in Hv.
  rewrite <- (app_nil_r (repeat _ k)), parseDigits_zeros in Hv.
  cbn in Hv. congruence.
Qed.

Lemma firstn_repeat_min {A : Type} (z : A) (n k : nat) :
  firstn n (repeat z k) = repeat z (Nat.min n k).
Proof.
  revert k. induction n as [| n IH]; intros [| k]; cbn; try reflexivity.
  now rewrite IH.
Qed.

(** Padding with zeros up to a width [n] and cutting at [n] does not
    depend on how many zeros were appended, as long as they reach [n]. *)
Lemma firstn_padded (s : list ascii) (n a b : nat) :
  (n <= length s + a)%nat -> (n <= length s + b)%nat ->
  firstn n (s ++ repeat "0"%char a) = firstn n (s ++ repeat "0"%char b).
Proof.
  intros Ha Hb. rewrite !firstn_app, !firstn_repeat_min.
  f_equal. f_equal. lia.
Qed.

(** Digits of the magnitude of a negative [nano], as [%09d] prints them
    after the sign. *)
Lemma magnitude_digits (m : Z) :
  1 <= m < 10 ^ 9 ->
  let D := padZeros 8 (formatUint m) in
  Forall (fun c => isDigit c = true) D /\
  parseDigits 0 D = Some m /\
  length D = (if (m <? 10 ^ 8)%Z then 8%nat else 9%nat).
Proof.
  intros Hm D. subst D.
  assert (Forall (fun c => isDigit c = true) (formatUint m)) as Hd
    by (apply formatUint_digits; lia).
  assert (parseDigits 0 (formatUint m) = Some m) as Hv
    by (apply formatUint_value; lia).
  split; [now apply padZeros_digits |].
  split; [unfold padZeros; now rewrite parseDigits_zeros |].
  destruct (Z.ltb_spec m (10 ^ 8)) as [Hlt | Hge].
  - apply padZeros_length.
    apply (formatUint_aux_length _ 7%nat). change (10 ^ Z.of_nat 8) with (10 ^ 8). lia.
  - assert (length (formatUint m) <= 9)%nat as Hle.
    { apply (formatUint_aux_length _ 8%nat).
      change (10 ^ Z.of_nat 9) with (10 ^ 9). lia. }
    pose proof (parseDigits_upper _ 0 m Hv ltac:(lia)) as Hub.
    assert (9 <= length (formatUint m))%nat as Hlow.
    { destruct (Nat.le_gt_cases 9 (length (formatUint m))) as [H | H]; [exact H |].
      exfalso.
      assert (10 ^ Z.of_nat (length (formatUint m)) <= 10 ^ 8).
      { apply Z.pow_le_mono_r; lia. }
      lia. }
    unfold padZeros. replace (8 - length (formatUint m))%nat with O by lia.
    cbn [repeat app]. lia.
Qed.

Lemma ConvertMoneyValue_negative_fraction (units nano : Z) :
  - 10 ^ 9 < nano < 0 ->
  let F := stripTrailingZeros (padZeros 8 (formatUint (- nano))) in
  F <> [] /\
  ConvertMoneyValue units nano = sprintf_d units ++ "."%char :: "-"%char :: F.
Proof.
  intros Hn F.
  destruct (magnitude_digits (- nano) ltac:(lia)) as (Hd & Hv & Hlen).
  assert (F <> []) as Hne by (eapply stripTrailingZeros_value; [exact Hv | lia]).
  split; [exact Hne |].
  unfold ConvertMoneyValue.
  destruct (Z.eqb_spec nano 0) as [-> | _]; [lia |]. cbv zeta.
  unfold sprintf_09d. destruct (Z.ltb_spec nano 0) as [_ | H]; [| lia].
  rewrite (stripTrailingZeros_cons _ _ Hne). reflexivity.
Qed.

(** X11.  For a negative [nano] above [-10^9] the encoder prints the sign
    of [nano] after the decimal point: the text is the integer, a dot, a
    minus sign and digits.  Decoding that text gives [units] back; it
    gives [nano] back when [nano] is above [-10^8], and [nano] without its
    last decimal digit otherwise, because the sign takes one of the nine
    places of the fraction. *)
Theorem parsePriceString_negative_nano (units nano : Z) :
  inInt64 units ->
  - 10 ^ 9 < nano < 0 ->
  (exists digits,
     digits <> [] /\ Forall (fun c => isDigit c = true) digits /\
     ConvertMoneyValue units nano
     = sprintf_d units ++ "."%char :: "-"%char :: digits) /\
  parsePriceString (ConvertMoneyValue units nano)
  = mkQuotation units (if nano <=? - 10 ^ 8 then Z.quot nano 10 else nano).
Proof.
  intros Hu Hn.
  destruct (magnitude_digits (- nano) ltac:(lia)) as (Hd & Hv & Hlen).
  destruct (ConvertMoneyValue_negative_fraction units nano Hn) as (Hne & Htext).
  cbv zeta in Hne, Htext.
  set (D := padZeros 8 (formatUint (- nano))) in *.
  set (F := stripTrailingZeros D) in *. clearbody D.
  assert (Forall (fun c => isDigit c = true) F) as HdS
    by now apply stripTrailingZeros_incl.
  split; [exists F; auto |].
  rewrite Htext.
  assert (TrimSpace (sprintf_d units ++ "."%char :: "-"%char :: F)
          = sprintf_d units ++ "."%char :: "-"%char :: F) as Htrim.
  { pose proof (sprintf_d_nonempty units) as Hne1.
    pose proof (sprintf_d_plain units) as Hpl.
    destruct (sprintf_d units) as [| c r] eqn:Hs; [congruence |].
    destruct (rev F) as [| c' r'] eqn:Hrev.
    { apply (f_equal (@rev ascii)) in Hrev.
      rewrite rev_involutive in Hrev. contradiction. }
    eapply (TrimSpace_plain _ c c').
    - reflexivity.
    - now inversion Hpl.
    - change ((c :: r) ++ "."%char :: "-"%char :: F)
        with ((c :: r) ++ ["."%char; "-"%char] ++ F).
      rewrite !rev_app_distr, Hrev. reflexivity.
    - left. apply Forall_rev in HdS. rewrite Hrev in HdS. now inversion HdS. }
  unfold parsePriceString. rewrite Htrim.
  rewrite IndexByte_dot by apply sprintf_d_plain.
  rewrite firstn_before_dot, skipn_past_dot, ParseInt_sprintf_d by assumption.
  cbn [length Nat.eqb].
  (* the nine bytes handed to ParseInt *)
  assert (length F <= length D)%nat as HlenS.
  { pose proof (stripTrailingZeros_repad D) as Hr. fold F in Hr.
    apply (f_equal (@length ascii)) in Hr. rewrite length_app in Hr. lia. }
  assert (8 <= length D <= 9)%nat as HlenD
    by (rewrite Hlen; destruct (- nano <? 10 ^ 8); lia).
  assert (truncFraction (padFraction ("-"%char :: F)) = "-"%char :: firstn 8 D)
    as Hnine.
  { rewrite truncFraction_firstn. unfold padFraction. cbn [app length firstn].
    f_equal.
    rewrite <- (stripTrailingZeros_repad D) at 1. fold F.
    apply firstn_padded; lia. }
  rewrite Hnine.
  assert (exists v, parseDigits 0 (firstn 8 D) = Some v /\
                    - v = (if nano <=? - 10 ^ 8 then Z.quot nano 10 else nano))
    as (v & Hv8 & Hval).
  { destruct (- nano <? 10 ^ 8) eqn:Hcmp;
      [apply Z.ltb_lt in Hcmp | apply Z.ltb_ge in Hcmp].
    - exists (- nano). rewrite firstn_all2 by lia. split; [exact Hv |].
      destruct (Z.leb_spec nano (- 10 ^ 8)); lia.
    - destruct (rev D) as [| c r] eqn:Hrev.
      { apply (f_equal (@length ascii)) in Hrev. rewrite length_rev in Hrev.
        cbn in Hrev. lia. }
      assert (D = rev r ++ [c]) as HD.
      { rewrite <- (rev_involutive D), Hrev. reflexivity. }
      assert (length (rev r) = 8%nat) as Hr8.
      { apply (f_equal (@length ascii)) in HD. rewrite length_app in HD.
        cbn in HD. lia. }
      rewrite HD in Hv. rewrite parseDigits_snoc in Hv.
      destruct (parseDigits 0 (rev r)) as [v |] eqn:Hvr; [| discriminate].
      assert (isDigit c = true) as Hc.
      { rewrite HD in Hd. apply Forall_app in Hd as [_ Hd]. now inversion Hd. }
      rewrite Hc in Hv. injection Hv as Hv.
      assert (0 <= digitVal c <= 9) as Hdv.
      { unfold isDigit, digitVal in *. lia. }
      exists v. split.
      + rewrite HD, firstn_app, Hr8. cbn. rewrite firstn_all2 by lia.
        now rewrite app_nil_r.
      + destruct (Z.leb_spec nano (- 10 ^ 8)); [| lia].
        replace nano with (- (10 * v + digitVal c)) by lia.
        rewrite Z.quot_opp_l by lia.
        rewrite Z.quot_div_nonneg by (pose proof (parseDigits_lower _ _ _ Hvr); lia).
        f_equal. divlia. }
  assert (firstn 8 D <> []) as Hne8.
  { intros Hnil. apply (f_equal (@length ascii)) in Hnil.
    rewrite length_firstn in Hnil. change (length (@nil ascii)) with O in Hnil.
    lia. }
  assert (0 <= v < 10 ^ 8) as Hvr.
  { pose proof (parseDigits_lower _ _ _ Hv8 ltac:(lia)).
    pose proof (parseDigits_upper _ _ _ Hv8 ltac:(lia)) as Hub.
    rewrite length_firstn in Hub.
    replace (Nat.min 8 (length D)) with 8%nat in Hub by lia.
    change (10 ^ Z.of_nat 8) with (10 ^ 8) in Hub. lia. }
  assert (ParseInt ("-"%char :: firstn 8 D) 32 = Some (- v)) as Hparse.
  { unfold ParseInt. cbn [Ascii.eqb]. change (Ascii.eqb "-" "+") with false.
    change (Ascii.eqb "-" "-") with true. cbv iota.
    unfold parseUintDigits. destruct (firstn 8 D) eqn:Hf; [congruence |].
    rewrite Hv8. change (2 ^ (32 - 1)) with 2147483648.
    destruct (Z.leb_spec v 2147483648); [reflexivity | lia]. }
  rewrite Hparse, Hval. reflexivity.
Qed.

Lemma parsePriceString_negative_nano_witness :
  inInt64 0 /\ - 10 ^ 9 < - 500000000 < 0 /\
  parsePriceString (ConvertMoneyValue 0 (- 500000000))
  = mkQuotation 0 (- 50000000).
Proof.
  assert (inInt64 0) as Hu by (unfold inInt64, minInt64, maxInt64; lia).
  assert (- 10 ^ 9 < - 500000000 < 0) as Hn by lia.
  split; [exact Hu |]. split; [exact Hn |].
  exact (proj2 (parsePriceString_negative_nano 0 (- 500000000) Hu Hn)).
Defined.

(** ** Calendar dates *)

Lemma monthIndex_unique (doy mp : Z) :
  0 <= mp <= 11 ->
  monthOffset mp <= doy -> (mp < 11 -> doy < monthOffset (mp + 1)) ->
  doy <= 365 ->
  monthIndex doy = mp.
Proof.
  unfold monthIndex, monthOffset. intros Hmp Hlo Hhi Hmax.
  assert (mp = 0 \/ mp = 1 \/ mp = 2 \/ mp = 3 \/ mp = 4 \/ mp = 5 \/ mp = 6 \/
          mp = 7 \/ mp = 8 \/ mp = 9 \/ mp = 10 \/ mp = 11) as Hc by lia.
  repeat (destruct Hc as [-> | Hc]; [cbn in *; try specialize (Hhi ltac:(lia)); divlia |]).
  subst. cbn in *. divlia.
Qed.

(** Length of the month with index [mp] (March is 0) in the counted year,
    February apart. *)
Lemma monthOffset_step (mp : Z) :
  0 <= mp <= 10 ->
  monthOffset (mp + 1) - monthOffset mp
  = daysIn (if mp <? 10 then mp + 3 else mp - 9) 0.
Proof.
  intros Hmp.
  assert (mp = 0 \/ mp = 1 \/ mp = 2 \/ mp = 3 \/ mp = 4 \/ mp = 5 \/ mp = 6 \/
          mp = 7 \/ mp = 8 \/ mp = 9 \/ mp = 10) as Hc by lia.
  repeat (destruct Hc as [-> | Hc]; [reflexivity |]). subst. reflexivity.
Qed.

Lemma daysIn_not_february (m y : Z) : m <> 2 -> daysIn m y = daysIn m 0.
Proof.
  intros H. unfold daysIn. destruct (Z.eqb_spec m 2); [contradiction | reflexivity].
Qed.

(** The civil date of the day number of a valid civil date is that date. *)
Lemma civil_roundtrip (y m d : Z) :
  1 <= m <= 12 -> 1 <= d <= daysIn m y ->
  civilFromDays (daysFromCivil y m d) = (y, m, d).
Proof.
  intros Hm Hd.
  set (y' := if m <=? 2 then y - 1 else y).
  set (era := y' / 400). set (yoe := y' mod 400).
  set (mp := if 2 <? m then m - 3 else m + 9).
  assert (0 <= yoe <= 399) as Hyoe by (subst yoe; divlia).
  assert (0 <= mp <= 11) as Hmp by (subst mp; destruct (2 <? m) eqn:E; lia).
  assert (y' = yoe + era * 400) as Hy' by (subst yoe era; divlia).
  assert (m = if mp <? 10 then mp + 3 else mp - 9) as Hmm.
  { subst mp. destruct (Z.ltb_spec 2 m);
      [destruct (Z.ltb_spec (m - 3) 10) | destruct (Z.ltb_spec (m + 9) 10)]; lia. }
  assert (y = if m <=? 2 then yoe + era * 400 + 1 else yoe + era * 400) as Hyy.
  { rewrite <- Hy'. subst y'. destruct (m <=? 2); lia. }
  clearbody mp yoe era. clear Hy' y'.
  pose proof (daysFromCivil_shifted era yoe mp d Hyoe Hmp) as Hdays.
  cbv zeta in Hdays. rewrite <- Hmm in Hdays. rewrite <- Hyy in Hdays.
  set (doy := monthOffset mp + d - 1).
  (* the day of the counted year stays inside its month *)
  assert (monthOffset mp <= doy) as Hlo by (subst doy; lia).
  assert (mp < 11 -> doy < monthOffset (mp + 1)) as Hhi.
  { intros Hlt. pose proof (monthOffset_step mp ltac:(lia)) as Hstep.
    rewrite <- Hmm in Hstep.
    assert (m <> 2) as Hne.
    { destruct (Z.ltb_spec mp 10); lia. }
    rewrite (daysIn_not_february m y Hne) in Hd. subst doy. lia. }
  assert (mp = 11 -> m = 2) as Hfeb.
  { destruct (Z.ltb_spec mp 10); lia. }
  assert (doy <= 364 \/ (doy = 365 /\ m = 2 /\ isLeap y = true)) as Hdoy.
  { destruct (Z.eq_dec mp 11) as [E | E].
    - specialize (Hfeb E). subst doy. rewrite E.
      change (monthOffset 11) with 337.
      unfold daysIn in Hd. rewrite Hfeb in Hd. cbn in Hd.
      rewrite Hfeb. destruct (isLeap y); [| left; lia].
      destruct (Z.eq_dec d 29); [right; repeat split; lia | left; lia].
    - left. specialize (Hhi ltac:(lia)).
      assert (monthOffset (mp + 1) <= 337) as Hmax.
      { unfold monthOffset. divlia. }
      lia. }
  assert (0 <= doy) as Hdoy0.
  { subst doy. unfold monthOffset. divlia. }
  (* the day of the era stays inside its counted year *)
  set (doe := yearStart yoe + doy).
  assert (0 <= doe < 146097) as Hdoe.
  { subst doe. unfold yearStart. divlia. }
  assert (yoe < 399 -> doe < yearStart (yoe + 1)) as Hnext.
  { intros Hlt. subst doe. destruct Hdoy as [Hs | (Hs & Hm2 & Hleap)].
    - unfold yearStart. divlia.
    - unfold isLeap in Hleap. rewrite Hm2 in Hyy. cbn in Hyy.
      apply andb_true_iff in Hleap as [H4 H100].
      apply Z.eqb_eq in H4.
      apply orb_true_iff in H100 as [H100 | H400].
      + apply negb_true_iff, Z.eqb_neq in H100. unfold yearStart. divlia.
      + apply Z.eqb_eq in H400. exfalso. divlia. }
  assert (yearOfEra doe = yoe) as Hyear.
  { apply yearOfEra_unique; try assumption. subst doe. lia. }
  assert (monthIndex doy = mp) as Hmonth.
  { apply monthIndex_unique; try assumption. lia. }
  rewrite civilFromDays_unfold. cbv zeta.
  assert (daysFromCivil y m d + 719468 = doe + era * 146097) as Hz.
  { rewrite Hdays. subst doe doy. lia. }
  rewrite Hz.
  rewrite Z.div_add by lia. rewrite Z.mod_add by lia.
  rewrite (Z.div_small doe) by lia. rewrite (Z.mod_small doe) by lia.
  rewrite Z.add_0_l, Hyear.
  replace (doe - yearStart yoe) with doy by (subst doe; lia).
  rewrite Hmonth, <- Hmm, <- Hyy. f_equal. subst doy. lia.
Qed.

Lemma daysFromCivil_day (y m d : Z) :
  daysFromCivil y m d = daysFromCivil y m 1 + (d - 1).
Proof. unfold daysFromCivil. cbv zeta. lia. Qed.

(** The calendar and clock fields of [time.Date] on a valid date and a
    valid time of day are its arguments. *)
Lemma Date_fields (y m d h mi s ns : Z) :
  1 <= m <= 12 -> 1 <= d <= daysIn m y ->
  0 <= h < 24 -> 0 <= mi < 60 -> 0 <= s < 60 -> 0 <= ns < Second ->
  let t := Date y m d h mi s ns in
  Year t = y /\ Month t = m /\ Day t = d /\
  clockHour t = h /\ clockMinute t = mi /\ clockSecond t = s /\ Nanos t = ns.
Proof.
  intros Hm Hd Hh Hmi Hs Hns t.
  assert (t = (daysFromCivil y m d * secondsPerDay + (h * 3600 + mi * 60 + s))
              * Second + ns) as Ht.
  { subst t. unfold Date. cbv zeta.
    replace ((m - 1) / 12) with 0 by divlia.
    replace ((m - 1) mod 12 + 1) with m by divlia.
    rewrite Z.add_0_r, (daysFromCivil_day y m d). lia. }
  set (sec := h * 3600 + mi * 60 + s) in *.
  assert (0 <= sec < 86400) as Hsec by (subst sec; lia).
  assert (sec = h * 3600 + mi * 60 + s) as Hdef by reflexivity.
  clearbody sec t. subst t.
  set (D := daysFromCivil y m d).
  assert (unixDay ((D * secondsPerDay + sec) * Second + ns) = D) as Hday.
  { unfold unixDay, secondsPerDay, Second in *. divlia. }
  assert (secondOfDay ((D * secondsPerDay + sec) * Second + ns) = sec) as Hsod.
  { unfold secondOfDay, secondsPerDay, Second in *. divlia. }
  unfold Year, Month, Day, clockHour, clockMinute, clockSecond, Nanos.
  rewrite Hday, Hsod. subst D. rewrite (civil_roundtrip y m d Hm Hd). cbn [fst snd].
  repeat split; try reflexivity.
  - clear - Hh Hmi Hs Hdef. divlia.
  - clear - Hh Hmi Hs Hdef. divlia.
  - clear - Hh Hmi Hs Hdef. divlia.
  - unfold secondsPerDay, Second in *. divlia.
Qed.

Lemma daysIn_first (m y : Z) : 1 <= 1 <= daysIn m y.
Proof.
  unfold daysIn. destruct (m =? 2); [destruct (isLeap y); lia |].
  destruct ((m =? 4) || (m =? 6) || (m =? 9) || (m =? 11)); lia.
Qed.

(** The first instant of month [m] of year [y]. *)
Lemma monthStart_fields (y m : Z) :
  1 <= m <= 12 ->
  Year (Date y m 1 0 0 0 0) = y /\ Month (Date y m 1 0 0 0 0) = m.
Proof.
  intros Hm.
  destruct (Date_fields y m 1 0 0 0 0 Hm (daysIn_first m y)
              ltac:(lia) ltac:(lia) ltac:(lia) ltac:(unfold Second; lia))
    as (Hy & Hmo & _).
  split; assumption.
Qed.

(** ** Saving into an unpartitioned table *)

Lemma dbExec_sim (q : Query) (w : SimWorld) :
  dbExec simEnv q w
  = (fst (pgExec q (pg w)),
     mkSim (snd (pgExec q (pg w))) (clock w) (market w) (payouts w) (apiDown w)).
Proof. cbn. now destruct (pgExec q (pg w)). Qed.

Lemma monthEnd_after_start (t : Time) :
  partitionMonthStart t < partitionMonthEnd t.
Proof.
  pose proof (month_bounds t) as [Hb _].
  rewrite partitionMonthEnd_eq.
  rewrite partitionMonthStart_eq, nextMonthStart_eq in *.
  assert (dayNanos = 86400 * Second) as Hn by reflexivity.
  unfold Second in *. nia.
Qed.

Lemma partitionCovers_own (t : Time) :
  partitionCovers (partitionOf t) t = negb (nextMonthStart t - Second <=? t).
Proof.
  unfold partitionCovers, partitionOf. cbn [pFrom pTo].
  rewrite partitionMonthEnd_eq.
  pose proof (month_bounds t) as [Hb _].
  destruct (Z.leb_spec (partitionMonthStart t) t); [| lia]. cbn.
  destruct (Z.ltb_spec t (nextMonthStart t - Second)),
           (Z.leb_spec (nextMonthStart t - Second) t); try reflexivity; lia.
Qed.

Lemma pgExec_insert_unpartitioned (figi intervalType : string)
      (c : HistoricCandle) (st : PgState) :
  partitions st = [] ->
  pgExec (insertCandleQuery figi c intervalType) st = (Some noPartitionError, st).
Proof. intros H. unfold insertCandleQuery, pgExec. now rewrite H. Qed.

Lemma pgExec_create_first (t : Time) (st : PgState) :
  partitions st = [] ->
  pgExec (createPartitionQuery t) st
  = (None, mkPgState [partitionOf t] (candles st) (dividends st)
                     (instruments st) (dbNow st)).
Proof.
  intros H. pose proof (monthEnd_after_start t) as Hrange.
  unfold createPartitionQuery, pgExec. rewrite H. cbn [existsb app].
  destruct (Z.leb_spec (partitionMonthEnd t) (partitionMonthStart t));
    [lia | reflexivity].
Qed.

Lemma pgExec_insert_own_partition (figi intervalType : string)
      (c : HistoricCandle) (cs : list CandleRow) (ds : list Dividend)
      (ins : gmap string InstrumentRow) (nowDb : Time) :
  let t := cTime c in
  let st := mkPgState [partitionOf t] cs ds ins nowDb in
  pgExec (insertCandleQuery figi c intervalType) st
  = if nextMonthStart t - Second <=? t
    then (Some noPartitionError, st)
    else (None,
          mkPgState [partitionOf t]
            (upsertCandle (candleRow figi c intervalType) cs) ds ins nowDb).
Proof.
  intros t st. pose proof (partitionCovers_own t) as Hcov.
  unfold insertCandleQuery, pgExec, st. cbn [partitions existsb].
  fold t. rewrite Hcov, orb_false_r.
  destruct (nextMonthStart t - Second <=? t); reflexivity.
Qed.

(** One record sent to a candle table without partitions. *)
Lemma saveCandle_unpartitioned (figi intervalType : string)
      (c : HistoricCandle) (w : SimWorld) (tr : list Event) :
  partitions (pg w) = [] ->
  exists tr',
    saveCandle simEnv figi intervalType c (w, tr)
    = if nextMonthStart (cTime c) - Second <=? cTime c
      then (Some (Errorf "ошибка вставки свечи после создания партиции"
                         (Some noPartitionError)),
            (mkSim (mkPgState [partitionOf (cTime c)] (candles (pg w))
                      (dividends (pg w)) (instruments (pg w)) (dbNow (pg w)))
                   (clock w) (market w) (payouts w) (apiDown w), tr'))
      else (None,
            (mkSim (mkPgState [partitionOf (cTime c)]
                      (upsertCandle (candleRow figi c intervalType)
                                    (candles (pg w)))
                      (dividends (pg w)) (instruments (pg w)) (dbNow (pg w)))
                   (clock w) (market w) (payouts w) (apiDown w), tr')).
Proof.
  intros Hparts.
  pose proof (dbExec_sim (insertCandleQuery figi c intervalType) w) as E1.
  rewrite (pgExec_insert_unpartitioned figi intervalType c (pg w) Hparts) in E1.
  cbn [fst snd] in E1.
  pose proof (dbExec_sim (createPartitionQuery (cTime c))
                (mkSim (pg w) (clock w) (market w) (payouts w) (apiDown w))) as E2.
  cbn [pg clock market payouts apiDown] in E2.
  rewrite (pgExec_create_first (cTime c) (pg w) Hparts) in E2.
  cbn [fst snd] in E2.
  destruct (saveCandle_partition simEnv figi intervalType c w _ _ tr
              noPartitionError None E1 eq_refl E2) as [line Hrun].
  cbv zeta in Hrun.
  pose proof (dbExec_sim (insertCandleQuery figi c intervalType)
                (mkSim (mkPgState [partitionOf (cTime c)] (candles (pg w))
                          (dividends (pg w)) (instruments (pg w)) (dbNow (pg w)))
                       (clock w) (market w) (payouts w) (apiDown w))) as E3.
  cbn [pg clock market payouts apiDown] in E3.
  rewrite (pgExec_insert_own_partition figi intervalType c) in E3.
  destruct (nextMonthStart (cTime c) - Second <=? cTime c);
    cbn [fst snd] in E3; rewrite (Hrun _ _ E3); eexists; reflexivity.
Qed.

(** X12.  Saving one candle into a candle table that has no partition
    yet: the insert finds no partition, the partition of the candle's
    month is created, and the retry stores the candle exactly when the
    candle does not lie in the last second of its month; in the last
    second the retry fails again and [SaveCandles] returns the
    no-partition error with nothing stored.  Either way the table ends
    with the one partition [CreatePartition] asks for, and dividends and
    instruments are untouched. *)
Theorem SaveCandles_unpartitioned (figi intervalType : string)
        (c : HistoricCandle) (w : SimWorld) (tr : list Event) :
  partitions (pg w) = [] ->
  let t := cTime c in
  let run := SaveCandles simEnv figi [c] intervalType (w, tr) in
  let after := pg (fst (snd run)) in
  partitions after = [partitionOf t] /\
  dividends after = dividends (pg w) /\
  instruments after = instruments (pg w) /\
  (~ inFinalSecond t ->
   fst run = None /\
   candles after = upsertCandle (candleRow figi c intervalType) (candles (pg w))) /\
  (inFinalSecond t ->
   fst run = Some (Errorf "ошибка вставки свечи после создания партиции"
                          (Some noPartitionError)) /\
   candles after = candles (pg w)).
Proof.
  intros Hparts t run after. subst after run t.
  unfold SaveCandles. rewrite bind_run, logf_run. cbn [fst snd saveCandlesLoop].
  rewrite bind_run.
  destruct (saveCandle_unpartitioned figi intervalType c w
              (tr ++ [EvLog "Начинаем сохранение свечей"]) Hparts)
    as (tr' & Hrun).
  rewrite Hrun. unfold inFinalSecond.
  destruct (Z.leb_spec (nextMonthStart (cTime c) - Second) (cTime c))
    as [Hfinal | Hin]; cbn [fst snd]; rewrite ret_run;
    cbn [fst snd pg partitions candles dividends instruments];
    repeat split; try reflexivity; lia.
Qed.

Lemma SaveCandles_unpartitioned_witness :
  let t := Date 2025 1 15 12 0 0 0 in
  partitions (pg (emptyWorld t)) = [] /\
  fst (SaveCandles simEnv "BBG000B9XRY4" [candleAt t] CandleInterval1Min
                   (emptyWorld t, [])) = None.
Proof.
  intros t. split; [reflexivity |].
  pose proof (SaveCandles_unpartitioned "BBG000B9XRY4" CandleInterval1Min
                (candleAt t) (emptyWorld t) [] eq_refl) as H.
  cbv zeta in H. destruct H as (_ & _ & _ & Hok & _).
  refine (proj1 (Hok _)).
  unfold inFinalSecond. vm_compute. intros H. now apply H.
Defined.

(** ** The partitions of a year *)

Lemma partitionOf_same_month (t u : Time) :
  Year t = Year u -> Month t = Month u -> partitionOf t = partitionOf u.
Proof.
  intros Hy Hm.
  unfold partitionOf, partitionName, partitionMonthEnd, partitionMonthStart.
  now rewrite Hy, Hm.
Qed.

Lemma monthStart_partition (y m : Z) :
  1 <= m <= 12 ->
  partitionMonthStart (Date y m 1 0 0 0 0) = Date y m 1 0 0 0 0 /\
  nextMonthStart (Date y m 1 0 0 0 0) = Date y (m + 1) 1 0 0 0 0.
Proof.
  intros Hm. destruct (monthStart_fields y m Hm) as [Hy Hmo].
  unfold partitionMonthStart, nextMonthStart. now rewrite Hy, Hmo.
Qed.

Lemma monthStart_step (y m : Z) :
  1 <= m <= 12 -> Date y m 1 0 0 0 0 < Date y (m + 1) 1 0 0 0 0.
Proof.
  intros Hm. destruct (monthStart_partition y m Hm) as [_ Hn].
  pose proof (month_bounds (Date y m 1 0 0 0 0)) as [Hb _].
  rewrite Hn in Hb. lia.
Qed.

Lemma monthStart_mono (y : Z) (n : nat) :
  forall a, 1 <= a -> a + Z.of_nat n <= 13 ->
            Date y a 1 0 0 0 0 <= Date y (a + Z.of_nat n) 1 0 0 0 0.
Proof.
  induction n as [| n IH]; intros a Ha Hb.
  - rewrite Z.add_0_r. lia.
  - pose proof (monthStart_step y (a + Z.of_nat n) ltac:(lia)) as Hs.
    specialize (IH a Ha ltac:(lia)).
    replace (a + Z.of_nat (S n)) with (a + Z.of_nat n + 1) by lia. lia.
Qed.

Lemma monthStart_le (y a b : Z) :
  1 <= a -> a <= b -> b <= 13 -> Date y a 1 0 0 0 0 <= Date y b 1 0 0 0 0.
Proof.
  intros Ha Hab Hb.
  replace b with (a + Z.of_nat (Z.to_nat (b - a))) by lia.
  apply monthStart_mono; lia.
Qed.

(** The partition of month [m] of year [y]: its name and its range. *)
Lemma monthPartition (y m : Z) :
  1 <= m <= 12 ->
  partitionOf (Date y m 1 0 0 0 0)
  = mkPartition (bytes "candles_" ++ sprintf_d y ++ "_"%char :: sprintf_02d m)
                (Date y m 1 0 0 0 0)
                (Date y (m + 1) 1 0 0 0 0 - Second).
Proof.
  intros Hm. destruct (monthStart_fields y m Hm) as [Hy Hmo].
  destruct (monthStart_partition y m Hm) as [Hs Hn].
  unfold partitionOf. rewrite partitionMonthEnd_eq, Hs, Hn.
  unfold partitionName. now rewrite Hy, Hmo.
Qed.

Lemma sprintf_02d_inj (a b : Z) :
  1 <= a <= 12 -> 1 <= b <= 12 -> sprintf_02d a = sprintf_02d b -> a = b.
Proof.
  intros Ha Hb.
  assert (a = 1 \/ a = 2 \/ a = 3 \/ a = 4 \/ a = 5 \/ a = 6 \/ a = 7 \/
          a = 8 \/ a = 9 \/ a = 10 \/ a = 11 \/ a = 12) as Ca by lia.
  assert (b = 1 \/ b = 2 \/ b = 3 \/ b = 4 \/ b = 5 \/ b = 6 \/ b = 7 \/
          b = 8 \/ b = 9 \/ b = 10 \/ b = 11 \/ b = 12) as Cb by lia.
  clear Ha Hb.
  repeat (destruct Ca as [-> | Ca]);
    repeat (destruct Cb as [-> | Cb]); subst;
    vm_compute; intros H; first [reflexivity | discriminate H].
Qed.

(** Members of the list of partitions of the months [k .. k + n - 1]. *)
Lemma yearPartitions_In (y : Z) (n : nat) :
  forall k p, In p (yearPartitions n y k) ->
              exists j, k <= j < k + Z.of_nat n /\
                        p = partitionOf (Date y j 1 0 0 0 0).
Proof.
  induction n as [| n IH]; intros k p; [intros [] |].
  cbn [yearPartitions]. intros [<- | Hin].
  - exists k. split; [lia | reflexivity].
  - destruct (IH _ _ Hin) as (j & Hj & ->). exists j. split; [lia | reflexivity].
Qed.

Lemma yearPartitions_app (y : Z) (n : nat) :
  forall k, yearPartitions (S n) y k
            = yearPartitions n y k
              ++ [partitionOf (Date y (k + Z.of_nat n) 1 0 0 0 0)].
Proof.
  induction n as [| n IH]; intros k.
  - cbn. now rewrite Z.add_0_r.
  - change (yearPartitions (S (S n)) y k)
      with (partitionOf (Date y k 1 0 0 0 0) :: yearPartitions (S n) y (k + 1)).
    rewrite IH. cbn [yearPartitions app].
    replace (k + 1 + Z.of_nat n) with (k + Z.of_nat (S n)) by lia. reflexivity.
Qed.

Lemma partitionOf_fields (t : Time) :
  partitionOf t
  = mkPartition (partitionName t) (partitionMonthStart t) (partitionMonthEnd t).
Proof. reflexivity. Qed.

Lemma pgExec_create (name : list ascii) (a b : Time) (st : PgState) :
  pgExec (CreatePartitionOf name a b) st
  = if existsb (fun p => bool_decide (pName p = name)) (partitions st)
    then (None, st)
    else if b <=? a then (Some emptyRangeError, st)
    else if existsb (rangesOverlap a b) (partitions st)
    then (Some overlapError, st)
    else (None,
          mkPgState (partitions st ++ [mkPartition name a b])
            (candles st) (dividends st) (instruments st) (dbNow st)).
Proof. reflexivity. Qed.

Lemma existsb_false {A : Type} (f : A -> bool) (l : list A) :
  (forall x, In x l -> f x = false) -> existsb f l = false.
Proof.
  intros H. destruct (existsb f l) eqn:E; [| reflexivity].
  apply existsb_exists in E as (x & Hin & Hx). rewrite (H x Hin) in Hx.
  discriminate.
Qed.

(** Creating the partition of month [k] after those of the months before
    it in the same year. *)
Lemma pgExec_create_next (y k : Z) (st : PgState) :
  1 <= k <= 12 ->
  partitions st = yearPartitions (Z.to_nat (k - 1)) y 1 ->
  pgExec (createPartitionQuery (Date y k 1 0 0 0 0)) st
  = (None,
     mkPgState (yearPartitions (Z.to_nat k) y 1)
               (candles st) (dividends st) (instruments st) (dbNow st)).
Proof.
  intros Hk Hparts.
  destruct (monthStart_fields y k Hk) as [Hyear Hmonth].
  destruct (monthStart_partition y k Hk) as [Hstart _].
  remember (Date y k 1 0 0 0 0) as t eqn:Ht.
  assert (partitionName t
          = bytes "candles_" ++ sprintf_d y ++ "_"%char :: sprintf_02d k) as Hname.
  { unfold partitionName. now rewrite Hyear, Hmonth. }
  assert (forall p, In p (partitions st) ->
            exists j, 1 <= j < k /\
              pName p = bytes "candles_" ++ sprintf_d y ++ "_"%char :: sprintf_02d j /\
              pTo p = Date y (j + 1) 1 0 0 0 0 - Second) as Hmembers.
  { intros p Hin. rewrite Hparts in Hin.
    apply yearPartitions_In in Hin as (j & Hj & ->).
    exists j. split; [lia |]. rewrite monthPartition by lia. split; reflexivity. }
  assert (existsb (fun p => bool_decide (pName p = partitionName t)) (partitions st)
          = false) as E1.
  { apply existsb_false. intros p Hin. apply bool_decide_eq_false. intros Hp.
    destruct (Hmembers p Hin) as (j & Hj & Hn & _).
    rewrite Hn, Hname in Hp.
    apply app_inv_head in Hp. apply app_inv_head in Hp. injection Hp as Hp.
    apply sprintf_02d_inj in Hp; lia. }
  assert ((partitionMonthEnd t <=? partitionMonthStart t) = false) as E2.
  { pose proof (monthEnd_after_start t). apply Z.leb_gt. lia. }
  assert (existsb (rangesOverlap (partitionMonthStart t) (partitionMonthEnd t))
                  (partitions st) = false) as E3.
  { apply existsb_false. intros p Hin.
    destruct (Hmembers p Hin) as (j & Hj & _ & Hto).
    unfold rangesOverlap. apply andb_false_iff. left. apply Z.ltb_ge.
    rewrite Hto, Hstart, Ht.
    pose proof (monthStart_le y (j + 1) k ltac:(lia) ltac:(lia) ltac:(lia)).
    unfold Second. lia. }
  unfold createPartitionQuery. rewrite pgExec_create, E1, E2, E3, Hparts.
  replace (Z.to_nat k) with (S (Z.to_nat (k - 1))) by lia.
  rewrite yearPartitions_app.
  replace (1 + Z.of_nat (Z.to_nat (k - 1))) with k by lia.
  rewrite <- Ht. reflexivity.
Qed.

Lemma CreatePartition_run {World : Type} (env : Env World) (t : Time)
      (w : World) (tr : list Event) :
  CreatePartition env t (w, tr)
  = (match fst (dbExec env (createPartitionQuery t) w) with
     | Some e => Some (Errorf "ошибка создания партиции" (Some e))
     | None => None
     end,
     (snd (dbExec env (createPartitionQuery t) w),
      tr ++ [EvExec (createPartitionQuery t)
                    (fst (dbExec env (createPartitionQuery t) w))])).
Proof.
  unfold CreatePartition. rewrite bind_run, exec_run. cbn [fst snd].
  now destruct (fst (dbExec env (createPartitionQuery t) w)).
Qed.

Lemma partitionQuery_partitionOf (t : Time) :
  partitionQuery (partitionOf t) = createPartitionQuery t.
Proof. reflexivity. Qed.

Lemma dbCalls_exec (q : Query) (r : option error) :
  dbCalls [EvExec q r] = [(q, r)].
Proof. reflexivity. Qed.

Lemma createYearLoop_sim (y : Z) (count : nat) :
  forall k (w : SimWorld) (tr : list Event),
    1 <= k -> k + Z.of_nat count = 13 ->
    partitions (pg w) = yearPartitions (Z.to_nat (k - 1)) y 1 ->
    exists tr',
      createYearLoop simEnv count y k (w, tr)
      = (None,
         (mkSim (mkPgState (yearPartitions 12 y 1) (candles (pg w))
                   (dividends (pg w)) (instruments (pg w)) (dbNow (pg w)))
                (clock w) (market w) (payouts w) (apiDown w), tr')) /\
      dbCalls tr'
      = dbCalls tr
        ++ map (fun p => (partitionQuery p, None)) (yearPartitions count y k).
Proof.
  induction count as [| count IH]; intros k w tr Hk Hsum Hparts.
  - exists tr. cbn [createYearLoop].
    change (yearPartitions 0 y k) with (@nil Partition). cbn [map].
    rewrite ret_run, app_nil_r.
    replace (Z.to_nat (k - 1)) with 12%nat in Hparts by lia.
    rewrite <- Hparts. split; [| reflexivity].
    destruct w as [[ps cs ds ins nowDb] clk mk po ad]. reflexivity.
  - cbn [createYearLoop]. rewrite bind_run, CreatePartition_run, dbExec_sim.
    rewrite (pgExec_create_next y k (pg w) ltac:(lia) Hparts).
    cbn [fst snd].
    destruct (IH (k + 1)
                (mkSim (mkPgState (yearPartitions (Z.to_nat k) y 1) (candles (pg w))
                          (dividends (pg w)) (instruments (pg w)) (dbNow (pg w)))
                       (clock w) (market w) (payouts w) (apiDown w))
                (tr ++ [EvExec (createPartitionQuery (Date y k 1 0 0 0 0)) None])
                ltac:(lia) ltac:(lia))
      as (tr' & Hrun & Hcalls).
    { cbn [pg partitions]. f_equal. lia. }
    exists tr'. split; [exact Hrun |].
    rewrite Hcalls, dbCalls_app.
    change (yearPartitions (S count) y k)
      with (partitionOf (Date y k 1 0 0 0 0) :: yearPartitions count y (k + 1)).
    cbn [map]. rewrite <- app_assoc, partitionQuery_partitionOf, dbCalls_exec.
    reflexivity.
Qed.

Lemma yearPartitions_member (y : Z) (n : nat) :
  forall k j, k <= j < k + Z.of_nat n ->
              In (partitionOf (Date y j 1 0 0 0 0)) (yearPartitions n y k).
Proof.
  induction n as [| n IH]; intros k j Hj; [lia |].
  cbn [yearPartitions]. destruct (Z.eq_dec j k) as [-> | Hne].
  - now left.
  - right. apply IH. lia.
Qed.

Lemma yearPartitions_length (y : Z) (n : nat) :
  forall k, length (yearPartitions n y k) = n.
Proof. induction n as [| n IH]; intros k; cbn; [reflexivity | now rewrite IH]. Qed.

(** Which instants of a year its twelve partitions hold. *)
Lemma yearPartitions_cover (y : Z) (u : Time) :
  Year u = y ->
  existsb (fun p => partitionCovers p u) (yearPartitions 12 y 1)
  = negb (nextMonthStart u - Second <=? u).
Proof.
  intros Hy. pose proof (month_bounds u) as [Hb Hm].
  assert (partitionOf (Date y (Month u) 1 0 0 0 0) = partitionOf u) as Hsame.
  { destruct (monthStart_fields y (Month u) Hm) as [Hy' Hm'].
    apply partitionOf_same_month; congruence. }
  assert (partitionMonthStart u = Date y (Month u) 1 0 0 0 0) as Hstart
    by (unfold partitionMonthStart; now rewrite Hy).
  assert (nextMonthStart u = Date y (Month u + 1) 1 0 0 0 0) as Hnext
    by (unfold nextMonthStart; now rewrite Hy).
  destruct (Z.leb_spec (nextMonthStart u - Second) u) as [Hfinal | Hin]; cbn [negb].
  - apply existsb_false. intros p Hp.
    apply yearPartitions_In in Hp as (j & Hj & ->).
    rewrite monthPartition by lia. unfold partitionCovers. cbn [pFrom pTo].
    apply andb_false_iff.
    destruct (Z.lt_trichotomy j (Month u)) as [Hlt | [-> | Hgt]].
    + right. apply Z.ltb_ge.
      pose proof (monthStart_le y (j + 1) (Month u) ltac:(lia) ltac:(lia) ltac:(lia)).
      unfold Second. lia.
    + right. apply Z.ltb_ge. lia.
    + left. apply Z.leb_gt.
      pose proof (monthStart_le y (Month u + 1) j ltac:(lia) ltac:(lia) ltac:(lia)).
      lia.
  - apply existsb_exists. exists (partitionOf u). split.
    + rewrite <- Hsame. apply yearPartitions_member. change (Z.of_nat 12) with 12. lia.
    + rewrite partitionCovers_own.
      destruct (Z.leb_spec (nextMonthStart u - Second) u); [lia | reflexivity].
Qed.

(** X13.  On a candle table without partitions [CreateYearPartitions]
    succeeds: it sends twelve creation statements, one per month from
    January to December, each the statement [CreatePartition] sends for an
    instant of that month, and leaves the twelve partitions they name;
    candles, dividends and instruments are untouched.  The twelve
    partitions hold every instant of the year except the last second of
    each month: an insert at an instant [u] of the year finds a partition
    exactly when [u] is not in the last second of its month. *)
Theorem CreateYearPartitions_coverage (year : Z) (w : SimWorld)
        (tr : list Event) :
  partitions (pg w) = [] ->
  let run := CreateYearPartitions simEnv year (w, tr) in
  let after := pg (fst (snd run)) in
  fst run = None /\
  partitions after = yearPartitions 12 year 1 /\
  length (partitions after) = 12%nat /\
  candles after = candles (pg w) /\
  dividends after = dividends (pg w) /\
  instruments after = instruments (pg w) /\
  dbCalls (snd (snd run))
  = dbCalls tr
    ++ map (fun p => (partitionQuery p, None)) (yearPartitions 12 year 1) /\
  (forall u, Year u = year ->
     In (partitionOf u) (partitions after) /\
     partitionQuery (partitionOf u) = createPartitionQuery u /\
     (existsb (fun p => partitionCovers p u) (partitions after) = true
      <-> ~ inFinalSecond u)).
Proof.
  intros Hparts run after. subst after run. unfold CreateYearPartitions.
  destruct (createYearLoop_sim year 12 1 w tr ltac:(lia) ltac:(lia) Hparts)
    as (tr' & Hrun & Hcalls).
  rewrite Hrun. cbn [fst snd pg partitions candles dividends instruments].
  rewrite yearPartitions_length.
  repeat split; try reflexivity; try exact Hcalls.
  - pose proof (month_bounds u) as [_ Hm].
    destruct (monthStart_fields (Year u) (Month u) Hm) as [Hy' Hm'].
    rewrite <- (partitionOf_same_month (Date (Year u) (Month u) 1 0 0 0 0) u Hy' Hm').
    rewrite H. apply yearPartitions_member. change (Z.of_nat 12) with 12. lia.
  - rewrite (yearPartitions_cover year u H). unfold inFinalSecond.
    destruct (Z.leb_spec (nextMonthStart u - Second) u); cbn; [discriminate | lia].
  - rewrite (yearPartitions_cover year u H). unfold inFinalSecond.
    destruct (Z.leb_spec (nextMonthStart u - Second) u); cbn; [lia | reflexivity].
Qed.

Lemma CreateYearPartitions_coverage_witness :
  let w := emptyWorld (Date 2025 1 1 0 0 0 0) in
  partitions (pg w) = [] /\
  map pName (partitions (pg (fst (snd (CreateYearPartitions simEnv 2025 (w, []))))))
  = map pName (yearPartitions 12 2025 1).
Proof.
  intros w. split; [reflexivity |].
  pose proof (CreateYearPartitions_coverage 2025 w [] eq_refl) as H.
  cbv zeta in H. destruct H as (_ & Hp & _).
  exact (f_equal (map pName) Hp).
Defined.

Example CreateYearPartitions_2025 :
  map (fun p => string_of_list_ascii (pName p)) (yearPartitions 12 2025 1)
  = [ "candles_2025_01"; "candles_2025_02"; "candles_2025_03";
      "candles_2025_04"; "candles_2025_05"; "candles_2025_06";
      "candles_2025_07"; "candles_2025_08"; "candles_2025_09";
      "candles_2025_10"; "candles_2025_11"; "candles_2025_12" ]%string.
Proof. vm_compute. reflexivity. Qed.

(** ** The start date *)

Lemma clock_recompose (t : Time) :
  t = (unixDay t * secondsPerDay
       + (clockHour t * 3600 + clockMinute t * 60 + clockSecond t)) * Second
      + Nanos t.
Proof.
  unfold unixDay, clockHour, clockMinute, clockSecond, secondOfDay, Nanos,
    secondsPerDay, Second.
  divlia.
Qed.

Lemma daysFromCivil_years (y m : Z) :
  1 <= m <= 12 ->
  1825 <= daysFromCivil y m 1 - daysFromCivil (y - 5) m 1 <= 1827.
Proof.
  intros Hm. unfold daysFromCivil. cbv zeta.
  destruct (m <=? 2); destruct (2 <? m); divlia.
Qed.

(** Five years back is five calendar years back: 1825 to 1827 days. *)
Lemma AddDate_five_years_back (t : Time) :
  exists days, 1825 <= days <= 1827 /\ AddDate t (-5) 0 0 = t - days * dayNanos.
Proof.
  pose proof (civil_month (unixDay t)) as H. rewrite civil_fields in H.
  destruct H as (Hm & Hd & Hstart & _ & _).
  pose proof (daysFromCivil_years (Year t) (Month t) Hm) as Hyears.
  exists (daysFromCivil (Year t) (Month t) 1
          - daysFromCivil (Year t - 5) (Month t) 1).
  split; [exact Hyears |].
  pose proof (clock_recompose t) as Ht.
  unfold AddDate, Date. cbv zeta.
  replace ((Month t + 0 - 1) / 12) with 0 by divlia.
  replace ((Month t + 0 - 1) mod 12 + 1) with (Month t) by divlia.
  replace (Year t + -5 + 0) with (Year t - 5) by lia.
  assert (dayNanos = secondsPerDay * Second) as Hn by reflexivity.
  rewrite Hn. unfold secondsPerDay in *. unfold Second in *. lia.
Qed.

Lemma parseDigits_bounds (s : list ascii) :
  forall acc v, parseDigits acc s = Some v -> 0 <= acc ->
    acc * 10 ^ Z.of_nat (length s) <= v < (acc + 1) * 10 ^ Z.of_nat (length s).
Proof.
  induction s as [| c r IH]; intros acc v Hv Hacc.
  - cbn in *. injection Hv as <-. lia.
  - cbn [parseDigits] in Hv. destruct (isDigit c) eqn:Hc; [| discriminate].
    assert (0 <= digitVal c <= 9) as Hd by (unfold isDigit, digitVal in *; lia).
    specialize (IH _ _ Hv ltac:(lia)).
    cbn [length]. rewrite Nat2Z.inj_succ, Z.pow_succ_r by lia.
    assert (0 < 10 ^ Z.of_nat (length r)) by (apply Z.pow_pos_nonneg; lia).
    nia.
Qed.

Lemma digitVal_inj (a b : ascii) : digitVal a = digitVal b -> a = b.
Proof.
  unfold digitVal, byteZ. intros H.
  assert (N_of_ascii a = N_of_ascii b) as Hn by lia.
  rewrite <- (ascii_N_embedding a), <- (ascii_N_embedding b). now rewrite Hn.
Qed.

(** Two digit strings of the same length with the same value are equal. *)
Lemma parseDigits_inj (a : list ascii) :
  forall b acc v, length a = length b -> 0 <= acc ->
                  parseDigits acc a = Some v -> parseDigits acc b = Some v ->
                  a = b.
Proof.
  induction a as [| c r IH]; intros [| c' r'] acc v Hlen Hacc Ha Hb;
    try discriminate Hlen; [reflexivity |].
  cbn [parseDigits] in Ha, Hb.
  destruct (isDigit c) eqn:Hc; [| discriminate].
  destruct (isDigit c') eqn:Hc'; [| discriminate].
  assert (0 <= digitVal c <= 9) as Hd by (unfold isDigit, digitVal in *; lia).
  assert (0 <= digitVal c' <= 9) as Hd' by (unfold isDigit, digitVal in *; lia).
  injection Hlen as Hlen.
  pose proof (parseDigits_bounds _ _ _ Ha ltac:(lia)) as B1.
  pose proof (parseDigits_bounds _ _ _ Hb ltac:(lia)) as B2.
  rewrite <- Hlen in B2.
  assert (0 < 10 ^ Z.of_nat (length r)) by (apply Z.pow_pos_nonneg; lia).
  assert (digitVal c = digitVal c') as Heq by nia.
  apply digitVal_inj in Heq. subst c'.
  f_equal.
  apply (IH r' (10 * acc + digitVal c) v); [exact Hlen | lia | exact Ha | exact Hb].
Qed.

(** [appendInt] gives back the digits of a number read from [width]
    digits. *)
Lemma appendInt_digits (ds : list ascii) (v : Z) :
  parseDigits 0 ds = Some v -> ds <> [] ->
  appendInt v (length ds) = ds.
Proof.
  intros Hv Hne.
  pose proof (parseDigits_bounds _ _ _ Hv ltac:(lia)) as Hb.
  unfold appendInt. destruct (Z.ltb_spec v 0); [lia |].
  assert (length (formatUint v) <= length ds)%nat as Hlen.
  { destruct (length ds) as [| k] eqn:Hk; [destruct ds; [congruence | discriminate] |].
    apply (formatUint_aux_length _ k). lia. }
  symmetry. eapply parseDigits_inj with (acc := 0); [| lia | exact Hv |].
  - now rewrite padZeros_length.
  - unfold padZeros. rewrite parseDigits_zeros. apply formatUint_value. lia.
Qed.

(** The shape [parseDate] accepts. *)
Lemma parseDate_shape (s : list ascii) (t : Time) :
  parseDate s = Some t ->
  exists ys ms ds y m d,
    s = ys ++ "-"%char :: ms ++ "-"%char :: ds /\
    length ys = 4%nat /\ length ms = 2%nat /\ length ds = 2%nat /\
    parseDigits 0 ys = Some y /\ parseDigits 0 ms = Some m /\
    parseDigits 0 ds = Some d /\
    1 <= m <= 12 /\ 1 <= d <= daysIn m y /\
    t = Date y m d 0 0 0 0.
Proof.
  unfold parseDate.
  destruct s as [| y1 [| y2 [| y3 [| y4 [| s1 [| m1 [| m2 [| s2 [| d1 [| d2 [| x r]]]]]]]]]]];
    try discriminate.
  destruct (forallb isDigit [y1; y2; y3; y4; m1; m2; d1; d2]
            && Ascii.eqb s1 "-" && Ascii.eqb s2 "-") eqn:Hok; [| discriminate].
  apply andb_true_iff in Hok as [Hok Hs2]. apply andb_true_iff in Hok as [Hdig Hs1].
  apply Ascii.eqb_eq in Hs1, Hs2. subst s1 s2.
  cbn [forallb] in Hdig.
  repeat (apply andb_true_iff in Hdig as [?Hd Hdig]).
  cbv zeta.
  destruct ((1 <=? 10 * digitVal m1 + digitVal m2)
            && (10 * digitVal m1 + digitVal m2 <=? 12)
            && (1 <=? 10 * digitVal d1 + digitVal d2)
            && (10 * digitVal d1 + digitVal d2
                <=? daysIn (10 * digitVal m1 + digitVal m2)
                           (1000 * digitVal y1 + 100 * digitVal y2
                            + 10 * digitVal y3 + digitVal y4))) eqn:Hr;
    [| discriminate].
  intros [= <-].
  repeat (apply andb_true_iff in Hr as [Hr ?Hr]).
  exists [y1; y2; y3; y4], [m1; m2], [d1; d2].
  exists (1000 * digitVal y1 + 100 * digitVal y2 + 10 * digitVal y3 + digitVal y4),
    (10 * digitVal m1 + digitVal m2), (10 * digitVal d1 + digitVal d2).
  split; [reflexivity |]. split; [reflexivity |]. split; [reflexivity |].
  split; [reflexivity |].
  cbn [parseDigits]. rewrite Hd, Hd0, Hd1, Hd2, Hd3, Hd4, Hd5, Hd6.
  split; [f_equal; lia |]. split; [f_equal; lia |]. split; [f_equal; lia |].
  split; [lia |]. split; [lia |]. reflexivity.
Qed.

(** X15.  A start date that [time.Parse] accepts in the layout
    [2006-01-02] survives the normalisation of the command-line loader:
    formatting the parsed time in the same layout gives the text back, so
    [cfg.Loading.StartDate] is left as it was written unless the date is
    after the current time, where the loader stops.  The parsed time is
    midnight UTC of the day the text names. *)
Theorem parseDate_formatDate (startDate : string) (parsedTime : Time) :
  parseDate (bytes startDate) = Some parsedTime ->
  formatDate parsedTime = bytes startDate /\
  (forall current,
      normalizeStartDate startDate current
      = if After parsedTime current then None else Some (bytes startDate)) /\
  (exists y m d,
     0 <= y <= 9999 /\ 1 <= m <= 12 /\ 1 <= d <= daysIn m y /\
     Year parsedTime = y /\ Month parsedTime = m /\ Day parsedTime = d) /\
  secondOfDay parsedTime = 0 /\ Nanos parsedTime = 0.
Proof.
  intros Hparse.
  destruct (parseDate_shape _ _ Hparse)
    as (ys & ms & ds & y & m & d & Hs & Ly & Lm & Ld & Hy & Hm & Hd & Rm & Rd & Ht).
  destruct (Date_fields y m d 0 0 0 0 Rm Rd ltac:(lia) ltac:(lia) ltac:(lia)
              ltac:(unfold Second; lia))
    as (Fy & Fm & Fd & Fh & Fmi & Fs & Fn).
  rewrite <- Ht in Fy, Fm, Fd, Fh, Fmi, Fs, Fn.
  assert (formatDate parsedTime = bytes startDate) as Hfmt.
  { unfold formatDate. rewrite Fy, Fm, Fd, Hs.
    rewrite <- Ly at 1. rewrite <- Lm at 1. rewrite <- Ld at 1.
    rewrite !appendInt_digits;
      first [ reflexivity | assumption
            | intros ->; discriminate ]. }
  split; [exact Hfmt |].
  split; [intros current; unfold normalizeStartDate; now rewrite Hparse, Hfmt |].
  split.
  { exists y, m, d.
    pose proof (parseDigits_bounds _ _ _ Hy ltac:(lia)) as By.
    rewrite Ly in By. change (10 ^ Z.of_nat 4) with 10000 in By.
    repeat split; try assumption; lia. }
  unfold clockHour, clockMinute, clockSecond in *. split; [| exact Fn].
  clear - Fh Fmi Fs. divlia.
Qed.

Lemma parseDate_formatDate_witness :
  parseDate (bytes "2024-02-29") = Some (Date 2024 2 29 0 0 0 0) /\
  formatDate (Date 2024 2 29 0 0 0 0) = bytes "2024-02-29".
Proof.
  assert (parseDate (bytes "2024-02-29") = Some (Date 2024 2 29 0 0 0 0)) as H
    by (vm_compute; reflexivity).
  split; [exact H |].
  exact (proj1 (parseDate_formatDate "2024-02-29" _ H)).
Defined.

(** X14.  With no start date configured, or one [time.Parse] rejects,
    [GetStartDate] reads the clock once and returns the instant five
    calendar years before it, at the same time of day: between 1825 and
    1827 days earlier, hence never a time after the current one.  With a
    date [time.Parse] accepts it returns the parsed time and does not
    read the clock. *)
Theorem GetStartDate_fallback {World : Type} (env : Env World) (cfg : Config)
        (w : World) (tr : list Event) :
  let current := fst (timeNow env w) in
  let run := GetStartDate env cfg (w, tr) in
  (StartDate cfg = EmptyString \/ parseDate (bytes (StartDate cfg)) = None ->
   fst run = AddDate current (-5) 0 0 /\
   (exists days, 1825 <= days <= 1827 /\ fst run = current - days * dayNanos) /\
   After (fst run) current = false /\
   snd run = (snd (timeNow env w), tr)) /\
  (forall t, StartDate cfg <> EmptyString ->
             parseDate (bytes (StartDate cfg)) = Some t ->
             run = (t, (w, tr))).
Proof.
  intros current run.
  assert (bind (now env) (fun t => ret (AddDate t (-5) 0 0)) (w, tr)
          = (AddDate current (-5) 0 0, (snd (timeNow env w), tr))) as Hfall.
  { rewrite bind_run, now_run, ret_run. reflexivity. }
  split.
  - intros Hbad.
    assert (run = (AddDate current (-5) 0 0, (snd (timeNow env w), tr))) as Hrun.
    { subst run. unfold GetStartDate.
      destruct (String.eqb_spec (StartDate cfg) "") as [He | Hne]; [exact Hfall |].
      destruct Hbad as [He | Hnone]; [contradiction |].
      rewrite Hnone. exact Hfall. }
    rewrite Hrun. cbn [fst snd].
    destruct (AddDate_five_years_back current) as (days & Hdays & Heq).
    split; [reflexivity |]. split; [now exists days |]. split; [| reflexivity].
    unfold After. apply Z.ltb_ge. rewrite Heq.
    assert (0 < dayNanos) by reflexivity. nia.
  - intros t Hne Hparse. subst run. unfold GetStartDate.
    destruct (String.eqb_spec (StartDate cfg) "") as [He | _]; [contradiction |].
    rewrite Hparse. reflexivity.
Qed.

Lemma GetStartDate_fallback_witness :
  let cfg := mkConfig "2024-13-01" ∅ 0 in
  let w := emptyWorld (Date 2025 3 1 12 0 0 0) in
  (StartDate cfg = EmptyString \/ parseDate (bytes (StartDate cfg)) = None) /\
  fst (GetStartDate simEnv cfg (w, [])) = AddDate (Date 2025 3 1 12 0 0 0) (-5) 0 0.
Proof.
  intros cfg w.
  assert (StartDate cfg = EmptyString \/ parseDate (bytes (StartDate cfg)) = None)
    as H by (right; vm_compute; reflexivity).
  split; [exact H |].
  exact (proj1 (proj1 (GetStartDate_fallback simEnv cfg w []) H)).
Defined.

(** One day later is 24 hours later. *)
Lemma AddDate_next_day (t : Time) : AddDate t 0 0 1 = t + dayNanos.
Proof.
  pose proof (civil_month (unixDay t)) as H. rewrite civil_fields in H.
  destruct H as (Hm & Hd & Hstart & _ & _).
  pose proof (clock_recompose t) as Ht.
  unfold AddDate, Date. cbv zeta.
  replace ((Month t + 0 - 1) / 12) with 0 by divlia.
  replace ((Month t + 0 - 1) mod 12 + 1) with (Month t) by divlia.
  replace (Year t + 0 + 0) with (Year t) by lia.
  assert (dayNanos = secondsPerDay * Second) as Hn by reflexivity.
  rewrite Hn. unfold secondsPerDay in *. unfold Second in *. lia.
Qed.

Lemma GetLastDividendDate_run {World : Type} (env : Env World) (figi : string)
      (w : World) (tr : list Event) :
  GetLastDividendDate env figi (w, tr)
  = (match fst (dbQueryTime env (MaxDividendDate figi) w) with
     | ScanValue t => t
     | _ => zeroTime
     end, (snd (dbQueryTime env (MaxDividendDate figi) w), tr)).
Proof.
  unfold GetLastDividendDate. rewrite bind_run, queryTime_run. cbn [fst snd].
  now destruct (fst (dbQueryTime env (MaxDividendDate figi) w)).
Qed.

(** X16.  When a payment date is stored for the instrument,
    [ProcessInstrumentDividends] asks for dividends from exactly 24 hours
    after the latest one, whatever start date is configured (which is
    still evaluated).  While the current time is less than 24 hours past
    that date, in particular while the date lies in the future, it returns
    nil after the single line that the dividends are up to date: the API
    is not asked and nothing is written. *)
Theorem ProcessInstrumentDividends_window {World : Type} (env : Env World)
        (cfg : Config) (figi : string) (w : World) (tr : list Event)
        (last : Time) :
  fst (dbQueryTime env (MaxDividendDate figi) w) = ScanValue last ->
  last <> zeroTime ->
  let w1 := snd (dbQueryTime env (MaxDividendDate figi) w) in
  let endTime := fst (timeNow env w1) in
  let w3 := fst (snd (GetStartDate env cfg (snd (timeNow env w1), tr))) in
  let run := ProcessInstrumentDividends env cfg figi (w, tr) in
  (endTime < last + dayNanos ->
   run = (None, (w3, tr ++ [EvLog "Дивиденды актуальны, пропускаем"]))) /\
  (last + dayNanos <= endTime ->
   run = (let! r := LoadDividends env figi (last + dayNanos) endTime in
          match r with
          | inl err => ret (Some (Errorf "ошибка загрузки дивидендов" (Some err)))
          | inr dividends => storeDividends env dividends
          end) (w3, tr ++ [EvLog "Загружаем дивиденды"])).
Proof.
  intros Hlast Hnz w1 endTime w3 run.
  assert (IsZero last = false) as Hz by (unfold IsZero; now apply Z.eqb_neq).
  pose proof (GetStartDate_trace env cfg (snd (timeNow env w1)) tr) as Htr.
  assert (run
          = (if After (last + dayNanos) endTime
             then do! logf "Дивиденды актуальны, пропускаем" in ret None
             else
               do! logf "Загружаем дивиденды" in
               let! r := LoadDividends env figi (last + dayNanos) endTime in
               match r with
               | inl err =>
                   ret (Some (Errorf "ошибка загрузки дивидендов" (Some err)))
               | inr dividends => storeDividends env dividends
               end) (w3, tr)) as Hrun.
  { subst run. unfold ProcessInstrumentDividends.
    rewrite bind_run, GetLastDividendDate_run, Hlast. cbn [fst snd].
    rewrite bind_run, now_run. cbn [fst snd]. fold w1. fold endTime.
    rewrite bind_run. rewrite Hz. cbn [negb].
    rewrite AddDate_next_day.
    destruct (GetStartDate env cfg (snd (timeNow env w1), tr))
      as [s [w3' tr3]] eqn:Hs.
    cbn [fst snd] in Htr. subst tr3. subst w3. cbn [fst snd]. reflexivity. }
  split; intros Hcmp; rewrite Hrun; unfold After.
  - destruct (Z.ltb_spec endTime (last + dayNanos)); [| lia].
    rewrite bind_run, logf_run. reflexivity.
  - destruct (Z.ltb_spec endTime (last + dayNanos)); [lia |].
    rewrite bind_run, logf_run. reflexivity.
Qed.

Lemma ProcessInstrumentDividends_window_witness :
  let announced := Date 2025 6 1 0 0 0 0 in
  let w := mkSim (mkPgState [] [] [mkDividend "BBG004730N88" announced None 0 "RUB" None]
                    ∅ (Date 2025 5 20 9 0 0 0))
             (Date 2025 5 20 9 0 0 0) [] [] None in
  fst (dbQueryTime simEnv (MaxDividendDate "BBG004730N88") w) = ScanValue announced /\
  announced <> zeroTime /\
  fst (ProcessInstrumentDividends simEnv dailyConfig "BBG004730N88" (w, [])) = None.
Proof.
  intros announced w.
  assert (fst (dbQueryTime simEnv (MaxDividendDate "BBG004730N88") w)
          = ScanValue announced) as H1 by (vm_compute; reflexivity).
  assert (announced <> zeroTime) as H2 by (vm_compute; discriminate).
  split; [exact H1 |]. split; [exact H2 |].
  rewrite (proj1 (ProcessInstrumentDividends_window simEnv dailyConfig
                    "BBG004730N88" w [] announced H1 H2));
    [reflexivity | vm_compute; reflexivity].
Defined.

(** ** Saved candles and the last loaded time *)

Lemma sameCandleKey_rowKey (new r : CandleRow) :
  sameCandleKey (rFigi new) (rTime new) (rInterval new) r = true
  <-> rowKey new = rowKey r.
Proof.
  unfold sameCandleKey, rowKey. rewrite !andb_true_iff, !String.eqb_eq, Z.eqb_eq.
  split; [intros [[-> ->] ->]; reflexivity | intros [= -> -> ->]; auto].
Qed.

(** An upsert adds the key of the new row and loses none. *)
Lemma upsertCandle_keys (new : CandleRow) (rows : list CandleRow)
      (k : string * Time * string) :
  In k (map rowKey (upsertCandle new rows))
  <-> k = rowKey new \/ In k (map rowKey rows).
Proof.
  induction rows as [| r rest IH]; cbn [upsertCandle map In].
  - intuition.
  - destruct (sameCandleKey (rFigi new) (rTime new) (rInterval new) r) eqn:Hk.
    + apply sameCandleKey_rowKey in Hk. cbn [map In].
      change (rowKey (mkCandleRow (rFigi r) (rTime r) (rInterval r) (rOpen new)
                        (rHigh new) (rLow new) (rClose new) (rVolume new)))
        with (rowKey r).
      rewrite Hk. intuition.
    + cbn [map In]. rewrite IH. intuition.
Qed.

Lemma pgExec_insert_cases (figi intervalType : string) (c : HistoricCandle)
      (st : PgState) :
  pgExec (insertCandleQuery figi c intervalType) st
  = (None, mkPgState (partitions st)
             (upsertCandle (candleRow figi c intervalType) (candles st))
             (dividends st) (instruments st) (dbNow st))
  \/ pgExec (insertCandleQuery figi c intervalType) st = (Some noPartitionError, st).
Proof.
  unfold insertCandleQuery, pgExec, candleRow.
  destruct (existsb _ _); [now left | now right].
Qed.

Lemma pgExec_create_candles (t : Time) (st : PgState) :
  candles (snd (pgExec (createPartitionQuery t) st)) = candles st.
Proof.
  unfold createPartitionQuery.
  generalize (partitionName t) (partitionMonthStart t) (partitionMonthEnd t).
  intros name a b. unfold pgExec.
  destruct (existsb _ _); [reflexivity |].
  destruct (b <=? a); [reflexivity |].
  destruct (existsb _ _); reflexivity.
Qed.

(** A candle [saveCandle] reports no error for is in the table, stored
    by an upsert of its row. *)
Lemma saveCandle_stored (figi intervalType : string) (c : HistoricCandle)
      (w w' : SimWorld) (tr tr' : list Event) :
  saveCandle simEnv figi intervalType c (w, tr) = (None, (w', tr')) ->
  candles (pg w')
  = upsertCandle (candleRow figi c intervalType) (candles (pg w)).
Proof.
  intros Hrun.
  pose proof (dbExec_sim (insertCandleQuery figi c intervalType) w) as E1.
  destruct (pgExec_insert_cases figi intervalType c (pg w)) as [E | E];
    rewrite E in E1; cbn [fst snd] in E1.
  - rewrite (saveCandle_inserted simEnv figi intervalType c w _ tr E1) in Hrun.
    injection Hrun as <- _. reflexivity.
  - pose proof (dbExec_sim (createPartitionQuery (cTime c))
                  (mkSim (pg w) (clock w) (market w) (payouts w) (apiDown w)))
      as E2.
    cbn [pg clock market payouts apiDown] in E2.
    pose proof (pgExec_create_candles (cTime c) (pg w)) as Hkeep.
    destruct (pgExec (createPartitionQuery (cTime c)) (pg w))
      as [createRes st2] eqn:Hcreate.
    cbn [fst snd] in E2, Hkeep.
    destruct (saveCandle_partition simEnv figi intervalType c w _ _ tr
                noPartitionError createRes E1 eq_refl E2) as [line H].
    cbv zeta in H. destruct createRes as [ce |].
    + rewrite H in Hrun. discriminate Hrun.
    + pose proof (dbExec_sim (insertCandleQuery figi c intervalType)
                    (mkSim st2 (clock w) (market w) (payouts w) (apiDown w)))
        as E3.
      cbn [pg clock market payouts apiDown] in E3.
      destruct (pgExec_insert_cases figi intervalType c st2) as [E' | E'];
        rewrite E' in E3; cbn [fst snd] in E3;
        rewrite (H _ _ E3) in Hrun; [| discriminate Hrun].
      injection Hrun as <- _. cbn [pg candles]. now rewrite Hkeep.
Qed.

Lemma saveCandlesLoop_keys (figi intervalType : string)
      (cs : list HistoricCandle) :
  forall (w w' : SimWorld) (tr tr' : list Event),
    saveCandlesLoop simEnv figi intervalType cs (w, tr) = (None, (w', tr')) ->
    forall k,
      In k (map rowKey (candles (pg w')))
      <-> In k (map (fun c => (figi, cTime c, intervalType)) cs)
          \/ In k (map rowKey (candles (pg w))).
Proof.
  induction cs as [| c rest IH]; intros w w' tr tr' Hrun k.
  - cbn in Hrun. injection Hrun as <- _. cbn. intuition.
  - cbn [saveCandlesLoop] in Hrun. rewrite bind_run in Hrun.
    destruct (saveCandle simEnv figi intervalType c (w, tr))
      as [[err |] [w1 tr1]] eqn:Hc; cbn [fst snd] in Hrun.
    + discriminate Hrun.
    + rewrite (IH _ _ _ _ Hrun k).
      rewrite (saveCandle_stored _ _ _ _ _ _ _ Hc), upsertCandle_keys.
      cbn [map In]. unfold candleRow, rowKey at 1. cbn [rFigi rTime rInterval].
      intuition.
Qed.

(** X17.  After [SaveCandles] has returned nil for a batch that is not
    empty, [GetLastLoadedTime] of the pair finds a time without error: the
    newest among the candles of the batch and the rows of the pair that
    were stored before.  No candle of the batch is newer than the time
    found, so the progress read back never lags behind what was saved. *)
Theorem SaveCandles_GetLastLoadedTime (figi intervalType : string)
        (cs : list HistoricCandle) (w w' : SimWorld) (tr tr' : list Event) :
  SaveCandles simEnv figi cs intervalType (w, tr) = (None, (w', tr')) ->
  cs <> [] ->
  exists t,
    GetLastLoadedTime simEnv figi intervalType (w', tr') = ((t, None), (w', tr')) /\
    (forall c, In c cs -> cTime c <= t) /\
    (forall r, In r (candles (pg w)) ->
               rFigi r = figi -> rInterval r = intervalType -> rTime r <= t) /\
    ((exists c, In c cs /\ cTime c = t)
     \/ (exists r, In r (candles (pg w)) /\
                   rFigi r = figi /\ rInterval r = intervalType /\ rTime r = t)).
Proof.
  intros Hrun Hne.
  assert (exists tr0,
             saveCandlesLoop simEnv figi intervalType cs (w, tr0)
             = (None, (w', tr'))) as [tr0 Hloop].
  { unfold SaveCandles in Hrun. destruct cs as [| c rest]; [congruence |].
    rewrite bind_run, logf_run in Hrun. cbn [fst snd] in Hrun. eauto. }
  pose proof (saveCandlesLoop_keys _ _ _ _ _ _ _ Hloop) as Hkeys.
  set (ofPair := fun r : CandleRow =>
                   String.eqb figi (rFigi r) && String.eqb intervalType (rInterval r)).
  assert (forall r, ofPair r = true <-> rFigi r = figi /\ rInterval r = intervalType)
    as HofPair.
  { intros r. unfold ofPair. rewrite andb_true_iff, !String.eqb_eq.
    intuition congruence. }
  assert (forall u, In u (map rTime (filter ofPair (candles (pg w')))) <->
                    In (figi, u, intervalType) (map rowKey (candles (pg w'))))
    as Htimes.
  { intros u. rewrite !in_map_iff. split.
    - intros (r & <- & Hr).
      apply list_elem_of_In, list_elem_of_filter in Hr as [Hp Hr].
      apply Is_true_true, HofPair in Hp as [<- <-].
      exists r. split; [reflexivity | now apply list_elem_of_In].
    - intros (r & [= Hf Ht Hi] & Hr). exists r. split; [exact Ht |].
      apply list_elem_of_In, list_elem_of_filter. split.
      + apply Is_true_true, HofPair. now split.
      + now apply list_elem_of_In. }
  rewrite GetLastLoadedTime_run.
  change (dbQueryTime simEnv (MaxCandleTime figi intervalType) w')
    with (maxTimeOf (map rTime (filter ofPair (candles (pg w')))), w').
  cbn [fst snd].
  destruct (maxTimeOf (map rTime (filter ofPair (candles (pg w')))))
    as [e | | t] eqn:Hmax.
  - destruct (map rTime (filter ofPair (candles (pg w')))); discriminate Hmax.
  - exfalso. destruct cs as [| c rest]; [congruence |].
    assert (In (cTime c) (map rTime (filter ofPair (candles (pg w'))))) as Hin.
    { apply Htimes, Hkeys. left. now left. }
    destruct (map rTime (filter ofPair (candles (pg w')))); [destruct Hin |].
    discriminate Hmax.
  - apply maxTimeOf_spec in Hmax as [Hin Hle]. exists t.
    split; [reflexivity |]. split; [| split].
    + intros c Hc. apply Hle, Htimes, Hkeys. left.
      apply in_map_iff. now exists c.
    + intros r Hr Hf Hi. apply Hle, Htimes, Hkeys. right.
      apply in_map_iff. exists r. split; [| exact Hr].
      unfold rowKey. now rewrite Hf, Hi.
    + apply Htimes, Hkeys in Hin as [Hin | Hin]; apply in_map_iff in Hin.
      * destruct Hin as (c & [= Ht] & Hc). left. now exists c.
      * destruct Hin as (r & [= Hf Ht Hi] & Hr). right. now exists r.
Qed.

Lemma SaveCandles_GetLastLoadedTime_witness :
  let w := januaryWorld in
  let c := candleAt (Date 2025 1 15 10 0 0 0) in
  let run := SaveCandles simEnv "BBG004730N88" [c] CandleIntervalDay (w, []) in
  fst run = None /\
  exists t,
    fst (GetLastLoadedTime simEnv "BBG004730N88" CandleIntervalDay (snd run))
    = (t, None) /\ cTime c <= t.
Proof.
  intros w c run.
  assert (run = (None, snd run)) as Hrun by (vm_compute; reflexivity).
  split; [now rewrite Hrun |].
  destruct (snd run) as [w' tr'] eqn:Hsnd.
  destruct (SaveCandles_GetLastLoadedTime "BBG004730N88" CandleIntervalDay [c]
              w w' [] tr' Hrun ltac:(discriminate))
    as (t & Hget & Hnew & _).
  exists t. split; [now rewrite Hget | apply Hnew; now left].
Defined.

(** ** Loading the instruments *)

Lemma SaveInstrumentBasic_run {World : Type} (env : Env World) (i : Instrument)
      (w : World) (tr : list Event) :
  SaveInstrumentBasic env i (w, tr)
  = (Some (Errorf "ошибка сохранения инструмента"
                  (fst (dbExec env (UpsertInstrumentBasic i) w))),
     (snd (dbExec env (UpsertInstrumentBasic i) w),
      tr ++ [EvExec (UpsertInstrumentBasic i)
                    (fst (dbExec env (UpsertInstrumentBasic i) w))])).
Proof.
  unfold SaveInstrumentBasic. now rewrite bind_run, exec_run, ret_run.
Qed.

Section InstrumentFacts.
Context {World : Type} (env : Env World).
Variable ConvertMinPriceIncrement : Quotation -> float64.
Variable statusString : SecurityTradingStatus -> string.
Variable instrumentType : string.

Let traded (instruments : list ProtoInstrument) : list ProtoInstrument :=
  filter (fun p => IsNormalTrading (GetTradingStatus p)) instruments.

Let saveEvents (calls : list (Instrument * option error)) : list Event :=
  flat_map (fun c => [EvExec (UpsertInstrumentBasic (fst c)) (snd c);
                      EvLog ("Ошибка сохранения " ++ instrumentType)]) calls.

Lemma traded_cons (p : ProtoInstrument) (rest : list ProtoInstrument) :
  traded (p :: rest)
  = if IsNormalTrading (GetTradingStatus p) then p :: traded rest else traded rest.
Proof.
  unfold traded. rewrite filter_cons.
  destruct (IsNormalTrading (GetTradingStatus p)); cbn;
    destruct (decide _) as [H | H]; cbn in H; try reflexivity; tauto.
Qed.



(** X19.  A nil price increment on an instrument in normal trading stops
    [processInstruments] with a panic: the instruments before it have been
    sent to the database, the ones after it are never looked at and the
    closing line is not logged. *)
Theorem processInstruments_nil_increment (pre post : list ProtoInstrument)
        (p : ProtoInstrument) (w : World) (tr : list Event) :
  Forall convertible pre ->
  IsNormalTrading (GetTradingStatus p) = true ->
  GetMinPriceIncrement p = None ->
  exists calls w',
    Forall2 (builtFrom ConvertMinPriceIncrement statusString instrumentType)
            (filter (fun p => IsNormalTrading (GetTradingStatus p)) pre)
            (map fst calls) /\
    processInstruments env ConvertMinPriceIncrement statusString
      (pre ++ p :: post) instrumentType (w, tr)
    = (Panics,
       (w', tr ++ flat_map
                    (fun c => [EvExec (UpsertInstrumentBasic (fst c)) (snd c);
                               EvLog ("Ошибка сохранения " ++ instrumentType)])
                    calls)).
Proof.
  intros Hpre Hnormal Hnil.
  assert (forall count w tr,
             exists calls w',
               Forall2 (builtFrom ConvertMinPriceIncrement statusString
                          instrumentType) (traded pre) (map fst calls) /\
               processInstrumentsLoop env ConvertMinPriceIncrement statusString
                 (pre ++ p :: post) instrumentType count (w, tr)
               = (Panics, (w', tr ++ saveEvents calls))) as Hloop.
  { clear w tr. induction Hpre as [| a rest Ha _ IH]; intros count w tr.
    - exists [], w. split; [constructor |].
      cbn [app processInstrumentsLoop]. rewrite Hnormal, Hnil.
      cbn. now rewrite app_nil_r.
    - rewrite traded_cons. cbn [app processInstrumentsLoop].
      unfold convertible in Ha.
      destruct (IsNormalTrading (GetTradingStatus a)); [| apply IH].
      destruct (GetMinPriceIncrement a) as [q |] eqn:Hq; [| now destruct Ha].
      rewrite bind_run, SaveInstrumentBasic_run. cbn [fst snd].
      rewrite bind_run, logf_run. cbn [fst snd].
      set (i := CreateInstrumentFromProto _ _ _ _ _ _ _ _ _ _).
      destruct (IH count (snd (dbExec env (UpsertInstrumentBasic i) w))
                  ((tr ++ [EvExec (UpsertInstrumentBasic i)
                             (fst (dbExec env (UpsertInstrumentBasic i) w))])
                   ++ [EvLog ("Ошибка сохранения " ++ instrumentType)]))
        as (calls & w' & Hbuilt & Hrun).
      exists ((i, fst (dbExec env (UpsertInstrumentBasic i) w)) :: calls), w'.
      split.
      + cbn [map fst]. constructor; [| exact Hbuilt]. now exists q.
      + rewrite Hrun. cbn [saveEvents flat_map fst snd app].
        now rewrite <- !app_assoc. }
  destruct (Hloop 0 w tr) as (calls & w' & Hbuilt & Hrun).
  exists calls, w'. split; [exact Hbuilt |].
  unfold processInstruments. rewrite bind_run, Hrun. reflexivity.
Qed.
End InstrumentFacts.


Lemma processInstruments_nil_increment_witness :
  let listed :=
    mkProtoInstrument "BBG004730N88" "SBER" "Sberbank" "rub" 10
      (Some (mkQuotation 0 10000000)) SECURITY_TRADING_STATUS_NORMAL_TRADING in
  let broken :=
    mkProtoInstrument "BBG000000002" "NOINC" "No increment" "rub" 1
      None SECURITY_TRADING_STATUS_NORMAL_TRADING in
  Forall convertible [listed] /\
  IsNormalTrading (GetTradingStatus broken) = true /\
  GetMinPriceIncrement broken = None /\
  fst (processInstruments simEnv (fun q => Units q) tradingStatusToString
         ([listed] ++ broken :: [listed]) "share" (emptyWorld 1700000000, []))
  = Panics.
Proof.
  intros listed broken.
  assert (Forall convertible [listed]) as Hok.
  { repeat constructor; unfold convertible; cbn; congruence. }
  split; [exact Hok |]. split; [reflexivity |]. split; [reflexivity |].
  destruct (processInstruments_nil_increment simEnv (fun q => Units q)
              tradingStatusToString "share" [listed] [listed] broken
              (emptyWorld 1700000000) [] Hok eq_refl eq_refl)
    as (calls & w' & _ & Hrun).
  now rewrite Hrun.
Defined.

(** ** The instruments table after a load *)



Section InstrumentTable.
Variable ConvertMinPriceIncrement : Quotation -> float64.
Variable statusString : SecurityTradingStatus -> string.
Variable instrumentType : string.




End InstrumentTable.


(** ** Texts of the export *)

(** X21.  [tradingStatusToString] tells the named trading statuses apart:
    two statuses with the same text are the same status, or both are
    numbers without a name (the text [unknown]).  The text is
    [normal_trading] exactly for the status [IsNormalTrading] accepts. *)
Theorem tradingStatusToString_distinct (a b : SecurityTradingStatus) :
  (tradingStatusToString a = tradingStatusToString b ->
   a = b \/ (exists n m, a = SECURITY_TRADING_STATUS_other n /\
                         b = SECURITY_TRADING_STATUS_other m)) /\
  (tradingStatusToString a = "normal_trading"%string <-> IsNormalTrading a = true) /\
  (tradingStatusToString a = "unknown"%string
   <-> exists n, a = SECURITY_TRADING_STATUS_other n).
Proof.
  split; [| split].
  - destruct a, b; cbn; intros H;
      first [ left; reflexivity | discriminate H
            | right; do 2 eexists; split; reflexivity ].
  - destruct a; cbn; split; intros H; first [reflexivity | discriminate H].
  - destruct a; cbn; split; intros H;
      first [ reflexivity | discriminate H | eexists; reflexivity
            | destruct H as [n H]; discriminate H ].
Qed.

Lemma escapeTabs_map (s : list ascii) :
  escapeTabs s
  = map (fun c => if Ascii.eqb c "009" || Ascii.eqb c "010" || Ascii.eqb c "013"
                  then " "%char else c) s.
Proof.
  unfold escapeTabs, replaceByte. rewrite !map_map. apply map_ext. intros c.
  destruct (Ascii.eqb_spec c "009") as [-> | H1]; [reflexivity |].
  destruct (Ascii.eqb_spec c "010") as [-> | H2]; [reflexivity |].
  destruct (Ascii.eqb_spec c "013") as [-> | H3]; reflexivity.
Qed.

(** X22.  [escapeTabs] keeps the length of the text and every byte that
    is not a tab, a line feed or a carriage return at its place, puts a
    space where one of the three stood, and so leaves none of them in
    its result; applying it twice changes nothing more. *)
Theorem escapeTabs_spec (s : list ascii) :
  length (escapeTabs s) = length s /\
  (forall n c, nth_error s n = Some c ->
               nth_error (escapeTabs s) n
               = Some (if Ascii.eqb c "009" || Ascii.eqb c "010" || Ascii.eqb c "013"
                       then " "%char else c)) /\
  (forall c, In c (escapeTabs s) ->
             c <> "009"%char /\ c <> "010"%char /\ c <> "013"%char) /\
  escapeTabs (escapeTabs s) = escapeTabs s.
Proof.
  rewrite !escapeTabs_map. split; [apply length_map |]. split; [| split].
  - intros n c Hn. now rewrite nth_error_map, Hn.
  - intros c Hc. apply in_map_iff in Hc as (x & <- & _).
    destruct (Ascii.eqb_spec x "009") as [-> | H1];
      [cbn; repeat split; discriminate |].
    destruct (Ascii.eqb_spec x "010") as [-> | H2];
      [cbn; repeat split; discriminate |].
    destruct (Ascii.eqb_spec x "013") as [-> | H3];
      [cbn; repeat split; discriminate |].
    cbn. auto.
  - rewrite map_map. apply map_ext. intros c.
    destruct (Ascii.eqb_spec c "009") as [-> | H1]; [reflexivity |].
    destruct (Ascii.eqb_spec c "010") as [-> | H2]; [reflexivity |].
    destruct (Ascii.eqb_spec c "013") as [-> | H3]; [reflexivity |].
    cbn. destruct (Ascii.eqb_spec c "009"); [contradiction |].
    destruct (Ascii.eqb_spec c "010"); [contradiction |].
    destruct (Ascii.eqb_spec c "013"); [contradiction |]. reflexivity.
Qed.

(** ** The request loop of the archive download *)

Lemma call_run {World A : Type} (f : World -> A * World)
      (w : World) (tr : list Event) :
  call f (w, tr) = (fst (f w), (snd (f w), tr)).
Proof. unfold call. now destruct (f w). Qed.

Lemma closeResponse_sim (w : HttpWorld) (tr : list Event) :
  closeResponse simArchive (w, tr) = (tt, (w, tr)).
Proof. reflexivity. Qed.

Lemma closeArchive_sim (w : HttpWorld) (tr : list Event) :
  closeArchive simArchive (w, tr) = (tt, (w, tr)).
Proof. reflexivity. Qed.

Lemma sleeps_app (a b : list Event) : sleeps (a ++ b) = sleeps a ++ sleeps b.
Proof. unfold sleeps. apply flat_map_app. Qed.

(** One attempt that is not taken, with attempts left. *)
Lemma requestLoop_again (figi : string) (year : Z) (remaining : nat)
      (delay : Duration) (r : DoResult) (script : list DoResult)
      (n c : nat) (tr : list Event) :
  accepted r = false ->
  requestLoop simArchive figi year (S remaining) delay
    (mkHttp (r :: script) n c, tr)
  = requestLoop simArchive figi year remaining (wrap64 (delay * 2))
      (mkHttp script (S n) c,
       tr ++ [EvLog "Попытка не удалась, повтор"; EvSleep delay]).
Proof.
  intros Hr. cbn [requestLoop]. rewrite bind_run, call_run. cbn [fst snd].
  change (clientDo simArchive figi year (mkHttp (r :: script) n c))
    with (r, mkHttp script (S n) c).
  cbn [fst snd]. destruct r as [status | [status |] err]; cbn [accepted] in Hr.
  - rewrite Hr, bind_run, closeResponse_sim. cbn [fst snd].
    rewrite bind_run, logf_run. cbn [fst snd].
    rewrite bind_run, emit_run. cbn [fst snd]. now rewrite <- app_assoc.
  - rewrite bind_run, closeResponse_sim. cbn [fst snd].
    rewrite bind_run, logf_run. cbn [fst snd].
    rewrite bind_run, emit_run. cbn [fst snd]. now rewrite <- app_assoc.
  - rewrite bind_run, ret_run. cbn [fst snd].
    rewrite bind_run, logf_run. cbn [fst snd].
    rewrite bind_run, emit_run. cbn [fst snd]. now rewrite <- app_assoc.
Qed.

(** The last attempt, not taken. *)
Lemma requestLoop_last (figi : string) (year : Z) (delay : Duration)
      (script : list DoResult) (n c : nat) (tr : list Event) :
  accepted (hd (DoError None timedOut) script) = false ->
  requestLoop simArchive figi year 0 delay (mkHttp script n c, tr)
  = (inl (giveUpError (hd (DoError None timedOut) script)),
     (mkHttp (tl script) (S n) c, tr)).
Proof.
  intros Hr. cbn [requestLoop]. rewrite bind_run, call_run. cbn [fst snd].
  change (clientDo simArchive figi year (mkHttp script n c))
    with (hd (DoError None timedOut) script, mkHttp (tl script) (S n) c).
  cbn [fst snd].
  destruct (hd (DoError None timedOut) script) as [status | [status |] err];
    cbn [accepted] in Hr.
  - rewrite Hr, bind_run, closeResponse_sim. reflexivity.
  - rewrite bind_run, closeResponse_sim. reflexivity.
  - rewrite bind_run, ret_run. reflexivity.
Qed.

(** An attempt that is taken. *)
Lemma requestLoop_taken (figi : string) (year : Z) (remaining : nat)
      (delay : Duration) (r : DoResult) (script : list DoResult)
      (n c : nat) (tr : list Event) :
  accepted r = true ->
  requestLoop simArchive figi year remaining delay
    (mkHttp (r :: script) n c, tr)
  = (inr StatusOK,
     (mkHttp script (S n) c, tr ++ [EvLog "Успешный ответ от API"])).
Proof.
  intros Hr. destruct r as [status | resp err]; [| discriminate Hr].
  cbn [accepted] in Hr.
  destruct remaining; cbn [requestLoop]; rewrite bind_run, call_run;
    cbn [fst snd];
    change (clientDo simArchive figi year (mkHttp (DoResponse status :: script) n c))
      with (DoResponse status, mkHttp script (S n) c);
    cbn [fst snd]; rewrite Hr, bind_run, logf_run, ret_run;
    apply Z.eqb_eq in Hr; now subst status.
Qed.

Lemma requestLoop_succeeds (figi : string) (year : Z) (pre : list DoResult) :
  forall (remaining : nat) (delay : Duration) (ok : DoResult)
         (rest : list DoResult) (n c : nat) (tr : list Event),
    Forall (fun r => accepted r = false) pre ->
    accepted ok = true ->
    (length pre <= remaining)%nat ->
    exists tr',
      requestLoop simArchive figi year remaining delay
        (mkHttp (pre ++ ok :: rest) n c, tr)
      = (inr StatusOK, (mkHttp rest (n + length pre + 1) c, tr')) /\
      sleeps tr' = sleeps tr ++ backoff (length pre) delay.
Proof.
  induction pre as [| r pre IH];
    intros remaining delay ok rest n c tr Hpre Hok Hlen.
  - cbn [app length]. rewrite (requestLoop_taken _ _ _ _ _ _ _ _ _ Hok).
    replace (n + 0 + 1)%nat with (S n) by lia.
    eexists. split; [reflexivity |].
    rewrite sleeps_app. cbn. now rewrite app_nil_r.
  - inversion Hpre as [| ? ? Hr Hpre']; subst.
    destruct remaining as [| remaining]; [cbn in Hlen; lia |].
    cbn [app]. rewrite (requestLoop_again _ _ _ _ _ _ _ _ _ Hr).
    destruct (IH remaining (wrap64 (delay * 2)) ok rest (S n) c
                (tr ++ [EvLog "Попытка не удалась, повтор"; EvSleep delay])
                Hpre' Hok ltac:(cbn in Hlen; lia)) as (tr' & Hrun & Hsl).
    exists tr'. split.
    + rewrite Hrun. cbn [length].
      now replace (S n + length pre + 1)%nat with (n + S (length pre) + 1)%nat
        by lia.
    + rewrite Hsl, sleeps_app. cbn [length backoff].
      rewrite <- app_assoc. reflexivity.
Qed.

Lemma requestLoop_gives_up (figi : string) (year : Z) (remaining : nat) :
  forall (delay : Duration) (script : list DoResult) (n c : nat)
         (tr : list Event),
    Forall (fun r => accepted r = false) (firstn (S remaining) script) ->
    exists tr',
      requestLoop simArchive figi year remaining delay (mkHttp script n c, tr)
      = (inl (giveUpError (nth remaining script (DoError None timedOut))),
         (mkHttp (skipn (S remaining) script) (n + S remaining) c, tr')) /\
      sleeps tr' = sleeps tr ++ backoff remaining delay.
Proof.
  induction remaining as [| remaining IH]; intros delay script n c tr Hall.
  - assert (accepted (hd (DoError None timedOut) script) = false) as Hr.
    { destruct script as [| r script]; [reflexivity |].
      now inversion Hall. }
    rewrite (requestLoop_last _ _ _ _ _ _ _ Hr). exists tr. split.
    + replace (n + 1)%nat with (S n) by lia. now destruct script.
    + cbn. now rewrite app_nil_r.
  - destruct script as [| r script].
    + (* the script is over: a time-out, as if it were in the script *)
      assert (requestLoop simArchive figi year (S remaining) delay
                (mkHttp [] n c, tr)
              = requestLoop simArchive figi year remaining (wrap64 (delay * 2))
                  (mkHttp [] (S n) c,
                   tr ++ [EvLog "Попытка не удалась, повтор"; EvSleep delay]))
        as Hstep.
      { cbn [requestLoop]. rewrite bind_run, call_run. cbn [fst snd].
        change (clientDo simArchive figi year (mkHttp [] n c))
          with (DoError None timedOut, mkHttp [] (S n) c).
        cbn [fst snd]. rewrite bind_run, ret_run. cbn [fst snd].
        rewrite bind_run, logf_run. cbn [fst snd].
        rewrite bind_run, emit_run. cbn [fst snd]. now rewrite <- app_assoc. }
      rewrite Hstep.
      destruct (IH (wrap64 (delay * 2)) [] (S n) c
                  (tr ++ [EvLog "Попытка не удалась, повтор"; EvSleep delay])
                  ltac:(constructor)) as (tr' & Hrun & Hsl).
      exists tr'. split.
      * rewrite Hrun.
        replace (S n + S remaining)%nat with (n + S (S remaining))%nat by lia.
        now destruct remaining.
      * rewrite Hsl, sleeps_app. cbn [backoff]. now rewrite <- app_assoc.
    + inversion Hall as [| ? ? Hr Hall']; subst.
      rewrite (requestLoop_again _ _ _ _ _ _ _ _ _ Hr).
      destruct (IH (wrap64 (delay * 2)) script (S n) c
                  (tr ++ [EvLog "Попытка не удалась, повтор"; EvSleep delay])
                  Hall') as (tr' & Hrun & Hsl).
      exists tr'. split.
      * rewrite Hrun. cbn [nth skipn].
        now replace (S n + S remaining)%nat with (n + S (S remaining))%nat by lia.
      * rewrite Hsl, sleeps_app. cbn [backoff]. now rewrite <- app_assoc.
Qed.

(** X23.  Against a server that answers from a script,
    [DownloadYearArchive] sends at most three requests.  It stops at the
    first answer with status 200 and no error, creates the archive file
    once and returns what [processArchive] returns; before the second
    request it has slept 5 seconds and before the third 10 more.  When
    none of the first three answers is taken it returns the error of the
    third one after exactly three requests and 15 seconds of sleep, and
    creates no file. *)
Theorem DownloadYearArchive_retries (figi : string) (year : Z)
        (script : list DoResult) (n c : nat) (tr : list Event) :
  let run := DownloadYearArchive simArchive figi year (mkHttp script n c, tr) in
  let after := fst (snd run) in
  let slept := sleeps (snd (snd run)) in
  (forall pre ok rest,
      script = pre ++ ok :: rest ->
      Forall (fun r => accepted r = false) pre ->
      accepted ok = true ->
      (length pre <= 2)%nat ->
      fst run = inr [] /\
      after = mkHttp rest (n + length pre + 1) (S c) /\
      slept = sleeps tr ++ firstn (length pre) [5 * Second; 10 * Second]) /\
  (Forall (fun r => accepted r = false) (firstn 3 script) ->
   fst run = inl (giveUpError (nth 2 script (DoError None timedOut))) /\
   after = mkHttp (skipn 3 script) (n + 3) c /\
   slept = sleeps tr ++ [5 * Second; 10 * Second]).
Proof.
  intros run after slept. split.
  - intros pre ok rest -> Hpre Hok Hlen.
    destruct (requestLoop_succeeds figi year pre 2 DefaultRetryDelay ok rest
                n c tr Hpre Hok Hlen) as (tr' & Hrun & Hsl).
    subst after slept run. unfold DownloadYearArchive.
    change (newRequest simArchive figi year) with (@None error). cbv iota.
    rewrite bind_run, Hrun. cbn [fst snd].
    rewrite bind_run, call_run. cbn [fst snd].
    change (osCreate simArchive figi year (mkHttp rest (n + length pre + 1) c))
      with (@None error, mkHttp rest (n + length pre + 1) (S c)).
    cbn [fst snd]. rewrite bind_run, call_run. cbn [fst snd].
    change (ioCopy simArchive (mkHttp rest (n + length pre + 1) (S c)))
      with (@None error, mkHttp rest (n + length pre + 1) (S c)).
    cbn [fst snd]. rewrite bind_run.
    change (processArchive simArchive figi)
      with (@ret HttpWorld (error + list HistoricCandle) (inr [])).
    rewrite ret_run. cbn [fst snd].
    rewrite bind_run, closeArchive_sim. cbn [fst snd].
    rewrite bind_run, closeResponse_sim, ret_run. cbn [fst snd].
    split; [reflexivity |]. split; [reflexivity |].
    rewrite Hsl. f_equal.
    destruct pre as [| a [| b [| d pre]]]; cbn in Hlen |- *;
      first [reflexivity | lia].
  - intros Hall.
    destruct (requestLoop_gives_up figi year 2 DefaultRetryDelay script n c tr
                Hall) as (tr' & Hrun & Hsl).
    subst after slept run. unfold DownloadYearArchive.
    change (newRequest simArchive figi year) with (@None error). cbv iota.
    rewrite bind_run, Hrun. cbn [fst snd]. rewrite ret_run. cbn [fst snd].
    split; [reflexivity |]. split; [reflexivity |].
    rewrite Hsl. reflexivity.
Qed.

Example DownloadYearArchive_second_attempt :
  let script := [DoResponse 503; DoResponse 200] in
  let run := DownloadYearArchive simArchive "BBG004730N88" 2024
               (mkHttp script 0 0, []) in
  fst run = inr [] /\ asked (fst (snd run)) = 2%nat /\
  sleeps (snd (snd run)) = [5 * Second].
Proof. vm_compute. repeat split; reflexivity. Qed.
